(** * Huffman coder (haqu/huffman, src/main.cpp): shallow embedding and properties

    The development follows the source top-down:
    - [F32]      : the C type [float] as IEEE-754 binary32 (SpecFloat, prec 24, emax 128);
    - [CharMap]  : [std::map<char, V>] as an association list kept in key order
                   (the code iterates its maps, so the order is part of the model);
    - [pnode], [pnode_compare], [treenode] : the structs of the source;
    - [count_chars], [build_ptable], [EncHuffman], [GenerateCode], [Encode],
      [Decode] : the member functions of class Coder.

    Out of the embedding: the digits written by printf/fprintf and read back
    by fscanf. [Encode] returns [tsize], the table rows and the encoded text as
    a record, which stands for the file made of the line of [tsize], one line
    per row (character, tab, probability, tab, codeword), an empty line and
    the text. [Decode] takes the record where its reads find the rows and the
    text of the record in that file ([well_laid]); what it does with any other
    file depends on the digits, and is left as a parameter ([misread]).

    Platform choices that the C++ standard leaves to the implementation:
    [char] is signed and 8 bits wide, [int] and [unsigned] are 32 bits wide and
    signed overflow wraps, [float] is binary32 with round-to-nearest-even.
    [qsort] leaves the order of equal elements unspecified; [Encode] takes the
    sorting function as an argument, and the results hold for every sorting
    function that permutes its array ([permutes]).

    Main results:
    - the code table is prefix-free and its codewords have between 1 and
      [n - 1] bits for [n >= 2] distinct characters;
    - Decode reads back what Encode wrote when the input has two or more
      distinct characters and every codeword fits the 128 bytes of its
      buffer; with one distinct character the codeword is empty and the input
      is lost; on the empty input the run is undefined;
    - the working vector of the merge loop stays in descending order and the
      edge labels follow the weights;
    - the table is of minimum cost when the rounded weights keep the order of
      the exact ones, and is not on an input where they do not. *)

From Stdlib Require Import String.
From Stdlib Require Import ZArith List Ascii Bool Lia Permutation Sorted.
From Stdlib Require Import Floats.SpecFloat.
Import ListNotations.

Local Open Scope Z_scope.

(** ** Machine integers *)

Definition wrap_unsigned (z : Z) : Z := z mod 2 ^ 32.

Definition wrap_int (z : Z) : Z := (z + 2 ^ 31) mod 2 ^ 32 - 2 ^ 31.

(** ** The type [float] *)

Definition float := spec_float.

Module F32.

Definition prec : Z := 24.
Definition emax : Z := 128.

(** [float(n)] for an integer [n]: the nearest binary32 value. *)
Definition of_int (n : Z) : float := binary_normalize prec emax n 0 false.

Definition add (x y : float) : float := SFadd prec emax x y.
Definition div (x y : float) : float := SFdiv prec emax x y.

(** [x < y] on floats; false as soon as one side is a NaN. *)
Definition ltb (x y : float) : bool := SFltb x y.

End F32.

(** ** Characters and strings *)

Definition char := ascii.

(** A [std::string] is the list of its characters. *)
Definition str := list char.

(** The value of a [char] as the signed 8-bit integer it is. *)
Definition char_val (c : char) : Z :=
  let n := Z.of_N (N_of_ascii c) in
  if n <? 128 then n else n - 256.

(** [operator<] on [char], the key order of [std::map<char, V>]. *)
Definition char_ltb (a b : char) : bool := char_val a <? char_val b.

Definition char_lt (a b : char) : Prop := char_ltb a b = true.

Definition char_eqb (a b : char) : bool := Ascii.eqb a b.

Definition NUL : char := ascii_of_N 0.

(** [(char)EOF]: the byte 0xFF compares equal to [EOF] once stored in a [char]. *)
Definition EOF_char : char := ascii_of_N 255.

(** [s.c_str()] as seen by [strcmp]: the characters before the first NUL. *)
Fixpoint c_str (s : str) : str :=
  match s with
  | [] => []
  | c :: s' => if char_eqb c NUL then [] else c :: c_str s'
  end.

Fixpoint str_eqb (a b : str) : bool :=
  match a, b with
  | [], [] => true
  | x :: a', y :: b' => char_eqb x y && str_eqb a' b'
  | _, _ => false
  end.

(** [strcmp(a.c_str(), b.c_str())], as an integer that is zero exactly when the
    two C strings are equal (the sign is not used by the program). *)
Definition strcmp (a b : str) : Z :=
  if str_eqb (c_str a) (c_str b) then 0 else 1.

(** ** std::map<char, V> *)

Module CharMap.
Section WithValue.

Context {V : Type}.

Definition t := list (char * V).

Definition empty : t := [].

Fixpoint find (k : char) (m : t) : option V :=
  match m with
  | [] => None
  | (k', v) :: m' => if char_eqb k k' then Some v else find k m'
  end.

(** [m[k] = v]: overwrite the entry of [k], or insert it at its place in key order. *)
Fixpoint set (k : char) (v : V) (m : t) : t :=
  match m with
  | [] => [(k, v)]
  | (k', v') :: m' =>
      if char_eqb k k' then (k, v) :: m'
      else if char_ltb k k' then (k, v) :: (k', v') :: m'
      else (k', v') :: set k v m'
  end.

(** [m[k]] as an rvalue: a missing key is inserted with the default value. *)
Definition index (dflt : V) (k : char) (m : t) : V * t :=
  match find k m with
  | Some v => (v, m)
  | None => (dflt, set k dflt m)
  end.

Definition keys (m : t) : list char := map fst m.

Definition size (m : t) : nat := length m.

(** The keys are strictly increasing: the order [std::map] keeps and iterates in. *)
Definition ordered (m : t) : Prop := StronglySorted char_lt (keys m).

End WithValue.
Arguments t : clear implicits.
End CharMap.

(** ** The structs of the source *)

Record pnode := { ch : char; p : float }.

Definition pnode_compare (a b : pnode) : Z :=
  if F32.ltb (p a) (p b) then 1
  else if F32.ltb (p b) (p a) then -1
  else 0.

(** A [treenode] is created either with both children NULL (a leaf, fields
    [ch] and [p] set) or with both children set (fields [p], [lcode], [rcode],
    [left], [right] set). *)
Inductive treenode :=
| Leaf (ch : char) (p : float)
| Node (p : float) (lcode rcode : char) (left right : treenode).

Definition weight (n : treenode) : float :=
  match n with
  | Leaf _ w => w
  | Node w _ _ _ _ => w
  end.

(** ** Coder::Encode, first part: counting and the table of probabilities *)

(** One iteration of the counting loop: [freqs[ch]++; total++]. *)
Definition count_step (st : CharMap.t Z * Z) (c : char) : CharMap.t Z * Z :=
  let '(freqs, total) := st in
  let '(n, freqs1) := CharMap.index 0 c freqs in
  (CharMap.set c (wrap_int (n + 1)) freqs1, wrap_unsigned (total + 1)).

Definition count_chars (input : list char) : CharMap.t Z * Z :=
  fold_left count_step input (CharMap.empty, 0).

(** The loop over [freqs] that fills [ptable], in key order. *)
Definition build_ptable (freqs : CharMap.t Z) (total : Z) : list pnode :=
  let ftot := F32.of_int total in
  map (fun e => {| ch := fst e; p := F32.div (F32.of_int (snd e)) ftot |}) freqs.

(** ** Undefined behaviour as failure

    Indexing a vector or an array out of range and [pop_back] on an empty
    vector are undefined in C++; the embedding returns [None] there. *)

Definition bind {A B : Type} (o : option A) (f : A -> option B) : option B :=
  match o with
  | Some a => f a
  | None => None
  end.

Notation "x <- e ;; k" := (bind e (fun x => k))
  (at level 61, e at next level, right associativity).

Definition pop_back {A : Type} (v : list A) : option (list A) :=
  match v with
  | [] => None
  | _ => Some (removelast v)
  end.

(** ** Coder::EncHuffman *)

Definition c0 : char := "0"%char.
Definition c1 : char := "1"%char.

(** The first loop: one leaf per row of [ptable], pushed at the back of [tops].
    [todo] is [numtop - i]. *)
Fixpoint create_leaves (ptable : list pnode) (todo i : nat) (tops : list treenode)
  : option (list treenode) :=
  match todo with
  | O => Some tops
  | S todo' =>
      e <- nth_error ptable i ;;
      create_leaves ptable todo' (S i) (tops ++ [Leaf (ch e) (p e)])
  end.

(** The node allocated by one iteration of the merge loop, with its two edge labels. *)
Definition new_node (l r : treenode) : treenode :=
  let w := F32.add (weight l) (weight r) in
  if F32.ltb (weight l) (weight r) then Node w c0 c1 l r else Node w c1 c0 l r.

(** The scan [for (ti = tops.begin(); ...)]: insert before the first node that
    is strictly lighter than [n], push at the back when there is none. *)
Fixpoint insert_node (n : treenode) (tops : list treenode) : list treenode :=
  match tops with
  | [] => [n]
  | t :: ts =>
      if F32.ltb (weight t) (weight n) then n :: t :: ts
      else t :: insert_node n ts
  end.

(** The body of [while (numtop > 1)], without the final [numtop--]. *)
Definition merge_step (numtop : nat) (tops : list treenode) : option (list treenode) :=
  l <- nth_error tops (numtop - 2) ;;
  r <- nth_error tops (numtop - 1) ;;
  tops1 <- pop_back tops ;;
  tops2 <- pop_back tops1 ;;
  Some (insert_node (new_node l r) tops2).

Fixpoint merge_loop (numtop : nat) (tops : list treenode) : option (list treenode) :=
  match numtop with
  | S (S _ as numtop') =>
      tops' <- merge_step numtop tops ;;
      merge_loop numtop' tops'
  | _ => Some tops
  end.

(** ** Coder::GenerateCode

    The function-local [static string sequence] and the member [codes] are
    threaded through the recursion. *)

(** The last statement of GenerateCode: drop the last character of [sequence]. *)
Definition chop (sequence : str) : str :=
  if (1 <? Z.of_nat (length sequence)) then firstn (length sequence - 1) sequence
  else [].

Fixpoint GenerateCode (node : treenode) (st : str * CharMap.t str) : str * CharMap.t str :=
  match node with
  | Leaf c _ =>
      let '(sequence, codes) := st in
      (chop sequence, CharMap.set c sequence codes)
  | Node _ lcode rcode node_left node_right =>
      let '(sequence, codes) := st in
      let '(sequence1, codes1) := GenerateCode node_left (sequence ++ [lcode], codes) in
      let '(sequence2, codes2) := GenerateCode node_right (sequence1 ++ [rcode], codes1) in
      (chop sequence2, codes2)
  end.

(** EncHuffman up to [treenode *root = tops[0]]: it reads the members [tsize]
    and [ptable]. *)
Definition build_tree (tsize : nat) (ptable : list pnode) : option treenode :=
  let numtop := tsize in
  tops <- create_leaves ptable numtop 0 [] ;;
  tops' <- merge_loop numtop tops ;;
  nth_error tops' 0.

(** [EncHuffman] fills the member [codes]; [sequence] is empty at the first
    call of GenerateCode in a process. *)
Definition EncHuffman (tsize : nat) (ptable : list pnode) (codes : CharMap.t str)
  : option (CharMap.t str) :=
  root <- build_tree tsize ptable ;;
  Some (snd (GenerateCode root ([], codes))).

(** ** Coder::Encode *)

(** One row of the table written in front of the encoded text:
    the character, its probability and its codeword. *)
Definition row := (char * float * str)%type.

(** The loop that writes the table: row [i] reads [ptable[i]] and [codes[ptable[i].ch]].
    [todo] is [tsize - i]. *)
Fixpoint output_rows (ptable : list pnode) (todo i : nat) (codes : CharMap.t str)
  : option (list row * CharMap.t str) :=
  match todo with
  | O => Some ([], codes)
  | S todo' =>
      e <- nth_error ptable i ;;
      let '(code, codes1) := CharMap.index [] (ch e) codes in
      rest <- output_rows ptable todo' (S i) codes1 ;;
      Some ((ch e, p e, code) :: fst rest, snd rest)
  end.

(** The loop that writes the encoded text: [codes[ch]] for every character read. *)
Definition output_step (st : str * CharMap.t str) (c : char) : str * CharMap.t str :=
  let '(out, codes) := st in
  let '(code, codes1) := CharMap.index [] c codes in
  (out ++ code, codes1).

Definition encode_text (codes : CharMap.t str) (input : list char) : str :=
  fst (fold_left output_step input ([], codes)).

(** What Encode leaves in the output file. *)
Record encoded := { enc_tsize : nat; enc_rows : list row; enc_text : str }.

Section Encode.

(** [qsort(base, n, size, compare)] on an array of [pnode]. *)
Variable qsort : (pnode -> pnode -> Z) -> list pnode -> list pnode.

(** Encode up to and including the call of EncHuffman: the members
    [tsize], [ptable] and [codes] after it. *)
Definition BuildCode (input : list char) : option (nat * list pnode * CharMap.t str) :=
  let '(freqs, total) := count_chars input in
  let tsize := CharMap.size freqs in
  let ptable := qsort pnode_compare (build_ptable freqs total) in
  codes <- EncHuffman tsize ptable CharMap.empty ;;
  Some (tsize, ptable, codes).

Definition Encode (input : list char) : option encoded :=
  built <- BuildCode input ;;
  let '(tsize, ptable, codes) := built in
  rows <- output_rows ptable tsize 0 codes ;;
  Some {| enc_tsize := tsize;
          enc_rows := fst rows;
          enc_text := encode_text (snd rows) input |}.

End Encode.

(** ** Coder::Decode *)

(** The characters [fscanf] skips and [%s] stops at: [isspace] in the C locale. *)
Definition isspace (c : char) : bool :=
  let n := N_of_ascii c in
  ((9 <=? n) && (n <=? 13) || (n =? 32))%N.

(** The rows and the text as the reads of Decode find them in the file. In
    each row [fgetc] takes the character, [%f] the probability and [%s] the
    codeword up to the end of the line, provided the codeword holds no white
    space and is not empty. After an empty codeword [%s] goes on into what
    follows; it finds the end of the file, and stores nothing, when the row
    is the last one and the text is empty. *)
Fixpoint rows_laid (rows : list row) (text : str) : bool :=
  match rows with
  | [] => true
  | (_, _, w) :: rows' =>
      forallb (fun c => negb (isspace c)) w
      && match w with
         | [] => match rows', text with [], [] => true | _, _ => false end
         | _ :: _ => true
         end
      && rows_laid rows' text
  end.

(** Decode reads [tsize] with [%i] into an [int], then [tsize] rows, then the
    text: it reads the record when [tsize] is the number of its rows. *)
Definition well_laid (e : encoded) : bool :=
  (enc_tsize e =? length (enc_rows e))%nat
  && (Z.of_nat (enc_tsize e) <? 2 ^ 31)
  && rows_laid (enc_rows e) (enc_text e).

(** Loading codes, one row per turn of [for (i = 0; i < tsize; i++)]:
    [fscanf("%f %s", &p, code)] then [codes[ch] = code]. [code] is the C
    string the array [char code[128]] holds. A codeword of 128 characters or
    more is written beyond the end of the array. With an empty codeword
    nothing is stored and the array keeps what it held. *)
Fixpoint load_codes (rows : list row) (code : str) (codes : CharMap.t str)
  : option (CharMap.t str) :=
  match rows with
  | [] => Some codes
  | (c, _, w) :: rows' =>
      if (128 <=? length w)%nat then None
      else
        let code' := match w with [] => code | _ :: _ => w end in
        load_codes rows' code' (CharMap.set c (c_str code') codes)
  end.

(** The inner loop over [codes], for one entry: on [strcmp == 0] the
    accumulator is emptied and the character is written; the loop goes on to
    the next entry either way. *)
Definition match_step (st : str * list char) (e : char * str) : str * list char :=
  let '(accum, out) := st in
  if strcmp (snd e) accum =? 0 then ([], out ++ [fst e]) else (accum, out).

Definition scan_codes (codes : CharMap.t str) (st : str * list char) : str * list char :=
  fold_left match_step codes st.

(** The loop [while ((ch = fgetc(inputFile)) != EOF)] over the rest of the file. *)
Fixpoint decode_loop (codes : CharMap.t str) (input : list char) (accum : str)
  (out : list char) : list char :=
  match input with
  | [] => out
  | c :: rest =>
      if char_eqb c EOF_char then out
      else
        let '(accum', out') := scan_codes codes (accum ++ [c], out) in
        decode_loop codes rest accum' out'
  end.

Definition decode_text (codes : CharMap.t str) (text : list char) : list char :=
  decode_loop codes text [] [].

Section Decode.

(** The array [code] is not initialised: [garbage] is the C string it holds
    before the first [%s] that stores something. *)
Variable garbage : str.

(** What Decode does with a file in which its reads do not find the rows and
    the text of the record: the table then ends elsewhere than [tsize] says,
    and what is read as a row or as text depends on the digits in the file. *)
Variable misread : encoded -> option (list char).

Definition Decode (e : encoded) : option (list char) :=
  if well_laid e then
    codes <- load_codes (enc_rows e) garbage CharMap.empty ;;
    Some (decode_text codes (enc_text e))
  else misread e.

End Decode.

(** ** A sorting function for concrete runs

    Insertion sort driven by the comparison function, one of the behaviours
    [qsort] may have. *)

Fixpoint isort_insert (cmp : pnode -> pnode -> Z) (x : pnode) (l : list pnode) : list pnode :=
  match l with
  | [] => [x]
  | y :: l' => if cmp x y <=? 0 then x :: y :: l' else y :: isort_insert cmp x l'
  end.

Fixpoint isort (cmp : pnode -> pnode -> Z) (l : list pnode) : list pnode :=
  match l with
  | [] => []
  | x :: l' => isort_insert cmp x (isort cmp l')
  end.

(** A string literal as a sequence of characters. *)
Definition chars (x : String.string) : list char := String.list_ascii_of_string x.

(** ** Notions used in the statements *)

(** [a] is a prefix of [b] (possibly [b] itself). *)
Definition prefix (a b : str) : Prop := exists rest, b = a ++ rest.

(** No codeword of the table is a prefix of the codeword of another character. *)
Definition prefix_free (codes : CharMap.t str) : Prop :=
  forall x y wx wy,
    x <> y ->
    CharMap.find x codes = Some wx ->
    CharMap.find y codes = Some wy ->
    ~ prefix wx wy.

(** What every [qsort] does: it rearranges the array. *)
Definition permutes (qsort : (pnode -> pnode -> Z) -> list pnode -> list pnode) : Prop :=
  forall cmp l, Permutation (qsort cmp l) l.

(** The leaf made from one row of [ptable]. *)
Definition leaf_of (e : pnode) : treenode := Leaf (ch e) (p e).

(** The characters at the leaves of a tree, left to right. *)
Fixpoint leaves (t : treenode) : list char :=
  match t with
  | Leaf c _ => [c]
  | Node _ _ _ l r => leaves l ++ leaves r
  end.

(** The edge labels from the root down to each leaf, left to right, each
    path prefixed by [pre]. *)
Fixpoint paths (t : treenode) (pre : str) : list (char * str) :=
  match t with
  | Leaf c _ => [(c, pre)]
  | Node _ lcode rcode l r => paths l (pre ++ [lcode]) ++ paths r (pre ++ [rcode])
  end.

(** The assignments [codes[c] = w] for the pairs of a list, first to last. *)
Definition set_all (l : list (char * str)) (codes : CharMap.t str) : CharMap.t str :=
  fold_left (fun m e => CharMap.set (fst e) (snd e) m) l codes.

(** The two edge labels of every internal node are '0' and '1', one each. *)
Fixpoint labelled (t : treenode) : Prop :=
  match t with
  | Leaf _ _ => True
  | Node _ lcode rcode l r =>
      ((lcode = c0 /\ rcode = c1) \/ (lcode = c1 /\ rcode = c0)) /\ labelled l /\ labelled r
  end.

(** A string of '0' and '1' characters. *)
Definition bits (w : str) : Prop := Forall (fun x => x = c0 \/ x = c1) w.

(** A table the decoding loop reads back without ambiguity: one entry per
    character, every codeword a non-empty string of bits, no codeword a prefix
    of another. *)
Definition decodable (codes : CharMap.t str) : Prop :=
  NoDup (CharMap.keys codes) /\
  (forall k w, In (k, w) codes -> bits w /\ w <> []) /\
  prefix_free codes.

(** The number of distinct characters of the input. *)
Definition distinct (input : list char) : nat := length (nodup ascii_dec input).

(** The codeword [codes[c]] reads when nothing is inserted: the entry of [c],
    the empty string when there is none. *)
Definition code_of (codes : CharMap.t str) (c : char) : str :=
  match CharMap.find c codes with
  | Some w => w
  | None => []
  end.

(** ** Outcomes, in the vocabulary of the specification

    The member functions return nothing and have no error path: a run that
    stays defined ends normally, with the text it wrote. [Failed] is what the
    specification asks for in two places; no function of the program ends
    with it. *)

Inductive error := UnknownSymbol | TruncatedStream.

Inductive outcome :=
| Wrote (text : list char)
| Failed (e : error).


Definition decode_outcome (codes : CharMap.t str) (text : str) : outcome :=
  Wrote (decode_text codes text).

(** [text] stops inside a codeword: it is the encoded text of [done], a
    sequence over the characters of the table, followed by [todo], a non-empty
    proper prefix of the codeword of [c]. It is a strict prefix of the encoded
    text of [done ++ [c]] and does not end where a codeword ends. *)
Definition cut_inside (codes : CharMap.t str) (done : list char) (c : char)
  (todo more : str) (text : str) : Prop :=
  (forall x, In x done -> In x (CharMap.keys codes)) /\
  CharMap.find c codes = Some (todo ++ more) /\
  todo <> [] /\ more <> [] /\
  text = encode_text codes done ++ todo.

(** The edge labels of every internal node follow the weights of its two
    children: '0' goes to the strictly lighter child and '1' to the other one;
    when neither child is strictly lighter, '1' goes to the left child (the
    node taken from [tops[numtop-2]]) and '0' to the right child (the node
    taken from [tops[numtop-1]]). *)
Fixpoint labels_by_weight (t : treenode) : Prop :=
  match t with
  | Leaf _ _ => True
  | Node _ lcode rcode l r =>
      (F32.ltb (weight l) (weight r) = true -> lcode = c0 /\ rcode = c1) /\
      (F32.ltb (weight r) (weight l) = true -> rcode = c0 /\ lcode = c1) /\
      (F32.ltb (weight l) (weight r) = false -> F32.ltb (weight r) (weight l) = false ->
       lcode = c1 /\ rcode = c0) /\
      labels_by_weight l /\ labels_by_weight r
  end.

(** [a] is not strictly lighter than [b]. *)
Definition not_lighter (a b : treenode) : Prop := F32.ltb (weight a) (weight b) = false.

(** The vector is ordered by descending weight: no node is strictly lighter
    than a node behind it. *)
Definition descending (tops : list treenode) : Prop := StronglySorted not_lighter tops.

(** What [qsort] with [pnode_compare] leaves in [ptable]: rows in the order
    of the comparison function, so in decreasing order of [p]. *)
Definition sorted_ptable (ptable : list pnode) : Prop :=
  StronglySorted (fun a b => pnode_compare a b <= 0) ptable.

(** The states at the head of [while (numtop > 1)]: the loop is entered with
    [numtop0] and [tops0], and every iteration runs the body and [numtop--]. *)
Inductive loop_head (numtop0 : nat) (tops0 : list treenode) : nat -> list treenode -> Prop :=
| head_entry : loop_head numtop0 tops0 numtop0 tops0
| head_again (numtop : nat) (tops tops' : list treenode) :
    loop_head numtop0 tops0 numtop tops ->
    (1 < numtop)%nat ->
    merge_step numtop tops = Some tops' ->
    loop_head numtop0 tops0 (numtop - 1) tops'.

(** ** The cost of a code *)

(** The sum, over the entries of a table, of the number of occurrences of the
    character in the input times the length of its codeword. *)
Definition cost (input : list char) (codes : CharMap.t str) : Z :=
  fold_right
    (fun e acc => Z.of_nat (count_occ ascii_dec input (fst e)) * Z.of_nat (length (snd e)) + acc)
    0 codes.

(** A binary prefix code for the characters of the input: one codeword of
    bits per character of the input, none a prefix of another. *)
Definition prefix_code (input : list char) (codes : CharMap.t str) : Prop :=
  NoDup (CharMap.keys codes) /\
  (forall c, In c (CharMap.keys codes) <-> In c input) /\
  (forall c w, CharMap.find c codes = Some w -> bits w) /\
  prefix_free codes.






(** ** Codes on an alphabet, for the cost of the tree

    The nodes of the working vector are the letters of an alphabet; a code
    gives a string of bits to each, and its cost weighs the length of each
    codeword with the weight of the letter. *)

(** The other bit. *)
Definition flip (c : char) : char := if char_eqb c c0 then c1 else c0.

(** [C] is a binary prefix code on the letters of [A]. *)
Definition code_on {X : Type} (A : list X) (C : X -> str) : Prop :=
  (forall x, In x A -> bits (C x)) /\
  (forall x y, In x A -> In y A -> x <> y -> ~ prefix (C x) (C y)).

Definition wsum {X : Type} (f : X -> Z) (A : list X) : Z :=
  fold_right (fun x acc => f x + acc) 0 A.

Definition wcost {X : Type} (w : X -> Z) (C : X -> str) (A : list X) : Z :=
  wsum (fun x => w x * Z.of_nat (length (C x))) A.

(** The number of occurrences of a character in the input. *)
Definition occurrences (input : list char) (c : char) : Z :=
  Z.of_nat (count_occ ascii_dec input c).

(** The weight a node has in exact arithmetic: the number of occurrences, in
    the input, of the characters at its leaves. *)
Fixpoint true_weight (input : list char) (t : treenode) : Z :=
  match t with
  | Leaf c _ => occurrences input c
  | Node _ _ _ l r => true_weight input l + true_weight input r
  end.

(** The cost of a tree: occurrences times depth, summed over the leaves. *)
Fixpoint tree_cost (input : list char) (t : treenode) : Z :=
  match t with
  | Leaf _ _ => 0
  | Node _ _ _ l r =>
      tree_cost input l + tree_cost input r + true_weight input l + true_weight input r
  end.

(** The nodes of a tree, the root first. *)
Fixpoint nodes (t : treenode) : list treenode :=
  match t with
  | Leaf _ _ => [t]
  | Node _ _ _ l r => t :: nodes l ++ nodes r
  end.

(** The rounded weights keep the order of the exact weights: whenever a node
    of the tree is lighter than another in exact arithmetic, its [float]
    weight is strictly smaller too. *)
Definition order_preserved (input : list char) (root : treenode) : Prop :=
  forall s t,
    In s (nodes root) -> In t (nodes root) ->
    true_weight input s < true_weight input t ->
    F32.ltb (weight s) (weight t) = true.

(** Exchange two letters; give one letter another codeword. *)
Definition swap_letters {X : Type} (X_dec : forall x y : X, {x = y} + {x <> y})
  (a s x : X) : X :=
  if X_dec x a then s else if X_dec x s then a else x.

Definition update {X : Type} (X_dec : forall x y : X, {x = y} + {x <> y})
  (C : X -> str) (a : X) (v : str) (x : X) : str :=
  if X_dec x a then v else C x.

Definition total_length {X : Type} (C : X -> str) (A : list X) : Z :=
  wsum (fun x => Z.of_nat (length (C x))) A.

(** The codeword a code table gives to a node of the initial vector: the
    codeword of the character of the leaf. *)
Definition leaf_code (codes : CharMap.t str) (t : treenode) : str :=
  match t with
  | Leaf c _ => code_of codes c
  | Node _ _ _ _ _ => []
  end.

(** ** Notions for the rest of the code *)

(** The weight of every internal node is the [float] sum of the weights of
    its two children. *)
Fixpoint weights_are_sums (t : treenode) : Prop :=
  match t with
  | Leaf _ _ => True
  | Node w _ _ l r =>
      w = F32.add (weight l) (weight r) /\ weights_are_sums l /\ weights_are_sums r
  end.

(** The merged nodes of a tree: one per iteration of the merge loop. *)
Fixpoint merged_nodes (t : treenode) : nat :=
  match t with
  | Leaf _ _ => 0
  | Node _ _ _ l r => S (merged_nodes l + merged_nodes r)
  end.

(** ** main

    [argv] is the argument vector, the program name first. [show_usage] ends
    the process with [exit(0)]; otherwise main ends by calling
    [Encode] or [Decode] with the two file names it copied. *)

Inductive action :=
| ShowUsage
| CallEncode (inputFilename outputFilename : str)
| CallDecode (inputFilename outputFilename : str).

(** [strcpy(dst, src)] into an array of [size] characters: the characters of
    the C string and its final NUL; undefined when they do not fit. *)
Definition strcpy (size : nat) (src : str) : option str :=
  if (length (c_str src) <? size)%nat then Some (c_str src) else None.

(** main from [strcpy(inputFilename, argv[i])] on. *)
Definition main_files (argv : list str) (i : nat) (dFlag : bool) : option action :=
  let argc := length argv in
  arg <- nth_error argv i ;;
  inputFilename <- strcpy 128 arg ;;
  let i := S i in
  outputFilename <-
    (if (i <? argc)%nat then arg' <- nth_error argv i ;; strcpy 128 arg'
     else if dFlag then strcpy 128 (chars "decoded.txt")
          else strcpy 128 (chars "encoded.txt")) ;;
  Some (if dFlag then CallDecode inputFilename outputFilename
        else CallEncode inputFilename outputFilename).

Definition main (argv : list str) : option action :=
  let argc := length argv in
  let i := 1%nat in
  if (i =? argc)%nat then Some ShowUsage
  else
    arg <- nth_error argv i ;;
    if strcmp arg (chars "-d") =? 0 then
      let i := S i in
      if (i =? argc)%nat then Some ShowUsage
      else main_files argv i true
    else main_files argv i false.

(** * Properties *)

(** ** Characters *)

Lemma char_eqb_eq (a b : char) : char_eqb a b = true <-> a = b.
Proof. apply Ascii.eqb_eq. Qed.

Lemma char_eqb_refl (a : char) : char_eqb a a = true.
Proof. apply Ascii.eqb_refl. Qed.

Lemma char_eqb_neq (a b : char) : char_eqb a b = false <-> a <> b.
Proof. apply Ascii.eqb_neq. Qed.

Lemma N_of_ascii_bound (c : char) : (N_of_ascii c < 256)%N.
Proof. apply N_ascii_bounded. Qed.

Lemma char_val_inj (a b : char) : char_val a = char_val b -> a = b.
Proof.
  unfold char_val; intros H.
  pose proof (N_of_ascii_bound a) as Ha.
  pose proof (N_of_ascii_bound b) as Hb.
  rewrite <- (ascii_N_embedding a), <- (ascii_N_embedding b).
  f_equal.
  destruct (Z.ltb_spec (Z.of_N (N_of_ascii a)) 128),
           (Z.ltb_spec (Z.of_N (N_of_ascii b)) 128); lia.
Qed.

Lemma char_lt_trans (a b c : char) : char_lt a b -> char_lt b c -> char_lt a c.
Proof. unfold char_lt, char_ltb; rewrite !Z.ltb_lt; lia. Qed.

Lemma char_lt_irrefl (a : char) : ~ char_lt a a.
Proof. unfold char_lt, char_ltb; rewrite Z.ltb_lt; lia. Qed.

Lemma char_lt_total (a b : char) : a <> b -> char_ltb a b = false -> char_lt b a.
Proof.
  unfold char_lt, char_ltb; rewrite Z.ltb_lt, Z.ltb_ge; intros Hne Hle.
  assert (char_val a <> char_val b) by (intros E; apply Hne, char_val_inj, E).
  lia.
Qed.

Lemma str_eqb_eq (a b : str) : str_eqb a b = true <-> a = b.
Proof.
  revert b; induction a as [|x a IH]; intros [|y b]; simpl; split; try easy.
  - rewrite andb_true_iff, char_eqb_eq, IH; intros [-> ->]; reflexivity.
  - intros E; injection E as -> ->; rewrite char_eqb_refl; apply IH; reflexivity.
Qed.

Lemma bits_app (a b : str) : bits (a ++ b) <-> bits a /\ bits b.
Proof. apply Forall_app. Qed.

Lemma c_str_bits (w : str) : bits w -> c_str w = w.
Proof.
  induction 1 as [|x w Hx _ IH]; simpl; [reflexivity|].
  rewrite IH; destruct Hx as [-> | ->]; reflexivity.
Qed.

Lemma strcmp_bits (a b : str) : bits a -> bits b -> (strcmp a b =? 0) = true <-> a = b.
Proof.
  intros Ha Hb; unfold strcmp; rewrite !c_str_bits by assumption.
  destruct (str_eqb a b) eqn:E.
  - apply str_eqb_eq in E; split; auto.
  - split; [discriminate|]. intros ->.
    assert (str_eqb b b = true) by (apply str_eqb_eq; reflexivity). congruence.
Qed.

(** ** std::map<char, V> *)

Module CharMapFacts.
Section WithValue.

Context {V : Type}.
Implicit Types (m : CharMap.t V) (k : char) (v : V).

Lemma find_set_eq k v m : CharMap.find k (CharMap.set k v m) = Some v.
Proof.
  induction m as [|[k' v'] m IH]; simpl.
  - rewrite char_eqb_refl; reflexivity.
  - destruct (char_eqb k k') eqn:E; simpl.
    + rewrite char_eqb_refl; reflexivity.
    + destruct (char_ltb k k'); simpl.
      * rewrite char_eqb_refl; reflexivity.
      * rewrite E; exact IH.
Qed.

Lemma find_set_neq k k' v m : k <> k' -> CharMap.find k' (CharMap.set k v m) = CharMap.find k' m.
Proof.
  intros Hne. induction m as [|[k1 v1] m IH]; simpl.
  - assert (char_eqb k' k = false) as -> by (apply char_eqb_neq; congruence).
    reflexivity.
  - destruct (char_eqb k k1) eqn:E; simpl.
    + apply char_eqb_eq in E; subst k1.
      assert (char_eqb k' k = false) as -> by (apply char_eqb_neq; congruence).
      reflexivity.
    + destruct (char_ltb k k1); simpl.
      * assert (char_eqb k' k = false) as -> by (apply char_eqb_neq; congruence).
        reflexivity.
      * rewrite IH; reflexivity.
Qed.

Lemma find_In k v m : CharMap.find k m = Some v -> In (k, v) m.
Proof.
  induction m as [|[k' v'] m IH]; simpl; [discriminate|].
  destruct (char_eqb k k') eqn:E.
  - apply char_eqb_eq in E; subst; intros [= ->]; left; reflexivity.
  - intros H; right; apply IH, H.
Qed.

Lemma find_None k m : CharMap.find k m = None <-> ~ In k (CharMap.keys m).
Proof.
  induction m as [|[k' v'] m IH]; simpl; [tauto|].
  destruct (char_eqb k k') eqn:E.
  - apply char_eqb_eq in E; subst; split; [discriminate | tauto].
  - apply char_eqb_neq in E; rewrite IH; split; [intros H [?|?]; [congruence|tauto] | tauto].
Qed.

Lemma In_find k v m : NoDup (CharMap.keys m) -> In (k, v) m -> CharMap.find k m = Some v.
Proof.
  induction m as [|[k' v'] m IH]; simpl; [tauto|].
  intros Hnd [E | Hin]; inversion Hnd as [|? ? Hnotin Hnd']; subst.
  - injection E as -> ->; rewrite char_eqb_refl; reflexivity.
  - destruct (char_eqb k k') eqn:E.
    + apply char_eqb_eq in E; subst k'.
      exfalso; apply Hnotin. apply (in_map fst) in Hin; exact Hin.
    + apply IH; assumption.
Qed.

Lemma keys_set k v m x : In x (CharMap.keys (CharMap.set k v m)) <-> x = k \/ In x (CharMap.keys m).
Proof.
  induction m as [|[k' v'] m IH]; simpl.
  - intuition congruence.
  - destruct (char_eqb k k') eqn:E; simpl.
    + apply char_eqb_eq in E; subst; intuition congruence.
    + destruct (char_ltb k k'); simpl.
      * intuition congruence.
      * rewrite IH; intuition congruence.
Qed.

Lemma ordered_set k v m : CharMap.ordered m -> CharMap.ordered (CharMap.set k v m).
Proof.
  unfold CharMap.ordered.
  induction m as [|[k' v'] m IH]; simpl; intros Hs.
  - repeat constructor.
  - apply StronglySorted_inv in Hs as [Hs Hall].
    destruct (char_eqb k k') eqn:E; simpl.
    + apply char_eqb_eq in E; subst; constructor; assumption.
    + destruct (char_ltb k k') eqn:L; simpl.
      * constructor; [constructor; assumption|].
        constructor; [exact L|].
        eapply Forall_impl; [|exact Hall].
        intros a Ha; eapply char_lt_trans; [exact L | exact Ha].
      * constructor; [apply IH; exact Hs|].
        apply Forall_forall; intros x Hx.
        apply keys_set in Hx as [-> | Hx].
        -- apply char_lt_total; [apply char_eqb_neq; exact E | exact L].
        -- rewrite Forall_forall in Hall; apply Hall, Hx.
Qed.

Lemma ordered_NoDup m : CharMap.ordered m -> NoDup (CharMap.keys m).
Proof.
  unfold CharMap.ordered; induction 1 as [|a l Hs IH Hall]; constructor; [|exact IH].
  intros Hin; rewrite Forall_forall in Hall.
  exact (char_lt_irrefl a (Hall a Hin)).
Qed.

Lemma ordered_empty : CharMap.ordered (@CharMap.empty V).
Proof. constructor. Qed.

End WithValue.
End CharMapFacts.

(** ** The counting loop *)

Lemma set_set {V : Type} (k : char) (v v' : V) (m : CharMap.t V) :
  CharMap.set k v (CharMap.set k v' m) = CharMap.set k v m.
Proof.
  induction m as [|[k1 v1] m IH]; simpl.
  - rewrite char_eqb_refl; reflexivity.
  - destruct (char_eqb k k1) eqn:E; simpl.
    + rewrite char_eqb_refl; reflexivity.
    + destruct (char_ltb k k1) eqn:L; simpl.
      * rewrite char_eqb_refl; reflexivity.
      * rewrite E, L, IH; reflexivity.
Qed.

(** [freqs[c]] read without inserting: the count of [c], zero when absent. *)
Lemma count_step_eq (freqs : CharMap.t Z) (total : Z) (c : char) :
  count_step (freqs, total) c =
  (CharMap.set c (wrap_int (match CharMap.find c freqs with Some n => n | None => 0 end + 1)) freqs,
   wrap_unsigned (total + 1)).
Proof.
  unfold count_step, CharMap.index.
  destruct (CharMap.find c freqs); [reflexivity|].
  rewrite set_set; reflexivity.
Qed.

Lemma count_fold_keys (input : list char) (st : CharMap.t Z * Z) (x : char) :
  In x (CharMap.keys (fst (fold_left count_step input st))) <->
  In x input \/ In x (CharMap.keys (fst st)).
Proof.
  revert st; induction input as [|c input IH]; intros [freqs total]; cbn [fold_left].
  - simpl; tauto.
  - rewrite IH, count_step_eq; cbn [fst In].
    rewrite CharMapFacts.keys_set. intuition congruence.
Qed.

Lemma count_fold_ordered (input : list char) (st : CharMap.t Z * Z) :
  CharMap.ordered (fst st) -> CharMap.ordered (fst (fold_left count_step input st)).
Proof.
  revert st; induction input as [|c input IH]; intros [freqs total] H; cbn [fold_left].
  - exact H.
  - apply IH. rewrite count_step_eq; cbn [fst]. apply CharMapFacts.ordered_set, H.
Qed.

Lemma count_chars_keys (input : list char) (x : char) :
  In x (CharMap.keys (fst (count_chars input))) <-> In x input.
Proof.
  unfold count_chars; rewrite count_fold_keys; simpl; tauto.
Qed.

Lemma count_chars_NoDup (input : list char) :
  NoDup (CharMap.keys (fst (count_chars input))).
Proof.
  apply CharMapFacts.ordered_NoDup, count_fold_ordered, CharMapFacts.ordered_empty.
Qed.

(** [freqs.size()] is the number of distinct characters of the input. *)
Lemma count_chars_size (input : list char) :
  CharMap.size (fst (count_chars input)) = distinct input.
Proof.
  unfold CharMap.size, distinct.
  rewrite <- (length_map fst).
  apply Permutation_length, NoDup_Permutation.
  - apply count_chars_NoDup.
  - apply NoDup_nodup.
  - intros x. rewrite nodup_In. apply count_chars_keys.
Qed.

Lemma build_ptable_chars (freqs : CharMap.t Z) (total : Z) :
  map ch (build_ptable freqs total) = CharMap.keys freqs.
Proof.
  unfold build_ptable, CharMap.keys. rewrite map_map; reflexivity.
Qed.

(** ** Building the tree *)

Lemma nth_error_skipn {A : Type} (l : list A) (i : nat) :
  (i < length l)%nat -> exists e, nth_error l i = Some e /\ skipn i l = e :: skipn (S i) l.
Proof.
  revert i; induction l as [|x l IH]; intros i Hi; simpl in Hi; [lia|].
  destruct i as [|i].
  - exists x; split; reflexivity.
  - destruct (IH i) as [e [H1 H2]]; [lia|].
    exists e; split; [exact H1 | exact H2].
Qed.

Lemma create_leaves_from (ptable : list pnode) (todo i : nat) (tops : list treenode) :
  (i + todo = length ptable)%nat ->
  create_leaves ptable todo i tops = Some (tops ++ map leaf_of (skipn i ptable)).
Proof.
  revert i tops; induction todo as [|todo IH]; intros i tops Hlen; simpl.
  - rewrite skipn_all2 by lia. rewrite app_nil_r; reflexivity.
  - destruct (nth_error_skipn ptable i) as [e [H1 H2]]; [lia|].
    rewrite H1; simpl. rewrite IH by lia.
    rewrite H2; simpl. rewrite <- app_assoc; reflexivity.
Qed.

Lemma create_leaves_all (ptable : list pnode) :
  create_leaves ptable (length ptable) 0 [] = Some (map leaf_of ptable).
Proof. rewrite create_leaves_from by lia; reflexivity. Qed.

Lemma two_last {A : Type} (l : list A) :
  (2 <= length l)%nat -> exists rest x y, l = rest ++ [x; y].
Proof.
  intros H.
  destruct (exists_last (l := l)) as [l1 [y E1]]; [intros ->; simpl in H; lia|].
  subst l. rewrite length_app in H; simpl in H.
  destruct (exists_last (l := l1)) as [rest [x E2]]; [intros ->; simpl in H; lia|].
  subst l1. exists rest, x, y. rewrite <- app_assoc; reflexivity.
Qed.

(** One iteration on a vector of [numtop] nodes: the last two are merged and
    the new node is inserted in what is left. *)
Lemma merge_step_eq (rest : list treenode) (l r : treenode) :
  merge_step (length (rest ++ [l; r])) (rest ++ [l; r]) =
  Some (insert_node (new_node l r) rest).
Proof.
  unfold merge_step.
  rewrite length_app; simpl length.
  replace (length rest + 2 - 2)%nat with (length rest + 0)%nat by lia.
  replace (length rest + 2 - 1)%nat with (length rest + 1)%nat by lia.
  rewrite !nth_error_app2 by lia.
  replace (length rest + 0 - length rest)%nat with 0%nat by lia.
  replace (length rest + 1 - length rest)%nat with 1%nat by lia.
  simpl.
  assert (E1 : pop_back (rest ++ [l; r]) = Some (rest ++ [l])).
  { unfold pop_back. destruct (rest ++ [l; r]) eqn:E.
    - destruct rest; discriminate.
    - rewrite <- E. replace (rest ++ [l; r]) with ((rest ++ [l]) ++ [r])
        by (rewrite <- app_assoc; reflexivity).
      rewrite removelast_last; reflexivity. }
  assert (E2 : pop_back (rest ++ [l]) = Some rest).
  { unfold pop_back. destruct (rest ++ [l]) eqn:E.
    - destruct rest; discriminate.
    - rewrite <- E, removelast_last; reflexivity. }
  rewrite E1; simpl. rewrite E2; reflexivity.
Qed.

Lemma insert_node_length (n : treenode) (tops : list treenode) :
  length (insert_node n tops) = S (length tops).
Proof.
  induction tops as [|t ts IH]; simpl; [reflexivity|].
  destruct (F32.ltb (weight t) (weight n)); simpl; [reflexivity | rewrite IH; reflexivity].
Qed.

(** The scan splits the vector in two and puts the new node in between. *)
Lemma insert_node_split (n : treenode) (tops : list treenode) :
  exists front back,
    tops = front ++ back /\
    insert_node n tops = front ++ n :: back /\
    Forall (fun x => F32.ltb (weight x) (weight n) = false) front /\
    match back with
    | [] => True
    | y :: _ => F32.ltb (weight y) (weight n) = true
    end.
Proof.
  induction tops as [|t ts IH]; simpl.
  - exists [], []; repeat split; constructor.
  - destruct (F32.ltb (weight t) (weight n)) eqn:E.
    + exists [], (t :: ts); repeat split; [constructor | exact E].
    + destruct IH as [front [back [H1 [H2 [H3 H4]]]]].
      exists (t :: front), back; repeat split.
      * simpl; rewrite <- H1; reflexivity.
      * simpl; rewrite H2; reflexivity.
      * constructor; assumption.
      * exact H4.
Qed.

Lemma insert_node_Permutation (n : treenode) (tops : list treenode) :
  Permutation (insert_node n tops) (n :: tops).
Proof.
  destruct (insert_node_split n tops) as [front [back [H1 [H2 _]]]].
  rewrite H2, H1. symmetry. apply Permutation_middle.
Qed.

Lemma insert_node_Forall (P : treenode -> Prop) (n : treenode) (tops : list treenode) :
  P n -> Forall P tops -> Forall P (insert_node n tops).
Proof.
  intros Hn Ht. eapply Permutation_Forall.
  - symmetry; apply insert_node_Permutation.
  - constructor; assumption.
Qed.

Lemma new_node_leaves (l r : treenode) : leaves (new_node l r) = leaves l ++ leaves r.
Proof. unfold new_node; destruct (F32.ltb _ _); reflexivity. Qed.

Lemma new_node_weight (l r : treenode) :
  weight (new_node l r) = F32.add (weight l) (weight r).
Proof. unfold new_node; destruct (F32.ltb _ _); reflexivity. Qed.

Lemma new_node_labelled (l r : treenode) :
  labelled l -> labelled r -> labelled (new_node l r).
Proof.
  intros Hl Hr; unfold new_node; destruct (F32.ltb _ _); simpl; auto.
Qed.

Lemma flat_map_Permutation {A B : Type} (f : A -> list B) (l l' : list A) :
  Permutation l l' -> Permutation (flat_map f l) (flat_map f l').
Proof.
  induction 1; simpl.
  - constructor.
  - apply Permutation_app_head; assumption.
  - rewrite !app_assoc. apply Permutation_app_tail, Permutation_app_comm.
  - etransitivity; eassumption.
Qed.

(** The merge loop on [numtop >= 1] nodes ends with one node, the root; the
    root has the leaves of the initial nodes and keeps their labelling. *)
Lemma merge_loop_root (numtop : nat) (tops : list treenode) :
  length tops = numtop -> (1 <= numtop)%nat ->
  exists root,
    merge_loop numtop tops = Some [root] /\
    Permutation (leaves root) (flat_map leaves tops) /\
    (Forall labelled tops -> labelled root).
Proof.
  revert tops; induction numtop as [|numtop IH]; intros tops Hlen Hpos; [lia|].
  destruct numtop as [|k].
  - destruct tops as [|t [|]]; try discriminate.
    exists t; simpl; repeat split.
    + rewrite app_nil_r; reflexivity.
    + intros H; inversion H; assumption.
  - destruct (two_last tops) as [rest [l [r ->]]]; [lia|].
    pose proof (merge_step_eq rest l r) as Hm. rewrite Hlen in Hm.
    cbn [merge_loop]. rewrite Hm. cbn [bind].
    destruct (IH (insert_node (new_node l r) rest)) as [root [H1 [H2 H3]]].
    + rewrite insert_node_length. rewrite length_app in Hlen; simpl in Hlen; lia.
    + lia.
    + exists root; repeat split.
      * exact H1.
      * rewrite H2. rewrite (flat_map_Permutation _ _ _ (insert_node_Permutation _ _)).
        simpl. rewrite new_node_leaves, flat_map_app; simpl.
        rewrite app_nil_r. apply Permutation_app_comm.
      * intros Hall. apply H3. apply Forall_app in Hall as [Hrest Hlr].
        inversion Hlr as [|? ? Hl Hr']; subst. inversion Hr' as [|? ? Hr _]; subst.
        apply insert_node_Forall; [apply new_node_labelled; assumption | exact Hrest].
Qed.

(** On a non-empty table of [tsize] rows the tree is built, and its leaves
    are the characters of the rows. *)
Lemma build_tree_root (ptable : list pnode) :
  ptable <> [] ->
  exists root,
    build_tree (length ptable) ptable = Some root /\
    Permutation (leaves root) (map ch ptable) /\
    labelled root.
Proof.
  intros Hne. unfold build_tree.
  rewrite create_leaves_all; cbn [bind].
  destruct (merge_loop_root (length ptable) (map leaf_of ptable)) as [root [H1 [H2 H3]]].
  - apply length_map.
  - destruct ptable; [congruence | simpl; lia].
  - exists root. rewrite H1; cbn [bind nth_error]. repeat split.
    + rewrite H2. clear. induction ptable as [|e l IH]; simpl; [constructor|].
      constructor; exact IH.
    + apply H3. apply Forall_forall. intros x Hx.
      apply in_map_iff in Hx as [e [<- _]]. exact I.
Qed.

(** ** GenerateCode *)

Lemma chop_last (sequence : str) (c : char) : chop (sequence ++ [c]) = sequence.
Proof.
  unfold chop. rewrite length_app; simpl length.
  destruct sequence as [|x sequence].
  - reflexivity.
  - replace (1 <? Z.of_nat (length (x :: sequence) + 1)) with true
      by (symmetry; apply Z.ltb_lt; simpl length; lia).
    replace (length (x :: sequence) + 1 - 1)%nat with (length (x :: sequence) + 0)%nat by lia.
    rewrite firstn_app_2. simpl. rewrite app_nil_r; reflexivity.
Qed.

(** GenerateCode leaves [sequence] one character shorter and assigns to every
    leaf the path that leads to it. *)
Lemma GenerateCode_paths (node : treenode) (sequence : str) (codes : CharMap.t str) :
  GenerateCode node (sequence, codes) = (chop sequence, set_all (paths node sequence) codes).
Proof.
  revert sequence codes; induction node as [c w | w lcode rcode l IHl r IHr];
    intros sequence codes; cbn [GenerateCode paths].
  - reflexivity.
  - rewrite IHl, chop_last, IHr, chop_last.
    unfold set_all. rewrite fold_left_app. reflexivity.
Qed.

Lemma paths_chars (t : treenode) (pre : str) : map fst (paths t pre) = leaves t.
Proof.
  revert pre; induction t as [c w | w lcode rcode l IHl r IHr]; intros pre; simpl.
  - reflexivity.
  - rewrite map_app, IHl, IHr; reflexivity.
Qed.

Lemma set_all_other (l : list (char * str)) (codes : CharMap.t str) (k : char) :
  ~ In k (map fst l) -> CharMap.find k (set_all l codes) = CharMap.find k codes.
Proof.
  revert codes; induction l as [|[k' w'] l IH]; intros codes Hnin; simpl in *.
  - reflexivity.
  - unfold set_all in *; simpl. rewrite IH by tauto.
    apply CharMapFacts.find_set_neq. intros E; apply Hnin; left; exact E.
Qed.

Lemma set_all_find (l : list (char * str)) (codes : CharMap.t str) (k : char) (w : str) :
  NoDup (map fst l) -> In (k, w) l -> CharMap.find k (set_all l codes) = Some w.
Proof.
  revert codes; induction l as [|[k' w'] l IH]; intros codes Hnd Hin; simpl in *; [tauto|].
  inversion Hnd as [|? ? Hnotin Hnd']; subst.
  destruct Hin as [E | Hin].
  - injection E as -> ->. unfold set_all; simpl.
    fold (set_all l (CharMap.set k w codes)).
    rewrite set_all_other by exact Hnotin.
    apply CharMapFacts.find_set_eq.
  - unfold set_all in *; simpl. apply IH; assumption.
Qed.

Lemma set_all_ordered (l : list (char * str)) (codes : CharMap.t str) :
  CharMap.ordered codes -> CharMap.ordered (set_all l codes).
Proof.
  revert codes; induction l as [|[k' w'] l IH]; intros codes H; simpl.
  - exact H.
  - unfold set_all in *; simpl. apply IH, CharMapFacts.ordered_set, H.
Qed.

(** The entries of the table built on an empty [codes] are the paths of the tree. *)
Lemma GenerateCode_find (root : treenode) (k : char) (w : str) :
  NoDup (leaves root) ->
  (CharMap.find k (snd (GenerateCode root ([], CharMap.empty))) = Some w <->
   In (k, w) (paths root [])).
Proof.
  intros Hnd. rewrite GenerateCode_paths; cbn [snd]. split.
  - intros Hf.
    destruct (in_dec ascii_dec k (map fst (paths root []))) as [Hin | Hnin].
    + apply in_map_iff in Hin as [[k' w'] [E Hin]]; simpl in E; subst k'.
      rewrite (set_all_find _ _ k w') in Hf; [|rewrite paths_chars; exact Hnd | exact Hin].
      injection Hf as ->; exact Hin.
    + rewrite set_all_other in Hf by exact Hnin. discriminate.
  - intros Hin. apply set_all_find; [rewrite paths_chars; exact Hnd | exact Hin].
Qed.

(** ** Root-to-leaf paths *)

Lemma leaves_nonempty (t : treenode) : (1 <= length (leaves t))%nat.
Proof.
  induction t as [c w | w lcode rcode l IHl r IHr]; simpl; [lia|].
  rewrite length_app; lia.
Qed.

Lemma c0_neq_c1 : c0 <> c1.
Proof. discriminate. Qed.

(** Every path extends [pre] by a string of bits, as many as the leaf is deep;
    that depth is below the number of leaves, and positive under an internal node. *)
Lemma paths_shape (t : treenode) (pre : str) (k : char) (w : str) :
  labelled t -> In (k, w) (paths t pre) ->
  exists path,
    w = pre ++ path /\ bits path /\
    (length path <= length (leaves t) - 1)%nat /\
    (match t with Leaf _ _ => True | Node _ _ _ _ _ => (1 <= length path)%nat end).
Proof.
  revert pre; induction t as [c x | x lcode rcode l IHl r IHr]; intros pre Hlab Hin.
  - simpl in Hin. destruct Hin as [E | []]. injection E as <- <-.
    exists []. rewrite app_nil_r. repeat split; [constructor | simpl; lia].
  - cbn [labelled] in Hlab. destruct Hlab as [Hcodes [Hl Hr]].
    pose proof (leaves_nonempty l) as Nl. pose proof (leaves_nonempty r) as Nr.
    cbn [paths] in Hin. apply in_app_iff in Hin. cbn [leaves]. rewrite length_app.
    destruct Hin as [Hin | Hin].
    + destruct (IHl _ Hl Hin) as [path [E [Hb [Hlen _]]]].
      exists (lcode :: path). rewrite E, <- app_assoc. repeat split.
      * constructor; [destruct Hcodes as [[-> _] | [-> _]]; auto | exact Hb].
      * simpl; lia.
      * simpl; lia.
    + destruct (IHr _ Hr Hin) as [path [E [Hb [Hlen _]]]].
      exists (rcode :: path). rewrite E, <- app_assoc. repeat split.
      * constructor; [destruct Hcodes as [[_ ->] | [_ ->]]; auto | exact Hb].
      * simpl; lia.
      * simpl; lia.
Qed.

Lemma paths_In_leaves (t : treenode) (pre : str) (k : char) (w : str) :
  In (k, w) (paths t pre) -> In k (leaves t).
Proof.
  intros H. rewrite <- (paths_chars t pre). apply (in_map fst) in H. exact H.
Qed.

Lemma diverging_not_prefix (pre a b : str) (x y : char) :
  x <> y -> ~ prefix (pre ++ x :: a) (pre ++ y :: b).
Proof.
  intros Hne [rest E]. rewrite <- app_assoc in E.
  apply app_inv_head in E. simpl in E. congruence.
Qed.

(** Paths to two different leaves: neither is a prefix of the other. *)
Lemma paths_prefix_free (t : treenode) (pre : str) (x y : char) (wx wy : str) :
  labelled t -> NoDup (leaves t) ->
  In (x, wx) (paths t pre) -> In (y, wy) (paths t pre) ->
  x <> y -> ~ prefix wx wy.
Proof.
  revert pre; induction t as [c v | v lcode rcode l IHl r IHr]; intros pre Hlab Hnd Hx Hy Hne.
  - simpl in Hx, Hy. destruct Hx as [Ex | []], Hy as [Ey | []]. congruence.
  - cbn [labelled] in Hlab. destruct Hlab as [Hcodes [Hl Hr]].
    cbn [leaves] in Hnd.
    pose proof (NoDup_app_remove_r _ _ Hnd) as Hndl.
    pose proof (NoDup_app_remove_l _ _ Hnd) as Hndr.
    assert (Hlr : lcode <> rcode).
    { destruct Hcodes as [[-> ->] | [-> ->]];
        [exact c0_neq_c1 | intros E; symmetry in E; exact (c0_neq_c1 E)]. }
    cbn [paths] in Hx, Hy. apply in_app_iff in Hx, Hy.
    destruct Hx as [Hx | Hx], Hy as [Hy | Hy].
    + eapply IHl; eassumption.
    + destruct (paths_shape _ _ _ _ Hl Hx) as [px [-> _]].
      destruct (paths_shape _ _ _ _ Hr Hy) as [py [-> _]].
      rewrite <- !app_assoc. apply diverging_not_prefix, Hlr.
    + destruct (paths_shape _ _ _ _ Hr Hx) as [px [-> _]].
      destruct (paths_shape _ _ _ _ Hl Hy) as [py [-> _]].
      rewrite <- !app_assoc. apply diverging_not_prefix. congruence.
    + eapply IHr; eassumption.
Qed.

(** ** Encode up to the code table *)

Lemma count_chars_nonempty (input : list char) :
  input <> [] -> fst (count_chars input) <> [].
Proof.
  intros Hne E. destruct input as [|c input]; [congruence|].
  assert (H : In c (CharMap.keys (fst (count_chars (c :: input)))))
    by (apply count_chars_keys; left; reflexivity).
  rewrite E in H. exact H.
Qed.

Section BuildCodeFacts.

Variable qsort : (pnode -> pnode -> Z) -> list pnode -> list pnode.
Hypothesis qsort_permutes : permutes qsort.

Lemma BuildCode_empty : BuildCode qsort [] = None.
Proof.
  pose proof (qsort_permutes pnode_compare []) as H.
  symmetry in H. apply Permutation_nil in H.
  unfold BuildCode, count_chars, build_ptable, CharMap.empty.
  cbn [fold_left map CharMap.size length]. rewrite H. reflexivity.
Qed.

(** On a non-empty input the three members are set: [tsize] is the number
    of distinct characters, and [codes] holds the root-to-leaf paths of a
    tree whose leaves are the distinct characters of the input. *)
Lemma BuildCode_tree (input : list char) :
  input <> [] ->
  exists ptable codes root,
    BuildCode qsort input = Some (distinct input, ptable, codes) /\
    build_tree (distinct input) ptable = Some root /\
    labelled root /\
    NoDup (leaves root) /\
    length (leaves root) = distinct input /\
    (forall k, In k (leaves root) <-> In k input) /\
    (forall k w, CharMap.find k codes = Some w <-> In (k, w) (paths root [])) /\
    CharMap.ordered codes /\
    length ptable = distinct input /\
    Permutation (leaves root) (map ch ptable) /\
    codes = snd (GenerateCode root ([], CharMap.empty)).
Proof.
  intros Hne. unfold BuildCode.
  pose proof (count_chars_size input) as Hsize.
  pose proof (count_chars_NoDup input) as Hnd.
  pose proof (count_chars_keys input) as Hkeys.
  pose proof (count_chars_nonempty input Hne) as Hfre.
  destruct (count_chars input) as [freqs total]; cbn [fst] in *.
  set (ptable := qsort pnode_compare (build_ptable freqs total)).
  pose proof (qsort_permutes pnode_compare (build_ptable freqs total)) as Hperm.
  fold ptable in Hperm.
  assert (Hchars : Permutation (map ch ptable) (CharMap.keys freqs)).
  { rewrite <- (build_ptable_chars freqs total). apply Permutation_map, Hperm. }
  assert (Hlen : length ptable = distinct input).
  { rewrite <- Hsize. unfold CharMap.size.
    rewrite (Permutation_length Hperm). unfold build_ptable. apply length_map. }
  assert (Hpne : ptable <> []).
  { intros E. rewrite E in Hperm. apply Permutation_nil in Hperm.
    unfold build_ptable in Hperm. apply map_eq_nil in Hperm. congruence. }
  destruct (build_tree_root ptable Hpne) as [root [Hroot [Hleaves Hlab]]].
  rewrite Hlen in Hroot.
  assert (Hndl : NoDup (leaves root)).
  { eapply Permutation_NoDup; [|exact Hnd].
    symmetry. etransitivity; [exact Hleaves | exact Hchars]. }
  exists ptable, (snd (GenerateCode root ([], CharMap.empty))), root.
  rewrite Hsize. unfold EncHuffman. rewrite Hroot. cbn [bind].
  repeat split.
  - exact Hlab.
  - exact Hndl.
  - rewrite (Permutation_length Hleaves), length_map. exact Hlen.
  - intros H. apply Hkeys.
    eapply Permutation_in; [exact Hchars|]. eapply Permutation_in; [exact Hleaves | exact H].
  - intros H. apply Hkeys in H.
    eapply Permutation_in; [symmetry; exact Hleaves|].
    eapply Permutation_in; [symmetry; exact Hchars | exact H].
  - apply GenerateCode_find, Hndl.
  - apply GenerateCode_find, Hndl.
  - rewrite GenerateCode_paths; cbn [snd].
    apply set_all_ordered, CharMapFacts.ordered_empty.
  - exact Hlen.
  - exact Hleaves.
Qed.

Lemma BuildCode_Some (input : list char) (r : nat * list pnode * CharMap.t str) :
  BuildCode qsort input = Some r -> input <> [].
Proof. intros H ->. rewrite BuildCode_empty in H. discriminate. Qed.

End BuildCodeFacts.

(** ** The sorting function of the concrete runs *)

Lemma isort_insert_Permutation (cmp : pnode -> pnode -> Z) (x : pnode) (l : list pnode) :
  Permutation (isort_insert cmp x l) (x :: l).
Proof.
  induction l as [|y l IH]; simpl; [reflexivity|].
  destruct (cmp x y <=? 0); [reflexivity|].
  rewrite IH. apply perm_swap.
Qed.

Lemma isort_permutes : permutes isort.
Proof.
  intros cmp l; induction l as [|x l IH]; simpl; [constructor|].
  rewrite isort_insert_Permutation. constructor; exact IH.
Qed.

(** ** Prefix-freedom and codeword lengths *)

(** C2. Whatever the input, the table left in [codes] by frequency analysis,
    tree construction and code assignment is prefix-free: the codeword of a
    character is never a prefix of the codeword of another character. A table
    is produced for every non-empty input. *)
Theorem BuildCode_prefix_free
  (qsort : (pnode -> pnode -> Z) -> list pnode -> list pnode) (input : list char) :
  permutes qsort ->
  (input <> [] -> exists built, BuildCode qsort input = Some built) /\
  (forall tsize ptable codes,
      BuildCode qsort input = Some (tsize, ptable, codes) -> prefix_free codes).
Proof.
  intros Hq; split.
  - intros Hne. destruct (BuildCode_tree qsort Hq input Hne) as [ptable [codes [root [H _]]]].
    eexists; exact H.
  - intros tsize ptable codes Hb.
    pose proof (BuildCode_Some qsort Hq input _ Hb) as Hne.
    destruct (BuildCode_tree qsort Hq input Hne)
      as [ptable' [codes' [root [H [_ [Hlab [Hnd [_ [_ [Hfind _]]]]]]]]]].
    rewrite H in Hb. injection Hb as _ _ <-.
    intros x y wx wy Hxy Hx Hy.
    apply Hfind in Hx, Hy.
    eapply paths_prefix_free; eassumption.
Qed.

Lemma BuildCode_prefix_free_witness :
  ~ prefix (chars "10") (chars "1101") /\ ~ prefix (chars "0") (chars "1100").
Proof.
  destruct (BuildCode_prefix_free isort (chars "abracadabra") isort_permutes) as [_ H].
  remember (BuildCode isort (chars "abracadabra")) as built eqn:E.
  vm_compute in E. subst built. specialize (H _ _ _ eq_refl).
  split.
  - apply (H "b"%char "c"%char); [discriminate | reflexivity | reflexivity].
  - apply (H "a"%char "d"%char); [discriminate | reflexivity | reflexivity].
Defined.

(** C10. For an input with [n >= 2] distinct bytes a table is produced, and
    every codeword in it is non-empty and at most [n - 1] characters long. *)
Theorem codeword_length_bounds
  (qsort : (pnode -> pnode -> Z) -> list pnode -> list pnode) (input : list char) :
  permutes qsort ->
  (2 <= distinct input)%nat ->
  exists ptable codes,
    BuildCode qsort input = Some (distinct input, ptable, codes) /\
    forall c w, CharMap.find c codes = Some w ->
                (1 <= length w <= distinct input - 1)%nat.
Proof.
  intros Hq Hn.
  assert (Hne : input <> []) by (intros ->; unfold distinct in Hn; simpl in Hn; lia).
  destruct (BuildCode_tree qsort Hq input Hne)
    as [ptable [codes [root [H [_ [Hlab [Hnd [Hlen [_ [Hfind _]]]]]]]]]].
  exists ptable, codes; split; [exact H|].
  intros c w Hc. apply Hfind in Hc.
  destruct (paths_shape _ _ _ _ Hlab Hc) as [path [-> [_ [Hle Hge]]]].
  simpl. rewrite Hlen in Hle. split; [|exact Hle].
  destruct root; [simpl in Hlen; lia | exact Hge].
Qed.

Lemma codeword_length_bounds_witness :
  (1 <= length (chars "1101") <= distinct (chars "abracadabra") - 1)%nat.
Proof.
  destruct (codeword_length_bounds isort (chars "abracadabra") isort_permutes)
    as [ptable [codes [Hb H]]]; [vm_compute; lia|].
  vm_compute in Hb. injection Hb as _ <-.
  apply (H "c"%char). reflexivity.
Defined.

(** ** The loop that writes the encoded text *)

Lemma index_code_of (codes : CharMap.t str) (c : char) :
  fst (CharMap.index [] c codes) = code_of codes c /\
  forall k, code_of (snd (CharMap.index [] c codes)) k = code_of codes k.
Proof.
  unfold CharMap.index, code_of, str in *.
  destruct (CharMap.find c codes) eqn:E; cbn [fst snd]; split; auto.
  intros k. destruct (ascii_dec c k) as [<- | Hne].
  - rewrite CharMapFacts.find_set_eq, E; reflexivity.
  - rewrite CharMapFacts.find_set_neq by exact Hne; reflexivity.
Qed.

Lemma output_step_eq (out : str) (codes : CharMap.t str) (c : char) :
  output_step (out, codes) c =
  (out ++ fst (CharMap.index [] c codes), snd (CharMap.index [] c codes)).
Proof. unfold output_step. destruct (CharMap.index [] c codes); reflexivity. Qed.

Lemma output_fold (input : list char) (out : str) (codes codes0 : CharMap.t str) :
  (forall k, code_of codes k = code_of codes0 k) ->
  fst (fold_left output_step input (out, codes)) = out ++ flat_map (code_of codes0) input.
Proof.
  revert out codes; induction input as [|c input IH]; intros out codes Hsame; cbn [fold_left flat_map].
  - rewrite app_nil_r; reflexivity.
  - rewrite output_step_eq.
    destruct (index_code_of codes c) as [H1 H2].
    rewrite IH.
    + rewrite H1, Hsame, app_assoc; reflexivity.
    + intros k; rewrite H2; apply Hsame.
Qed.

(** The encoded text is the concatenation of the codewords of the input
    characters; a character without an entry contributes nothing. *)
Lemma encode_text_eq (codes : CharMap.t str) (input : list char) :
  encode_text codes input = flat_map (code_of codes) input.
Proof. exact (output_fold input [] codes codes (fun k => eq_refl)). Qed.

(** ** The decoding loop *)

Lemma bit_not_EOF (c : char) : c = c0 \/ c = c1 -> char_eqb c EOF_char = false.
Proof. intros [-> | ->]; reflexivity. Qed.

Lemma match_step_miss (accum : str) (out : list char) (k : char) (w : str) :
  bits accum -> bits w -> w <> accum -> match_step (accum, out) (k, w) = (accum, out).
Proof.
  intros Ha Hw Hne. unfold match_step; cbn [fst snd].
  destruct (strcmp w accum =? 0) eqn:E; [|reflexivity].
  apply strcmp_bits in E; [congruence | assumption | assumption].
Qed.

Lemma match_step_hit (accum : str) (out : list char) (k : char) :
  bits accum -> match_step (accum, out) (k, accum) = ([], out ++ [k]).
Proof.
  intros Ha. unfold match_step; cbn [fst snd].
  assert (E : (strcmp accum accum =? 0) = true) by (apply strcmp_bits; auto).
  rewrite E; reflexivity.
Qed.

Lemma scan_codes_miss (codes : CharMap.t str) (accum : str) (out : list char) :
  bits accum ->
  (forall k w, In (k, w) codes -> bits w /\ w <> accum) ->
  scan_codes codes (accum, out) = (accum, out).
Proof.
  intros Ha. unfold scan_codes. induction codes as [|[k w] codes IH]; intros H; cbn [fold_left].
  - reflexivity.
  - destruct (H k w) as [Hw Hne]; [left; reflexivity|].
    rewrite (match_step_miss accum out k w) by assumption.
    apply IH. intros k' w' Hin; apply (H k' w'); right; exact Hin.
Qed.

Lemma scan_codes_hit (codes : CharMap.t str) (c : char) (w : str) (out : list char) :
  decodable codes -> In (c, w) codes ->
  scan_codes codes (w, out) = ([], out ++ [c]).
Proof.
  intros [Hnd [Hbits Hpf]] Hin.
  destruct (Hbits c w Hin) as [Hw Hwne].
  assert (Hother : forall k v, In (k, v) codes -> k <> c -> v <> w).
  { intros k v Hk Hne ->. apply (Hpf k c w w Hne).
    - apply CharMapFacts.In_find; assumption.
    - apply CharMapFacts.In_find; assumption.
    - exists []; rewrite app_nil_r; reflexivity. }
  destruct (in_split _ _ Hin) as [l1 [l2 E]].
  assert (Hl1 : forall k v, In (k, v) l1 -> k <> c).
  { intros k v Hk ->. rewrite E in Hnd. unfold CharMap.keys in Hnd.
    rewrite map_app in Hnd. simpl in Hnd. apply NoDup_remove_2 in Hnd.
    apply Hnd, in_or_app. left. apply (in_map fst) in Hk. exact Hk. }
  unfold scan_codes. rewrite E, fold_left_app. cbn [fold_left].
  fold (scan_codes l1 (w, out)).
  rewrite scan_codes_miss.
  - rewrite (match_step_hit w out c) by exact Hw.
    fold (scan_codes l2 ([], out ++ [c])).
    apply scan_codes_miss; [constructor|].
    intros k v Hk. apply (Hbits k v). rewrite E. apply in_or_app; right; right; exact Hk.
  - exact Hw.
  - intros k v Hk. split.
    + apply (Hbits k v). rewrite E. apply in_or_app; left; exact Hk.
    + apply (Hother k v); [rewrite E; apply in_or_app; left; exact Hk | eapply Hl1; exact Hk].
Qed.

(** With [accum] a non-empty proper prefix of a codeword, no entry matches. *)
Lemma scan_codes_inside (codes : CharMap.t str) (c : char) (accum more : str) (out : list char) :
  decodable codes -> In (c, accum ++ more) codes -> more <> [] ->
  scan_codes codes (accum, out) = (accum, out).
Proof.
  intros Hd Hin Hmore. pose proof Hd as [Hnd [Hbits Hpf]].
  destruct (Hbits _ _ Hin) as [Hw _]. apply bits_app in Hw as [Ha _].
  apply scan_codes_miss; [exact Ha|].
  intros k v Hk. split; [apply (Hbits k v Hk)|].
  intros ->. destruct (ascii_dec k c) as [-> | Hne].
  - pose proof (CharMapFacts.In_find _ _ _ Hnd Hk) as F1.
    pose proof (CharMapFacts.In_find _ _ _ Hnd Hin) as F2.
    rewrite F1 in F2. injection F2 as F2.
    apply (f_equal (@length char)) in F2. rewrite length_app in F2.
    destruct more; [congruence | simpl in F2; lia].
  - apply (Hpf k c accum (accum ++ more) Hne).
    + apply CharMapFacts.In_find; assumption.
    + apply CharMapFacts.In_find; assumption.
    + exists more; reflexivity.
Qed.

(** Reading the rest [todo] of a codeword: the character is written when the
    last bit arrives, and the accumulator is empty again. *)
Lemma decode_loop_codeword (codes : CharMap.t str) (c : char) (accum todo rest : str)
  (out : list char) :
  decodable codes -> In (c, accum ++ todo) codes -> todo <> [] ->
  decode_loop codes (todo ++ rest) accum out = decode_loop codes rest [] (out ++ [c]).
Proof.
  intros Hd. revert accum; induction todo as [|x todo IH]; intros accum Hin Hne; [congruence|].
  pose proof Hd as [Hnd [Hbits Hpf]].
  destruct (Hbits _ _ Hin) as [Hw _]. apply bits_app in Hw as [_ Hw].
  inversion Hw as [|? ? Hx _]; subst.
  cbn [app decode_loop]. rewrite (bit_not_EOF x Hx).
  destruct todo as [|y todo].
  - rewrite (scan_codes_hit codes c); [reflexivity | exact Hd | exact Hin].
  - replace (accum ++ x :: y :: todo) with ((accum ++ [x]) ++ y :: todo) in Hin
      by (rewrite <- app_assoc; reflexivity).
    rewrite (scan_codes_inside codes c (accum ++ [x]) (y :: todo));
      [|exact Hd | exact Hin | discriminate].
    apply IH; [exact Hin | discriminate].
Qed.

(** Reading a proper prefix of a codeword and then the end of the file:
    nothing is written for it. *)
Lemma decode_loop_truncated (codes : CharMap.t str) (c : char) (accum todo more : str)
  (out : list char) :
  decodable codes -> In (c, accum ++ todo ++ more) codes -> more <> [] ->
  decode_loop codes todo accum out = out.
Proof.
  intros Hd. revert accum; induction todo as [|x todo IH]; intros accum Hin Hne; [reflexivity|].
  pose proof Hd as [Hnd [Hbits Hpf]].
  destruct (Hbits _ _ Hin) as [Hw _]. apply bits_app in Hw as [_ Hw].
  apply bits_app in Hw as [Hw _].
  inversion Hw as [|? ? Hx _]; subst.
  cbn [decode_loop]. rewrite (bit_not_EOF x Hx).
  replace (accum ++ (x :: todo) ++ more) with ((accum ++ [x]) ++ todo ++ more) in Hin
    by (rewrite <- app_assoc; reflexivity).
  rewrite (scan_codes_inside codes c (accum ++ [x]) (todo ++ more)); [|exact Hd | exact Hin |].
  - apply IH; assumption.
  - destruct todo; [exact Hne | discriminate].
Qed.

Lemma decode_loop_text (codes : CharMap.t str) (input : list char) (rest : str)
  (out : list char) :
  decodable codes ->
  (forall c, In c input -> In c (CharMap.keys codes)) ->
  decode_loop codes (flat_map (code_of codes) input ++ rest) [] out =
  decode_loop codes rest [] (out ++ input).
Proof.
  intros Hd. revert out; induction input as [|c input IH]; intros out Hin; cbn [flat_map app].
  - rewrite app_nil_r; reflexivity.
  - pose proof Hd as [Hnd [Hbits Hpf]].
    assert (Hc : In c (CharMap.keys codes)) by (apply Hin; left; reflexivity).
    apply in_map_iff in Hc as [[c' w] [E Hc]]; simpl in E; subst c'.
    unfold code_of at 1. rewrite (CharMapFacts.In_find _ _ _ Hnd Hc).
    rewrite <- app_assoc.
    rewrite (decode_loop_codeword codes c [] w);
      [|exact Hd | exact Hc | apply (Hbits c w Hc)].
    rewrite IH by (intros k Hk; apply Hin; right; exact Hk).
    rewrite <- app_assoc; reflexivity.
Qed.

(** ** The table of an input with two or more distinct characters *)

Lemma BuildCode_decodable
  (qsort : (pnode -> pnode -> Z) -> list pnode -> list pnode) (input : list char) :
  permutes qsort ->
  (2 <= distinct input)%nat ->
  exists ptable codes,
    BuildCode qsort input = Some (distinct input, ptable, codes) /\
    decodable codes /\
    (forall c, In c input <-> In c (CharMap.keys codes)) /\
    length ptable = distinct input /\
    (forall c, In c (map ch ptable) <-> In c input) /\
    NoDup (map ch ptable).
Proof.
  intros Hq Hn.
  assert (Hne : input <> []) by (intros ->; unfold distinct in Hn; simpl in Hn; lia).
  destruct (BuildCode_tree qsort Hq input Hne)
    as [ptable [codes [root [H [_ [Hlab [Hnd [Hlen [Hin [Hfind [Hord [Hpl [Hperm _]]]]]]]]]]]]].
  pose proof (CharMapFacts.ordered_NoDup _ Hord) as Hndk.
  exists ptable, codes. split; [exact H|]. repeat apply conj.
  - exact Hndk.
  - intros k w Hk. apply (CharMapFacts.In_find _ _ _ Hndk), Hfind in Hk.
    destruct (paths_shape _ _ _ _ Hlab Hk) as [path [-> [Hb [_ Hge]]]].
    simpl. split; [exact Hb|].
    destruct root; [simpl in Hlen; lia|]. destruct path; [simpl in Hge; lia | discriminate].
  - intros x y wx wy Hxy Hx Hy. apply Hfind in Hx, Hy.
    eapply paths_prefix_free; eassumption.
  - intros c. rewrite <- Hin. split.
    + intros Hc. rewrite <- (paths_chars root []) in Hc.
      apply in_map_iff in Hc as [[c' w] [E Hc]]; simpl in E; subst c'.
      apply Hfind, CharMapFacts.find_In in Hc. apply (in_map fst) in Hc. exact Hc.
    + intros Hc. apply in_map_iff in Hc as [[c' w] [E Hc]]; simpl in E; subst c'.
      apply (CharMapFacts.In_find _ _ _ Hndk), Hfind in Hc.
      eapply paths_In_leaves; exact Hc.
  - exact Hpl.
  - intros c. rewrite <- Hin. split; intros Hc.
    + eapply Permutation_in; [symmetry; exact Hperm | exact Hc].
    + eapply Permutation_in; [exact Hperm | exact Hc].
  - eapply Permutation_NoDup; [exact Hperm | exact Hnd].
Qed.

(** Decoding the encoded text of any sequence over the characters of a
    decodable table gives the sequence back. *)
Lemma decode_encode_text (codes : CharMap.t str) (input : list char) :
  decodable codes ->
  (forall c, In c input -> In c (CharMap.keys codes)) ->
  decode_text codes (encode_text codes input) = input.
Proof.
  intros Hd Hin. unfold decode_text. rewrite encode_text_eq.
  rewrite <- (app_nil_r (flat_map _ _)).
  rewrite decode_loop_text by assumption.
  reflexivity.
Qed.

(** With two or more distinct characters, the table built from the input
    decodes the encoded text of the input to the input. *)
Lemma round_trip_two_or_more
  (qsort : (pnode -> pnode -> Z) -> list pnode -> list pnode) (input : list char) :
  permutes qsort ->
  (2 <= distinct input)%nat ->
  exists ptable codes,
    BuildCode qsort input = Some (distinct input, ptable, codes) /\
    decode_text codes (encode_text codes input) = input.
Proof.
  intros Hq Hn.
  destruct (BuildCode_decodable qsort input Hq Hn) as [ptable [codes [H [Hd [Hin _]]]]].
  exists ptable, codes. split; [exact H|].
  apply decode_encode_text; [exact Hd | intros c Hc; apply Hin, Hc].
Qed.

(** ** Encode and Decode on the output file *)

Lemma output_rows_from (ptable : list pnode) (todo i : nat) (codes : CharMap.t str) :
  (i + todo = length ptable)%nat ->
  (forall e, In e ptable -> In (ch e) (CharMap.keys codes)) ->
  output_rows ptable todo i codes =
  Some (map (fun e => (ch e, p e, code_of codes (ch e))) (skipn i ptable), codes).
Proof.
  intros Hlen Hin. revert i Hlen; induction todo as [|todo IH]; intros i Hlen; cbn [output_rows].
  - rewrite skipn_all2 by lia. reflexivity.
  - destruct (nth_error_skipn ptable i) as [e [H1 H2]]; [lia|].
    rewrite H1; cbn [bind].
    assert (He : In e ptable) by (eapply nth_error_In; exact H1).
    destruct (CharMap.find (ch e) codes) as [w|] eqn:F.
    + unfold CharMap.index, str in *. rewrite F.
      rewrite IH by lia. cbn [bind fst snd].
      rewrite H2. cbn [map]. unfold code_of, str in *. rewrite F. reflexivity.
    + apply CharMapFacts.find_None in F. exfalso; apply F, Hin, He.
Qed.

Lemma bits_no_space (w : str) : bits w -> forallb (fun c => negb (isspace c)) w = true.
Proof.
  induction 1 as [|c w Hc _ IH]; [reflexivity|].
  cbn [forallb]. rewrite IH. destruct Hc as [-> | ->]; reflexivity.
Qed.

Lemma rows_laid_bits (rows : list row) (text : str) :
  (forall r, In r rows -> bits (snd r) /\ snd r <> []) ->
  rows_laid rows text = true.
Proof.
  induction rows as [|[[c x] w] rows IH]; intros H; [reflexivity|].
  destruct (H (c, x, w) (or_introl eq_refl)) as [Hb Hne]. cbn [snd] in Hb, Hne.
  cbn [rows_laid]. rewrite (bits_no_space w Hb).
  rewrite IH by (intros r Hr; apply H; right; exact Hr).
  destruct w; [congruence | reflexivity].
Qed.

(** Rows whose codewords are non-empty strings of bits that fit the array
    are stored as they are. *)
Lemma load_codes_rows (rows : list row) (code : str) (codes : CharMap.t str) :
  (forall r, In r rows -> bits (snd r) /\ snd r <> [] /\ (length (snd r) < 128)%nat) ->
  load_codes rows code codes =
  Some (set_all (map (fun r => (fst (fst r), snd r)) rows) codes).
Proof.
  revert code codes; induction rows as [|[[c x] w] rows IH]; intros code codes H;
    [reflexivity|].
  destruct (H (c, x, w) (or_introl eq_refl)) as [Hb [Hne Hlen]]. cbn [snd] in Hb, Hne, Hlen.
  cbn [load_codes].
  replace (128 <=? length w)%nat with false by (symmetry; apply Nat.leb_gt; exact Hlen).
  destruct w as [|b w]; [congruence|].
  rewrite (c_str_bits (b :: w) Hb).
  rewrite IH by (intros r Hr; apply H; right; exact Hr).
  reflexivity.
Qed.

(** A codeword of 128 characters or more in a row overruns the array. *)
Lemma load_codes_overrun (rows : list row) (code : str) (codes : CharMap.t str) :
  (exists r, In r rows /\ (128 <= length (snd r))%nat) ->
  load_codes rows code codes = None.
Proof.
  revert code codes; induction rows as [|[[c x] w] rows IH]; intros code codes [r [Hr Hlen]].
  - destruct Hr.
  - cbn [load_codes].
    destruct (128 <=? length w)%nat eqn:E; [reflexivity|].
    apply IH. exists r. split; [|exact Hlen].
    destruct Hr as [<- | Hr]; [|exact Hr].
    cbn [snd] in Hlen. apply Nat.leb_gt in E. lia.
Qed.

Lemma decodable_same (codes codes' : CharMap.t str) :
  (forall k, CharMap.find k codes' = CharMap.find k codes) ->
  NoDup (CharMap.keys codes') ->
  decodable codes -> decodable codes'.
Proof.
  intros Hsame Hnd' [Hnd [Hbits Hpf]]. repeat apply conj.
  - exact Hnd'.
  - intros k w Hk. apply (CharMapFacts.In_find _ _ _ Hnd') in Hk.
    rewrite Hsame in Hk. apply CharMapFacts.find_In in Hk. apply (Hbits k w Hk).
  - intros x y wx wy Hxy Hx Hy. rewrite Hsame in Hx, Hy. apply (Hpf x y wx wy Hxy Hx Hy).
Qed.

Lemma same_find_keys (codes codes' : CharMap.t str) (k : char) :
  (forall k, CharMap.find k codes' = CharMap.find k codes) ->
  In k (CharMap.keys codes) -> In k (CharMap.keys codes').
Proof.
  intros Hsame Hk.
  destruct (in_dec ascii_dec k (CharMap.keys codes')) as [H | H]; [exact H|].
  apply CharMapFacts.find_None in H. rewrite Hsame in H.
  apply CharMapFacts.find_None in H. contradiction.
Qed.

(** The table Decode loads from the rows written by Encode has the entries
    of the table Encode used. *)
Lemma loaded_codes_same (ptable : list pnode) (codes : CharMap.t str) (k : char) :
  NoDup (map ch ptable) -> NoDup (CharMap.keys codes) ->
  (forall c, In c (map ch ptable) <-> In c (CharMap.keys codes)) ->
  CharMap.find k
    (set_all (map (fun r : row => (fst (fst r), snd r))
                  (map (fun e => (ch e, p e, code_of codes (ch e))) ptable))
             CharMap.empty) =
  CharMap.find k codes.
Proof.
  intros Hnd Hndk Hsame. rewrite map_map; cbn [fst snd].
  set (pairs := map (fun e => (ch e, code_of codes (ch e))) ptable).
  assert (Hfst : map fst pairs = map ch ptable) by (unfold pairs; rewrite map_map; reflexivity).
  destruct (in_dec ascii_dec k (map ch ptable)) as [Hin | Hnin].
  - assert (Hp : In (k, code_of codes k) pairs).
    { apply in_map_iff in Hin as [e [<- He]]. unfold pairs.
      apply in_map_iff. exists e; split; [reflexivity | exact He]. }
    rewrite (set_all_find pairs _ k (code_of codes k)); [|rewrite Hfst; exact Hnd | exact Hp].
    apply Hsame in Hin. unfold code_of.
    destruct (CharMap.find k codes) eqn:F; [reflexivity|].
    apply CharMapFacts.find_None in F. contradiction.
  - rewrite set_all_other by (rewrite Hfst; exact Hnin).
    rewrite Hsame in Hnin. apply CharMapFacts.find_None in Hnin.
    rewrite Hnin. reflexivity.
Qed.

(** ** One distinct character *)

Lemma encode_text_empty_codes (codes : CharMap.t str) (input : list char) :
  (forall k w, CharMap.find k codes = Some w -> w = []) ->
  encode_text codes input = [].
Proof.
  intros H. rewrite encode_text_eq.
  induction input as [|c input IH]; simpl; [reflexivity|].
  rewrite IH, app_nil_r. unfold code_of.
  destruct (CharMap.find c codes) eqn:E; [apply (H c), E | reflexivity].
Qed.

(** X11. An input made of one character, however long: the root is a leaf,
    the only codeword is the empty string, Encode writes an empty text and
    Decode reads nothing back, whatever its array [code] holds. *)
Lemma single_symbol_lost
  (qsort : (pnode -> pnode -> Z) -> list pnode -> list pnode) (input : list char)
  (garbage : str) (misread : encoded -> option (list char)) :
  permutes qsort ->
  distinct input = 1%nat ->
  exists c w,
    BuildCode qsort input = Some (1%nat, [{| ch := c; p := w |}], [(c, [])]) /\
    Encode qsort input =
      Some {| enc_tsize := 1; enc_rows := [(c, w, [])]; enc_text := [] |} /\
    Decode garbage misread
      {| enc_tsize := 1; enc_rows := [(c, w, [])]; enc_text := [] |} = Some [].
Proof.
  intros Hq Hn.
  assert (Hne : input <> []) by (intros ->; discriminate).
  destruct (BuildCode_tree qsort Hq input Hne)
    as [ptable [codes [root [H [_ [_ [_ [Hlen [_ [_ [_ [Hpl [Hperm Hcodes]]]]]]]]]]]]].
  rewrite Hn in *.
  destruct root as [c w | w lc rc l r].
  2:{ simpl in Hlen. rewrite length_app in Hlen.
      pose proof (leaves_nonempty l). pose proof (leaves_nonempty r). lia. }
  destruct ptable as [|[c' w'] [|]]; try discriminate.
  simpl in Hperm. apply Permutation_length_1 in Hperm. subst c'.
  simpl in Hcodes. subst codes.
  exists c, w'. split; [exact H|]. split.
  - unfold Encode. rewrite H. cbn [bind output_rows nth_error ch p].
    unfold CharMap.index. cbn [CharMap.find]. rewrite char_eqb_refl. cbn [bind fst snd].
    rewrite encode_text_empty_codes; [reflexivity|].
    intros k x. cbn [CharMap.find]. destruct (char_eqb k c); [congruence | discriminate].
  - reflexivity.
Qed.

(** C4. The input "aaaa" has one distinct character. The table has one entry,
    and its codeword is the empty string; the encoded text is empty, and
    decoding gives the empty sequence, not "aaaa". *)
Theorem single_symbol_aaaa :
  BuildCode isort (chars "aaaa") =
    Some (1%nat, [{| ch := "a"%char; p := S754_finite false 8388608 (-23) |}],
          [("a"%char, [])]) /\
  encode_text [("a"%char, [])] (chars "aaaa") = [] /\
  decode_text [("a"%char, [])] (encode_text [("a"%char, [])] (chars "aaaa")) = [].
Proof. vm_compute. repeat split. Qed.

(** C1. Round trip on the non-empty input "aaaa": Encode writes a table of
    one row and an empty text, and Decode reads the empty sequence back,
    whatever its array [code] holds. *)
Theorem round_trip_aaaa (garbage : str) (misread : encoded -> option (list char)) :
  Encode isort (chars "aaaa") =
    Some {| enc_tsize := 1;
            enc_rows := [("a"%char, S754_finite false 8388608 (-23), [])];
            enc_text := [] |} /\
  Decode garbage misread
         {| enc_tsize := 1;
            enc_rows := [("a"%char, S754_finite false 8388608 (-23), [])];
            enc_text := [] |} = Some [] /\
  Some (@nil char) <> Some (chars "aaaa").
Proof.
  split; [vm_compute; reflexivity|].
  split; [reflexivity | discriminate].
Qed.

(** ** The empty input *)

(** C5. On the empty input [tops] is empty when [tops[0]] is read: the run is
    undefined, whatever [qsort] does; no table is returned and no text is
    written. The loop that writes the text, which is not reached, writes
    nothing for an empty input. *)
Theorem empty_input_undefined
  (qsort : (pnode -> pnode -> Z) -> list pnode -> list pnode) :
  count_chars [] = (CharMap.empty, 0) /\
  create_leaves (qsort pnode_compare []) 0 0 [] = Some [] /\
  merge_loop 0 [] = Some [] /\
  nth_error (@nil treenode) 0 = None /\
  BuildCode qsort [] = None /\
  Encode qsort [] = None /\
  (forall codes, encode_text codes [] = []).
Proof. repeat split. Qed.

(** ** Characters without an entry in the table *)




(** ** Text that stops inside a codeword *)

Lemma decode_text_cut (codes : CharMap.t str) (done : list char) (c : char)
  (todo more text : str) :
  decodable codes -> cut_inside codes done c todo more text ->
  decode_text codes text = done.
Proof.
  intros Hd [Hdone [Hc [_ [Hmore ->]]]].
  unfold decode_text. rewrite encode_text_eq.
  rewrite decode_loop_text by assumption.
  apply CharMapFacts.find_In in Hc.
  apply (decode_loop_truncated codes c [] todo more); assumption.
Qed.

(** C6, as the specification states it, fails on the table of "abracadabra"
    (a:0, b:10, c:1101, d:1100, r:111): the text "01" is the codeword of 'a'
    and the first bit of the codeword of 'b'; decoding it writes "a" and
    reports nothing. *)
Lemma truncated_text_not_reported :
  BuildCode isort (chars "abracadabra") =
    Some (5%nat,
          [{| ch := "a"%char; p := S754_finite false 15252015 (-25) |};
           {| ch := "b"%char; p := S754_finite false 12201612 (-26) |};
           {| ch := "r"%char; p := S754_finite false 12201612 (-26) |};
           {| ch := "c"%char; p := S754_finite false 12201612 (-27) |};
           {| ch := "d"%char; p := S754_finite false 12201612 (-27) |}],
          [("a"%char, chars "0"); ("b"%char, chars "10"); ("c"%char, chars "1101");
           ("d"%char, chars "1100"); ("r"%char, chars "111")]) /\
  cut_inside
    [("a"%char, chars "0"); ("b"%char, chars "10"); ("c"%char, chars "1101");
     ("d"%char, chars "1100"); ("r"%char, chars "111")]
    (chars "a") "b"%char (chars "1") (chars "0") (chars "01") /\
  decode_outcome
    [("a"%char, chars "0"); ("b"%char, chars "10"); ("c"%char, chars "1101");
     ("d"%char, chars "1100"); ("r"%char, chars "111")]
    (chars "01") = Wrote (chars "a") /\
  decode_outcome
    [("a"%char, chars "0"); ("b"%char, chars "10"); ("c"%char, chars "1101");
     ("d"%char, chars "1100"); ("r"%char, chars "111")]
    (chars "01") <> Failed TruncatedStream.
Proof.
  split; [vm_compute; reflexivity|]. split; [|split].
  - unfold cut_inside. repeat split; try discriminate.
    intros x [<- | []]. left; reflexivity.
  - reflexivity.
  - discriminate.
Qed.

(** C6, amended. Decoding a text that stops inside a codeword does not fail:
    with a table of non-empty codewords of bits, none a prefix of another, it
    writes the characters whose codewords are complete, no other character,
    and nothing for the incomplete codeword. The table built from an input of
    two or more distinct characters is such a table. *)
Theorem decode_truncated_text
  (qsort : (pnode -> pnode -> Z) -> list pnode -> list pnode) (input : list char) :
  permutes qsort ->
  (2 <= distinct input)%nat ->
  (forall codes done c todo more text,
      decodable codes ->
      cut_inside codes done c todo more text ->
      decode_outcome codes text = Wrote done) /\
  (exists ptable codes,
      BuildCode qsort input = Some (distinct input, ptable, codes) /\
      decodable codes).
Proof.
  intros Hq Hn. split.
  - intros codes done c todo more text Hd Hcut. unfold decode_outcome.
    rewrite (decode_text_cut codes done c todo more text Hd Hcut). reflexivity.
  - destruct (BuildCode_decodable qsort input Hq Hn) as [ptable [codes [H [Hd _]]]].
    exists ptable, codes. split; [exact H | exact Hd].
Qed.

Lemma decode_truncated_text_witness :
  decode_outcome
    [("a"%char, chars "0"); ("b"%char, chars "10"); ("c"%char, chars "1101");
     ("d"%char, chars "1100"); ("r"%char, chars "111")]
    (chars "01") = Wrote (chars "a").
Proof.
  destruct (decode_truncated_text isort (chars "abracadabra") isort_permutes)
    as [H [ptable [codes [Hb Hd]]]]; [vm_compute; lia|].
  vm_compute in Hb. injection Hb as _ <-.
  apply (H _ (chars "a") "b"%char (chars "1") (chars "0") _ Hd).
  unfold cut_inside. repeat split; try discriminate.
  intros x [<- | []]. left; reflexivity.
Defined.

(** ** The order of [float] *)

Module F32Facts.

Lemma ltb_compare (x y : float) : F32.ltb x y = true <-> SFcompare x y = Some Lt.
Proof.
  unfold F32.ltb, SFltb. destruct (SFcompare x y) as [[| |]|]; split; congruence.
Qed.

Ltac split_signs :=
  repeat match goal with
         | s : bool |- _ => destruct s
         end.

Lemma compare_asym (x y : float) : SFcompare x y = Some Lt -> SFcompare y x = Some Gt.
Proof.
  intros H.
  destruct x as [sx|sx| |sx mx ex], y as [sy|sy| |sy my ey];
    split_signs; simpl in H |- *; try discriminate; try reflexivity;
    injection H as H; f_equal;
    change (Pos.compare_cont Eq my mx) with (Pos.compare my mx);
    change (Pos.compare_cont Eq mx my) with (Pos.compare mx my) in H;
    rewrite (Z.compare_antisym ex ey), (Pos.compare_antisym mx my);
    destruct (Z.compare ex ey); destruct (Pos.compare mx my); simpl in *; congruence.
Qed.

Lemma lex_trans (ex ey ez : Z) (mx my mz : positive) :
  match ex ?= ey with Lt => Lt | Gt => Gt | Eq => Pos.compare mx my end = Lt ->
  match ey ?= ez with Lt => Lt | Gt => Gt | Eq => Pos.compare my mz end = Lt ->
  match ex ?= ez with Lt => Lt | Gt => Gt | Eq => Pos.compare mx mz end = Lt.
Proof.
  destruct (Z.compare_spec ex ey), (Z.compare_spec ey ez), (Z.compare_spec ex ez);
    try congruence; try lia; subst;
    rewrite ?Pos.compare_lt_iff; intros; try lia.
Qed.

Lemma lex_trans_opp (ex ey ez : Z) (mx my mz : positive) :
  match ex ?= ey with Lt => Gt | Gt => Lt | Eq => CompOpp (Pos.compare mx my) end = Lt ->
  match ey ?= ez with Lt => Gt | Gt => Lt | Eq => CompOpp (Pos.compare my mz) end = Lt ->
  match ex ?= ez with Lt => Gt | Gt => Lt | Eq => CompOpp (Pos.compare mx mz) end = Lt.
Proof.
  destruct (Z.compare_spec ex ey), (Z.compare_spec ey ez), (Z.compare_spec ex ez);
    try congruence; try lia; subst;
    destruct (Pos.compare_spec mx my), (Pos.compare_spec my mz), (Pos.compare_spec mx mz);
    simpl; try congruence; try lia.
Qed.

Lemma compare_trans (x y z : float) :
  SFcompare x y = Some Lt -> SFcompare y z = Some Lt -> SFcompare x z = Some Lt.
Proof.
  intros H1 H2.
  destruct x as [sx|sx| |sx mx ex], y as [sy|sy| |sy my ey];
    split_signs; simpl in H1; try discriminate;
    destruct z as [sz|sz| |sz mz ez];
    split_signs; simpl in H2 |- *; try discriminate; try reflexivity;
    injection H1 as H1; injection H2 as H2; f_equal.
  - exact (lex_trans_opp _ _ _ _ _ _ H1 H2).
  - exact (lex_trans _ _ _ _ _ _ H1 H2).
Qed.

(** [<] on floats is asymmetric and transitive, NaN or not. *)
Lemma ltb_asym (x y : float) : F32.ltb x y = true -> F32.ltb y x = false.
Proof.
  intros H. apply ltb_compare, compare_asym in H.
  unfold F32.ltb, SFltb. rewrite H. reflexivity.
Qed.

Lemma ltb_trans (x y z : float) :
  F32.ltb x y = true -> F32.ltb y z = true -> F32.ltb x z = true.
Proof.
  rewrite !ltb_compare. apply compare_trans.
Qed.

End F32Facts.

(** ** Edge labels *)

Lemma Forall_removelast {A : Type} (P : A -> Prop) (l : list A) :
  Forall P l -> Forall P (removelast l).
Proof.
  induction 1 as [|x l Hx Hl IH]; simpl; [constructor|].
  destruct l; [constructor | constructor; assumption].
Qed.

Lemma pop_back_Forall {A : Type} (P : A -> Prop) (l l' : list A) :
  Forall P l -> pop_back l = Some l' -> Forall P l'.
Proof.
  intros H. unfold pop_back. destruct l as [|a l]; [discriminate|].
  intros [= <-]. exact (Forall_removelast P (a :: l) H).
Qed.

Section ForestInvariant.

Variable P : treenode -> Prop.
Hypothesis P_leaf : forall e, P (leaf_of e).
Hypothesis P_node : forall l r, P l -> P r -> P (new_node l r).

Lemma create_leaves_Forall (ptable : list pnode) (todo i : nat) (tops tops' : list treenode) :
  Forall P tops -> create_leaves ptable todo i tops = Some tops' -> Forall P tops'.
Proof.
  revert i tops; induction todo as [|todo IH]; intros i tops Ht; cbn [create_leaves].
  - intros [= <-]; exact Ht.
  - destruct (nth_error ptable i) as [e|]; cbn [bind]; [|discriminate].
    apply IH. apply Forall_app; split; [exact Ht|].
    constructor; [apply (P_leaf e) | constructor].
Qed.

Lemma merge_step_Forall (numtop : nat) (tops tops' : list treenode) :
  Forall P tops -> merge_step numtop tops = Some tops' -> Forall P tops'.
Proof.
  intros Ht. unfold merge_step.
  destruct (nth_error tops (numtop - 2)) as [l|] eqn:El; cbn [bind]; [|discriminate].
  destruct (nth_error tops (numtop - 1)) as [r|] eqn:Er; cbn [bind]; [|discriminate].
  destruct (pop_back tops) as [tops1|] eqn:E1; cbn [bind]; [|discriminate].
  destruct (pop_back tops1) as [tops2|] eqn:E2; cbn [bind]; [|discriminate].
  intros [= <-].
  rewrite Forall_forall in Ht.
  apply insert_node_Forall.
  - apply P_node; apply Ht; eapply nth_error_In; eassumption.
  - eapply pop_back_Forall; [|exact E2].
    eapply pop_back_Forall; [|exact E1].
    apply Forall_forall, Ht.
Qed.

Lemma merge_loop_Forall (numtop : nat) (tops tops' : list treenode) :
  Forall P tops -> merge_loop numtop tops = Some tops' -> Forall P tops'.
Proof.
  revert tops; induction numtop as [|numtop IH]; intros tops Ht; cbn [merge_loop].
  - intros [= <-]; exact Ht.
  - destruct numtop as [|k].
    + intros [= <-]; exact Ht.
    + destruct (merge_step (S (S k)) tops) as [tops1|] eqn:E; cbn [bind]; [|discriminate].
      apply IH. eapply merge_step_Forall; eassumption.
Qed.

Lemma build_tree_invariant (tsize : nat) (ptable : list pnode) (root : treenode) :
  build_tree tsize ptable = Some root -> P root.
Proof.
  unfold build_tree.
  destruct (create_leaves ptable tsize 0 []) as [tops|] eqn:E1; cbn [bind]; [|discriminate].
  destruct (merge_loop tsize tops) as [tops'|] eqn:E2; cbn [bind]; [|discriminate].
  intros Hroot. apply nth_error_In in Hroot.
  assert (H : Forall P tops').
  { eapply merge_loop_Forall; [|exact E2].
    eapply create_leaves_Forall; [|exact E1]. constructor. }
  rewrite Forall_forall in H. apply H, Hroot.
Qed.

End ForestInvariant.

Lemma new_node_labels_by_weight (l r : treenode) :
  labels_by_weight l -> labels_by_weight r -> labels_by_weight (new_node l r).
Proof.
  intros Hl Hr. unfold new_node.
  destruct (F32.ltb (weight l) (weight r)) eqn:E; cbn [labels_by_weight];
    (split; [|split; [|split; [|split]]]); try assumption;
    intros; try (split; reflexivity); try congruence;
    match goal with
    | H : F32.ltb _ _ = true |- _ => apply F32Facts.ltb_asym in H; congruence
    end.
Qed.

(** ** The order of the working vector *)

Lemma descending_app_l (a b : list treenode) : descending (a ++ b) -> descending a.
Proof.
  unfold descending. induction a as [|x a IH]; simpl; intros H; [constructor|].
  apply StronglySorted_inv in H as [H1 H2].
  constructor; [apply IH, H1|].
  apply Forall_app in H2. apply H2.
Qed.

Lemma descending_app_cross (a b : list treenode) (x y : treenode) :
  descending (a ++ b) -> In x a -> In y b -> not_lighter x y.
Proof.
  unfold descending. induction a as [|z a IH]; simpl; intros H Hx Hy; [contradiction|].
  apply StronglySorted_inv in H as [H1 H2].
  destruct Hx as [-> | Hx].
  - rewrite Forall_forall in H2. apply H2, in_or_app. right; exact Hy.
  - apply IH; assumption.
Qed.

Lemma insert_node_descending (n : treenode) (tops : list treenode) :
  descending tops -> descending (insert_node n tops).
Proof.
  unfold descending. induction tops as [|t ts IH]; simpl; intros H.
  - repeat constructor.
  - apply StronglySorted_inv in H as [H1 H2].
    destruct (F32.ltb (weight t) (weight n)) eqn:E.
    + constructor; [constructor; assumption|].
      constructor.
      * apply F32Facts.ltb_asym, E.
      * rewrite Forall_forall in *. intros b Hb. specialize (H2 b Hb).
        unfold not_lighter in *.
        destruct (F32.ltb (weight n) (weight b)) eqn:E'; [|reflexivity].
        rewrite (F32Facts.ltb_trans _ _ _ E E') in H2. discriminate.
    + constructor; [apply IH, H1|].
      apply insert_node_Forall; [exact E | exact H2].
Qed.

Lemma pnode_compare_le (a b : pnode) : pnode_compare a b <= 0 <-> F32.ltb (p a) (p b) = false.
Proof.
  unfold pnode_compare.
  destruct (F32.ltb (p a) (p b)); [split; [lia | discriminate]|].
  destruct (F32.ltb (p b) (p a)); split; auto; lia.
Qed.

Lemma leaves_descending (ptable : list pnode) :
  sorted_ptable ptable -> descending (map leaf_of ptable).
Proof.
  unfold sorted_ptable, descending.
  induction 1 as [|e l Hs IH Hall]; simpl; constructor; [exact IH|].
  rewrite Forall_forall in *. intros x Hx.
  apply in_map_iff in Hx as [e' [<- He']].
  unfold not_lighter; simpl. apply pnode_compare_le, Hall, He'.
Qed.

(** One iteration on a vector in descending order: the last two nodes are
    taken, no node is strictly lighter than either of them, and the new node
    goes in front of the first node that is strictly lighter than it. *)
Lemma merge_step_descending (numtop : nat) (tops : list treenode) :
  descending tops -> length tops = numtop -> (1 < numtop)%nat ->
  exists rest l r front back,
    tops = rest ++ [l; r] /\
    Forall (fun x => not_lighter x l /\ not_lighter x r) rest /\
    not_lighter l r /\
    rest = front ++ back /\
    merge_step numtop tops = Some (front ++ new_node l r :: back) /\
    weight (new_node l r) = F32.add (weight l) (weight r) /\
    Forall (fun x => not_lighter x (new_node l r)) front /\
    match back with
    | [] => True
    | y :: _ => F32.ltb (weight y) (weight (new_node l r)) = true
    end /\
    descending (front ++ new_node l r :: back).
Proof.
  intros Hd Hlen Hnum.
  destruct (two_last tops) as [rest [l [r ->]]]; [lia|].
  destruct (insert_node_split (new_node l r) rest) as [front [back [E1 [E2 [Hfront Hback]]]]].
  exists rest, l, r, front, back. repeat apply conj.
  - reflexivity.
  - apply Forall_forall. intros x Hx. split.
    + eapply descending_app_cross; [exact Hd | exact Hx | left; reflexivity].
    + eapply descending_app_cross; [exact Hd | exact Hx | right; left; reflexivity].
  - apply descending_app_cross with (a := rest ++ [l]) (b := [r]).
    + rewrite <- app_assoc. exact Hd.
    + apply in_or_app. right; left; reflexivity.
    + left; reflexivity.
  - exact E1.
  - rewrite <- Hlen, merge_step_eq, E2. reflexivity.
  - apply new_node_weight.
  - exact Hfront.
  - exact Hback.
  - rewrite <- E2. apply insert_node_descending. eapply descending_app_l, Hd.
Qed.

Lemma loop_head_invariant (numtop0 : nat) (tops0 : list treenode) (numtop : nat)
  (tops : list treenode) :
  descending tops0 -> length tops0 = numtop0 ->
  loop_head numtop0 tops0 numtop tops ->
  descending tops /\ length tops = numtop.
Proof.
  intros Hd0 Hlen0. induction 1 as [|numtop tops tops' Hhead [Hd Hlen] Hnum Hstep].
  - split; assumption.
  - destruct (merge_step_descending numtop tops Hd Hlen Hnum)
      as [rest [l [r [front [back [E1 [_ [_ [E2 [E3 [_ [_ [_ Hd']]]]]]]]]]]]].
    rewrite E3 in Hstep. injection Hstep as <-. split; [exact Hd'|].
    rewrite <- Hlen, E1, E2. rewrite ?length_app. simpl. rewrite ?length_app. simpl. lia.
Qed.

(** The states [merge_loop] goes through are loop heads, and it stops at the
    first one with [numtop <= 1]. *)
Lemma merge_loop_reaches (numtop0 : nat) (tops0 : list treenode) (numtop : nat)
  (tops final : list treenode) :
  loop_head numtop0 tops0 numtop tops ->
  merge_loop numtop tops = Some final ->
  loop_head numtop0 tops0 (Nat.min numtop 1) final.
Proof.
  revert tops; induction numtop as [|numtop IH]; intros tops Hhead; cbn [merge_loop].
  - intros [= <-]. exact Hhead.
  - destruct numtop as [|k].
    + intros [= <-]. exact Hhead.
    + destruct (merge_step (S (S k)) tops) as [tops1|] eqn:E; cbn [bind]; [|discriminate].
      intros Hloop.
      replace (Nat.min (S (S k)) 1) with (Nat.min (S k) 1) by lia.
      apply (IH tops1); [|exact Hloop].
      replace (S k) with (S (S k) - 1)%nat by lia.
      eapply head_again; [exact Hhead | lia | exact E].
Qed.

(** C7. With [ptable] in decreasing order, as [qsort] leaves it, the working
    vector [tops] is in descending order of weight every time the head of the
    merge loop is reached. An iteration takes the last two nodes, than which no
    node is strictly lighter, and puts the new node, whose weight is the sum
    of their weights, in front of the first node strictly lighter than it, or
    at the end when there is none; the vector is in descending order again. *)
Theorem tops_stay_descending (ptable : list pnode) (tops0 : list treenode) (numtop : nat)
  (tops : list treenode) :
  sorted_ptable ptable ->
  create_leaves ptable (length ptable) 0 [] = Some tops0 ->
  loop_head (length ptable) tops0 numtop tops ->
  descending tops /\
  length tops = numtop /\
  ((1 < numtop)%nat ->
   exists rest l r front back,
     tops = rest ++ [l; r] /\
     Forall (fun x => not_lighter x l /\ not_lighter x r) rest /\
     not_lighter l r /\
     rest = front ++ back /\
     merge_step numtop tops = Some (front ++ new_node l r :: back) /\
     weight (new_node l r) = F32.add (weight l) (weight r) /\
     Forall (fun x => not_lighter x (new_node l r)) front /\
     match back with
     | [] => True
     | y :: _ => F32.ltb (weight y) (weight (new_node l r)) = true
     end /\
     descending (front ++ new_node l r :: back)).
Proof.
  intros Hs Hc Hhead.
  rewrite create_leaves_all in Hc. injection Hc as <-.
  destruct (loop_head_invariant _ _ _ _ (leaves_descending ptable Hs)
              (length_map leaf_of ptable) Hhead) as [Hd Hlen].
  split; [exact Hd|]. split; [exact Hlen|].
  intros Hnum. apply merge_step_descending; assumption.
Qed.

Lemma tops_stay_descending_witness :
  exists ptable tops0 tops,
    BuildCode isort (chars "aaaaabbcd") = Some (4%nat, ptable, 
      [("a"%char, chars "1"); ("b"%char, chars "01"); ("c"%char, chars "001");
       ("d"%char, chars "000")]) /\
    create_leaves ptable 4 0 [] = Some tops0 /\
    merge_step 4 tops0 = Some tops /\
    descending tops /\ length tops = 3%nat.
Proof.
  eexists. eexists. eexists.
  split; [vm_compute; reflexivity|].
  split; [vm_compute; reflexivity|].
  split; [vm_compute; reflexivity|].
  match goal with
  | |- descending ?t /\ _ =>
      destruct (tops_stay_descending
                  [{| ch := "a"%char; p := S754_finite false 9320676 (-24) |};
                   {| ch := "b"%char; p := S754_finite false 14913081 (-26) |};
                   {| ch := "c"%char; p := S754_finite false 14913081 (-27) |};
                   {| ch := "d"%char; p := S754_finite false 14913081 (-27) |}]
                  [Leaf "a"%char (S754_finite false 9320676 (-24));
                   Leaf "b"%char (S754_finite false 14913081 (-26));
                   Leaf "c"%char (S754_finite false 14913081 (-27));
                   Leaf "d"%char (S754_finite false 14913081 (-27))]
                  3 t) as [H1 [H2 _]]
  end.
  - unfold sorted_ptable. repeat constructor; vm_compute; discriminate.
  - reflexivity.
  - apply (head_again 4 _ 4 _ _ (head_entry 4 _)); [lia | vm_compute; reflexivity].
  - split; [exact H1 | exact H2].
Defined.

(** ** Counting long runs of one character *)

Lemma wrap_int_add_l (x y : Z) : wrap_int (wrap_int x + y) = wrap_int (x + y).
Proof.
  unfold wrap_int.
  replace ((x + 2 ^ 31) mod 2 ^ 32 - 2 ^ 31 + y + 2 ^ 31) with ((x + 2 ^ 31) mod 2 ^ 32 + y) by lia.
  rewrite Zplus_mod_idemp_l. f_equal. f_equal. lia.
Qed.

Lemma wrap_unsigned_add_l (x y : Z) : wrap_unsigned (wrap_unsigned x + y) = wrap_unsigned (x + y).
Proof. unfold wrap_unsigned. apply Zplus_mod_idemp_l. Qed.




(** ** Rounded weights and the cost of the code *)











(** ** Prefix codes on an alphabet: the exchange argument *)

Section Exchange.

Context {X : Type}.
Variable X_dec : forall x y : X, {x = y} + {x <> y}.
Variable w : X -> Z.

Lemma wsum_app (f : X -> Z) (A B : list X) : wsum f (A ++ B) = wsum f A + wsum f B.
Proof. induction A as [|x A IH]; simpl; [reflexivity | rewrite IH; lia]. Qed.

Lemma wsum_ext (f g : X -> Z) (A : list X) :
  (forall x, In x A -> f x = g x) -> wsum f A = wsum g A.
Proof.
  induction A as [|x A IH]; simpl; intros H; [reflexivity|].
  rewrite (H x) by (left; reflexivity). rewrite IH; [reflexivity|].
  intros y Hy; apply H; right; exact Hy.
Qed.

Lemma wsum_Permutation (f : X -> Z) (A B : list X) :
  Permutation A B -> wsum f A = wsum f B.
Proof. induction 1; simpl; lia. Qed.

Lemma wsum_nonneg (f : X -> Z) (A : list X) :
  (forall x, In x A -> 0 <= f x) -> 0 <= wsum f A.
Proof.
  induction A as [|x A IH]; simpl; intros H; [lia|].
  pose proof (H x (or_introl eq_refl)).
  assert (0 <= wsum f A) by (apply IH; intros y Hy; apply H; right; exact Hy). lia.
Qed.

(** Changing the summand of one letter changes the sum by the difference. *)
Lemma wsum_update (f g : X -> Z) (A : list X) (s : X) :
  NoDup A -> In s A ->
  (forall x, In x A -> x <> s -> g x = f x) ->
  wsum g A = wsum f A + (g s - f s).
Proof.
  induction A as [|x A IH]; simpl; intros Hnd Hin Hsame; [contradiction|].
  inversion Hnd as [|? ? Hnotin Hnd']; subst.
  destruct Hin as [-> | Hin].
  - rewrite (wsum_ext g f A); [lia|].
    intros y Hy. apply Hsame; [right; exact Hy | intros ->; contradiction].
  - rewrite IH; try assumption.
    + rewrite (Hsame x); [lia | left; reflexivity | intros ->; contradiction].
    + intros y Hy Hne. apply Hsame; [right; exact Hy | exact Hne].
Qed.

Lemma swap_letters_in (A : list X) (a s x : X) :
  In a A -> In s A -> In x A -> In (swap_letters X_dec a s x) A.
Proof.
  intros Ha Hs Hx. unfold swap_letters.
  destruct (X_dec x a); [exact Hs|]. destruct (X_dec x s); [exact Ha | exact Hx].
Qed.

Lemma swap_letters_inj (a s x y : X) :
  swap_letters X_dec a s x = swap_letters X_dec a s y -> x = y.
Proof.
  unfold swap_letters.
  destruct (X_dec x a), (X_dec x s), (X_dec y a), (X_dec y s); congruence.
Qed.

Lemma code_on_swap (A : list X) (C : X -> str) (a s : X) :
  In a A -> In s A -> code_on A C ->
  code_on A (fun x => C (swap_letters X_dec a s x)).
Proof.
  intros Ha Hs [Hb Hp]. split.
  - intros x Hx. apply Hb, swap_letters_in; assumption.
  - intros x y Hx Hy Hne. apply Hp; try (apply swap_letters_in; assumption).
    intros E. apply Hne, (swap_letters_inj a s), E.
Qed.

(** Giving the longer codeword to the lighter letter does not raise the cost. *)
Lemma wcost_swap (A : list X) (C : X -> str) (a s : X) :
  NoDup A -> In a A -> In s A ->
  w a <= w s -> (length (C a) <= length (C s))%nat ->
  wcost w (fun x => C (swap_letters X_dec a s x)) A <= wcost w C A.
Proof.
  intros Hnd Ha Hs Hw Hl. unfold wcost.
  destruct (X_dec a s) as [<- | Hne].
  - rewrite (wsum_ext _ (fun x => w x * Z.of_nat (length (C x)))); [lia|].
    intros x _. unfold swap_letters. destruct (X_dec x a); [subst; reflexivity | reflexivity].
  - set (f := fun x => w x * Z.of_nat (length (C x))).
    set (g := fun x => w x * Z.of_nat (length (C (swap_letters X_dec a s x)))).
    set (h := fun x => if X_dec x a then g a else f x).
    assert (E1 : wsum h A = wsum f A + (h a - f a)).
    { apply wsum_update; try assumption.
      intros x _ Hx. unfold h. destruct (X_dec x a); [contradiction | reflexivity]. }
    assert (E2 : wsum g A = wsum h A + (g s - h s)).
    { apply wsum_update; try assumption.
      intros x _ Hx. unfold h, g. destruct (X_dec x a) as [-> | Hxa]; [reflexivity|].
      unfold f, swap_letters. destruct (X_dec x a); [contradiction|].
      destruct (X_dec x s); [contradiction | reflexivity]. }
    rewrite E2, E1.
    assert (Ha' : h a = w a * Z.of_nat (length (C s))).
    { unfold h, g, swap_letters. destruct (X_dec a a); [reflexivity | contradiction]. }
    assert (Hs' : h s = f s).
    { unfold h. destruct (X_dec s a); [congruence | reflexivity]. }
    assert (Hg : g s = w s * Z.of_nat (length (C a))).
    { unfold g, swap_letters. destruct (X_dec s a); [congruence|].
      destruct (X_dec s s); [reflexivity | contradiction]. }
    rewrite Ha', Hs', Hg. unfold f. nia.
Qed.

Lemma deepest_letter (A : list X) (C : X -> str) :
  A <> [] -> exists s, In s A /\ forall x, In x A -> (length (C x) <= length (C s))%nat.
Proof.
  induction A as [|x A IH]; [congruence|]. intros _.
  destruct A as [|y A].
  - exists x. split; [left; reflexivity|]. intros z [<- | []]. lia.
  - destruct IH as [s [Hs Hmax]]; [discriminate|].
    destruct (le_lt_dec (length (C x)) (length (C s))) as [Hle | Hlt].
    + exists s. split; [right; exact Hs|]. intros z [<- | Hz]; [exact Hle | apply Hmax, Hz].
    + exists x. split; [left; reflexivity|]. intros z [<- | Hz]; [lia|].
      specialize (Hmax z Hz). lia.
Qed.

Lemma holder_dec (A : list X) (C : X -> str) (v : str) :
  (exists t, In t A /\ C t = v) \/ (forall t, In t A -> C t <> v).
Proof.
  induction A as [|x A IH].
  - right. intros t [].
  - destruct (list_eq_dec ascii_dec (C x) v) as [E | Hne].
    + left. exists x. split; [left; reflexivity | exact E].
    + destruct IH as [[t [Ht E]] | Hnone].
      * left. exists t. split; [right; exact Ht | exact E].
      * right. intros t [<- | Ht]; [exact Hne | apply Hnone, Ht].
Qed.

End Exchange.

Lemma flip_bit (x : char) :
  x = c0 \/ x = c1 ->
  flip x <> x /\ (flip x = c0 \/ flip x = c1) /\
  forall z, z = c0 \/ z = c1 -> z = x \/ z = flip x.
Proof.
  intros [-> | ->]; (split; [discriminate|]); (split; [auto|]);
    intros z [-> | ->]; auto.
Qed.

Lemma prefix_app (u r : str) : prefix u (u ++ r).
Proof. exists r; reflexivity. Qed.

Lemma prefix_trans (u v x : str) : prefix u v -> prefix v x -> prefix u x.
Proof. intros [r1 ->] [r2 ->]. exists (r1 ++ r2). rewrite app_assoc; reflexivity. Qed.

Section Reduction.

Context {X : Type}.
Variable X_dec : forall x y : X, {x = y} + {x <> y}.
Variable w : X -> Z.

Variables (a b m : X) (rest : list X).
Hypothesis alphabet_NoDup : NoDup (a :: b :: rest).
Hypothesis m_fresh : ~ In m (a :: b :: rest).
Hypothesis m_weight : w m = w a + w b.
Hypothesis a_nonneg : 0 <= w a.
Hypothesis a_lightest : w a <= w b.
Hypothesis b_next : forall x, In x rest -> w b <= w x.

Lemma weights_nonneg (x : X) : In x (a :: b :: rest) -> 0 <= w x /\ w a <= w x.
Proof.
  intros [<- | [<- | Hx]]; [lia | lia |]. specialize (b_next x Hx). lia.
Qed.

Lemma total_length_nonneg (C : X -> str) (A : list X) : 0 <= total_length C A.
Proof. apply wsum_nonneg. intros; lia. Qed.

(** A codeword of maximal length without a sibling can lose its last bit. *)
Lemma shorten_deepest (C : X -> str) (s : X) (u : str) (beta : char) :
  code_on (a :: b :: rest) C ->
  In s (a :: b :: rest) ->
  (forall x, In x (a :: b :: rest) -> (length (C x) <= length (C s))%nat) ->
  C s = u ++ [beta] ->
  (forall t, In t (a :: b :: rest) -> C t <> u ++ [flip beta]) ->
  code_on (a :: b :: rest) (update X_dec C s u) /\
  total_length (update X_dec C s u) (a :: b :: rest) < total_length C (a :: b :: rest) /\
  wcost w (update X_dec C s u) (a :: b :: rest) <= wcost w C (a :: b :: rest).
Proof.
  intros [Hb Hp] Hs Hmax Es Hnone.
  assert (Hbs : bits (u ++ [beta])) by (rewrite <- Es; apply Hb, Hs).
  apply bits_app in Hbs as [Hbu Hbeta].
  inversion Hbeta as [|? ? Hbeta' _]; subst.
  destruct (flip_bit beta Hbeta') as [_ [_ Hcover]].
  split; [split|split].
  - intros x Hx. unfold update. destruct (X_dec x s); [exact Hbu | apply Hb, Hx].
  - intros x y Hx Hy Hne. unfold update.
    destruct (X_dec x s) as [-> | Hxs], (X_dec y s) as [-> | Hys].
    + congruence.
    + intros [r E].
      destruct r as [|z r].
      * rewrite app_nil_r in E. apply (Hp y s Hy Hs Hys).
        rewrite Es, E. apply prefix_app.
      * assert (Hz : z = c0 \/ z = c1).
        { pose proof (Hb y Hy) as Hby. rewrite E in Hby.
          apply bits_app in Hby as [_ Hby]. inversion Hby; assumption. }
        destruct (Hcover z Hz) as [-> | ->].
        -- apply (Hp s y Hs Hy (not_eq_sym Hys)).
           rewrite Es, E. exists r. rewrite <- app_assoc. reflexivity.
        -- pose proof (Hmax y Hy) as Hlen. rewrite E, Es in Hlen.
           rewrite !length_app in Hlen. simpl in Hlen.
           destruct r; [|simpl in Hlen; lia].
           apply (Hnone y Hy). exact E.
    + intros Hpre. apply (Hp x s Hx Hs Hxs).
      rewrite Es. eapply prefix_trans; [exact Hpre | apply prefix_app].
    + apply Hp; assumption.
  - unfold total_length.
    rewrite (wsum_update (fun x => Z.of_nat (length (C x))) _ _ s alphabet_NoDup Hs).
    + unfold update. destruct (X_dec s s); [|contradiction].
      rewrite Es, length_app. simpl. lia.
    + intros x _ Hx. unfold update. destruct (X_dec x s); [contradiction | reflexivity].
  - unfold wcost.
    rewrite (wsum_update (fun x => w x * Z.of_nat (length (C x))) _ _ s alphabet_NoDup Hs).
    + unfold update. destruct (X_dec s s); [|contradiction].
      rewrite Es, length_app. simpl.
      destruct (weights_nonneg s Hs). nia.
    + intros x _ Hx. unfold update. destruct (X_dec x s); [contradiction | reflexivity].
Qed.

(** With the two lightest letters on sibling codewords, the pair can be
    replaced by one letter on their common prefix. *)
Lemma merge_siblings (C : X -> str) (u : str) (beta : char) :
  code_on (a :: b :: rest) C ->
  beta = c0 \/ beta = c1 ->
  C a = u ++ [beta] -> C b = u ++ [flip beta] ->
  code_on (m :: rest) (update X_dec C m u) /\
  wcost w (update X_dec C m u) (m :: rest) + w a + w b = wcost w C (a :: b :: rest).
Proof.
  intros [Hb Hp] Hbeta Ea Eb.
  destruct (flip_bit beta Hbeta) as [_ [_ Hcover]].
  assert (Hbu : bits u).
  { pose proof (Hb a (or_introl eq_refl)) as H. rewrite Ea in H. apply bits_app in H. apply H. }
  assert (Hmr : ~ In m rest) by (intros H; apply m_fresh; right; right; exact H).
  assert (Hrest : forall x, In x rest -> x <> m /\ x <> a /\ x <> b /\ In x (a :: b :: rest)).
  { intros x Hx. repeat split.
    - intros ->. contradiction.
    - intros ->. inversion alphabet_NoDup as [|? ? H _]. apply H. right; exact Hx.
    - intros ->. inversion alphabet_NoDup as [|? ? _ H]. inversion H as [|? ? H' _].
      apply H'. exact Hx.
    - right; right; exact Hx. }
  split; [split|].
  - intros x [<- | Hx]; unfold update.
    + destruct (X_dec m m); [exact Hbu | contradiction].
    + destruct (X_dec x m); [exact Hbu|]. apply Hb. right; right; exact Hx.
  - intros x y Hx Hy Hne. unfold update.
    destruct (X_dec x m) as [-> | Hxm], (X_dec y m) as [-> | Hym].
    + congruence.
    + destruct Hy as [Hy | Hy]; [congruence|].
      destruct (Hrest y Hy) as [_ [Hya [Hyb HyA]]].
      intros [r E]. destruct r as [|z r].
      * rewrite app_nil_r in E.
        apply (Hp y a HyA (or_introl eq_refl) Hya). rewrite Ea, E. apply prefix_app.
      * assert (Hz : z = c0 \/ z = c1).
        { pose proof (Hb y HyA) as Hby. rewrite E in Hby.
          apply bits_app in Hby as [_ Hby]. inversion Hby; assumption. }
        destruct (Hcover z Hz) as [-> | ->].
        -- apply (Hp a y (or_introl eq_refl) HyA (not_eq_sym Hya)).
           rewrite Ea, E. exists r. rewrite <- app_assoc. reflexivity.
        -- apply (Hp b y (or_intror (or_introl eq_refl)) HyA (not_eq_sym Hyb)).
           rewrite Eb, E. exists r. rewrite <- app_assoc. reflexivity.
    + destruct Hx as [Hx | Hx]; [congruence|].
      destruct (Hrest x Hx) as [_ [Hxa [_ HxA]]].
      intros Hpre. apply (Hp x a HxA (or_introl eq_refl) Hxa).
      rewrite Ea. eapply prefix_trans; [exact Hpre | apply prefix_app].
    + destruct Hx as [Hx | Hx]; [congruence|]. destruct Hy as [Hy | Hy]; [congruence|].
      apply Hp; try assumption; right; right; assumption.
  - unfold wcost. cbn [wsum fold_right].
    fold (wsum (fun x => w x * Z.of_nat (length (update X_dec C m u x))) rest).
    fold (wsum (fun x => w x * Z.of_nat (length (C x))) rest).
    rewrite (wsum_ext (fun x => w x * Z.of_nat (length (update X_dec C m u x)))
                      (fun x => w x * Z.of_nat (length (C x))) rest).
    + unfold update. destruct (X_dec m m); [|contradiction].
      rewrite Ea, Eb, m_weight, !length_app. simpl. lia.
    + intros x Hx. unfold update. destruct (X_dec x m) as [-> | _]; [contradiction | reflexivity].
Qed.

Lemma swap_letters_twice (p q x : X) :
  swap_letters X_dec p q (swap_letters X_dec p q x) = x.
Proof.
  unfold swap_letters.
  destruct (X_dec x p) as [-> | Hp].
  - destruct (X_dec q p) as [-> | _]; [reflexivity|].
    destruct (X_dec q q); [reflexivity | contradiction].
  - destruct (X_dec x q) as [-> | Hq].
    + destruct (X_dec p p); [reflexivity | contradiction].
    + destruct (X_dec x p); [contradiction|]. destruct (X_dec x q); [contradiction | reflexivity].
Qed.

Lemma swap_letters_first (p q : X) : swap_letters X_dec p q p = q.
Proof. unfold swap_letters. destruct (X_dec p p); [reflexivity | contradiction]. Qed.

Lemma swap_letters_other (p q x : X) : x <> p -> x <> q -> swap_letters X_dec p q x = x.
Proof.
  intros Hp Hq. unfold swap_letters.
  destruct (X_dec x p); [contradiction|]. destruct (X_dec x q); [contradiction | reflexivity].
Qed.

(** Every prefix code on the alphabet costs at least the weight of the two
    lightest letters more than some prefix code on the alphabet in which the
    two are merged into one letter. *)
Lemma reduce_code (n : nat) (C : X -> str) :
  total_length C (a :: b :: rest) < Z.of_nat n ->
  code_on (a :: b :: rest) C ->
  exists C',
    code_on (m :: rest) C' /\
    wcost w C' (m :: rest) + w a + w b <= wcost w C (a :: b :: rest).
Proof.
  revert C. induction n as [|n IH]; intros C Hlen Hcode.
  - pose proof (total_length_nonneg C (a :: b :: rest)). lia.
  - assert (Hab : a <> b).
    { intros ->. inversion alphabet_NoDup as [|? ? H _]. apply H. left; reflexivity. }
    assert (Ha : In a (a :: b :: rest)) by (left; reflexivity).
    assert (Hb : In b (a :: b :: rest)) by (right; left; reflexivity).
    destruct (deepest_letter (a :: b :: rest) C) as [s [Hs Hmax]]; [discriminate|].
    assert (Hne : C s <> []).
    { intros E. pose proof (Hmax a Ha) as La. pose proof (Hmax b Hb) as Lb.
      rewrite E in La, Lb. simpl in La, Lb.
      destruct (C a) eqn:Ea; [|simpl in La; lia].
      apply (proj2 Hcode a b Ha Hb Hab). rewrite Ea. exists (C b). reflexivity. }
    destruct (exists_last Hne) as [u [beta Es]].
    assert (Hbeta : beta = c0 \/ beta = c1).
    { pose proof (proj1 Hcode s Hs) as H. rewrite Es in H.
      apply bits_app in H as [_ H]. inversion H; assumption. }
    destruct (holder_dec (a :: b :: rest) C (u ++ [flip beta])) as [[t [Ht Et]] | Hnone].
    + set (C1 := fun x => C (swap_letters X_dec a s x)).
      assert (Hcode1 : code_on (a :: b :: rest) C1) by (apply code_on_swap; assumption).
      assert (Hcost1 : wcost w C1 (a :: b :: rest) <= wcost w C (a :: b :: rest)).
      { apply wcost_swap; try assumption; [apply weights_nonneg, Hs | apply Hmax, Ha]. }
      set (y := swap_letters X_dec a s t).
      assert (Hy : In y (a :: b :: rest)) by (apply swap_letters_in; assumption).
      assert (E1y : C1 y = C t) by (unfold C1, y; rewrite swap_letters_twice; reflexivity).
      assert (E1a : C1 a = C s) by (unfold C1; rewrite swap_letters_first; reflexivity).
      assert (Hya : y <> a).
      { intros E. rewrite E, E1a, Es, Et in E1y.
        apply app_inj_tail in E1y as [_ E1y].
        destruct (flip_bit beta Hbeta) as [Hf _]. congruence. }
      set (C2 := fun x => C1 (swap_letters X_dec b y x)).
      assert (Hcode2 : code_on (a :: b :: rest) C2) by (apply code_on_swap; assumption).
      assert (Hcost2 : wcost w C2 (a :: b :: rest) <= wcost w C1 (a :: b :: rest)).
      { apply wcost_swap; try assumption.
        - destruct Hy as [Hy | [Hy | Hy]]; [congruence | subst; lia | apply b_next, Hy].
        - rewrite E1y, Et. unfold C1.
          pose proof (Hmax _ (swap_letters_in X_dec _ a s b Ha Hs Hb)) as H.
          rewrite Es in H. rewrite !length_app in *. simpl in *. lia. }
      assert (E2a : C2 a = u ++ [beta]).
      { unfold C2. rewrite swap_letters_other by congruence. rewrite E1a. exact Es. }
      assert (E2b : C2 b = u ++ [flip beta]).
      { unfold C2. rewrite swap_letters_first, E1y. exact Et. }
      destruct (merge_siblings C2 u beta Hcode2 Hbeta E2a E2b) as [Hc' Hcost'].
      exists (update X_dec C2 m u). split; [exact Hc' | lia].
    + destruct (shorten_deepest C s u beta Hcode Hs Hmax Es Hnone) as [Hc1 [Hl1 Hw1]].
      destruct (IH (update X_dec C s u)) as [C' [Hc' Hw']]; [lia | exact Hc1|].
      exists C'. split; [exact Hc' | lia].
Qed.

End Reduction.

(** ** The cost of the tree the merge loop builds *)

Lemma float_eq_dec (x y : float) : {x = y} + {x <> y}.
Proof.
  unfold float. decide equality; try apply Bool.bool_dec; try apply Z.eq_dec; apply Pos.eq_dec.
Defined.

Lemma treenode_eq_dec (x y : treenode) : {x = y} + {x <> y}.
Proof. decide equality; try apply float_eq_dec; apply ascii_dec. Defined.

Lemma occurrences_nonneg (input : list char) (c : char) : 0 <= occurrences input c.
Proof. unfold occurrences. lia. Qed.

Lemma true_weight_nonneg (input : list char) (t : treenode) : 0 <= true_weight input t.
Proof.
  induction t as [c x | x lc rc l IHl r IHr]; simpl; [apply occurrences_nonneg | lia].
Qed.

Lemma new_node_true_weight (input : list char) (l r : treenode) :
  true_weight input (new_node l r) = true_weight input l + true_weight input r.
Proof. unfold new_node. destruct (F32.ltb _ _); reflexivity. Qed.

Lemma new_node_tree_cost (input : list char) (l r : treenode) :
  tree_cost input (new_node l r) =
  tree_cost input l + tree_cost input r + true_weight input l + true_weight input r.
Proof. unfold new_node. destruct (F32.ltb _ _); reflexivity. Qed.

Lemma nodes_self (t : treenode) : In t (nodes t).
Proof. destruct t; left; reflexivity. Qed.

Lemma nodes_trans (s t root : treenode) :
  In s (nodes t) -> In t (nodes root) -> In s (nodes root).
Proof.
  intros Hs. induction root as [c x | x lc rc l IHl r IHr]; simpl.
  - intros [<- | []]. exact Hs.
  - intros [<- | Ht]; [exact Hs|]. right.
    apply in_app_iff in Ht. apply in_app_iff. destruct Ht as [Ht | Ht]; auto.
Qed.

Lemma new_node_children (l r : treenode) :
  In l (nodes (new_node l r)) /\ In r (nodes (new_node l r)).
Proof.
  unfold new_node. destruct (F32.ltb _ _); simpl; split; right; apply in_app_iff;
    auto using nodes_self.
Qed.

(** Every node of the working vector ends up in the tree. *)
Lemma merge_loop_nodes (numtop : nat) (F : list treenode) (root t : treenode) :
  length F = numtop -> merge_loop numtop F = Some [root] -> In t F -> In t (nodes root).
Proof.
  revert F t; induction numtop as [|numtop IH]; intros F t Hlen Hloop Ht.
  - destruct F; [contradiction | discriminate].
  - destruct numtop as [|k].
    + destruct F as [|t0 [|]]; try discriminate. simpl in Hloop. injection Hloop as <-.
      destruct Ht as [<- | []]. apply nodes_self.
    + destruct (two_last F) as [rest [l [r ->]]]; [lia|].
      pose proof (merge_step_eq rest l r) as Hm. rewrite Hlen in Hm.
      cbn [merge_loop] in Hloop. rewrite Hm in Hloop. cbn [bind] in Hloop.
      assert (Hlen' : length (insert_node (new_node l r) rest) = S k).
      { rewrite insert_node_length. rewrite length_app in Hlen. simpl in Hlen. lia. }
      assert (Hnew : In (new_node l r) (nodes root)).
      { apply (IH _ _ Hlen' Hloop).
        eapply Permutation_in; [symmetry; apply insert_node_Permutation | left; reflexivity]. }
      apply in_app_iff in Ht. destruct Ht as [Ht | [<- | [<- | []]]].
      * apply (IH _ _ Hlen' Hloop).
        eapply Permutation_in; [symmetry; apply insert_node_Permutation | right; exact Ht].
      * eapply nodes_trans; [apply (proj1 (new_node_children l r)) | exact Hnew].
      * eapply nodes_trans; [apply (proj2 (new_node_children l r)) | exact Hnew].
Qed.

Lemma NoDup_app_disjoint {A : Type} (l1 l2 : list A) (x : A) :
  NoDup (l1 ++ l2) -> In x l1 -> In x l2 -> False.
Proof.
  induction l1 as [|y l1 IH]; simpl; intros Hnd H1 H2; [contradiction|].
  inversion Hnd as [|? ? Hnotin Hnd']; subst.
  destruct H1 as [-> | H1].
  - apply Hnotin, in_or_app. right; exact H2.
  - apply IH; assumption.
Qed.

(** Two nodes of the working vector that share a leaf are the same node. *)
Lemma forest_share (F : list treenode) (s t : treenode) (c : char) :
  NoDup (flat_map leaves F) -> In s F -> In t F ->
  In c (leaves s) -> In c (leaves t) -> s = t.
Proof.
  induction F as [|u F IH]; simpl; intros Hnd Hs Ht Hcs Hct; [contradiction|].
  destruct Hs as [-> | Hs], Ht as [-> | Ht].
  - reflexivity.
  - exfalso. apply (NoDup_app_disjoint _ _ c Hnd Hcs).
    apply in_flat_map. exists t. split; assumption.
  - exfalso. apply (NoDup_app_disjoint _ _ c Hnd Hct).
    apply in_flat_map. exists s. split; assumption.
  - apply IH; try assumption. eapply NoDup_app_remove_l; exact Hnd.
Qed.

Lemma first_leaf (t : treenode) : exists c, In c (leaves t).
Proof.
  pose proof (leaves_nonempty t) as H. destruct (leaves t) as [|c l]; [simpl in H; lia|].
  exists c. left; reflexivity.
Qed.

Lemma forest_NoDup (F : list treenode) : NoDup (flat_map leaves F) -> NoDup F.
Proof.
  induction F as [|t F IH]; simpl; intros Hnd; constructor.
  - intros Hin. destruct (first_leaf t) as [c Hc].
    apply (NoDup_app_disjoint _ _ c Hnd Hc).
    apply in_flat_map. exists t. split; assumption.
  - apply IH. eapply NoDup_app_remove_l; exact Hnd.
Qed.

Lemma new_node_fresh (rest : list treenode) (l r : treenode) :
  NoDup (flat_map leaves (rest ++ [l; r])) -> ~ In (new_node l r) (rest ++ [l; r]).
Proof.
  intros Hnd Hin.
  destruct (first_leaf l) as [c Hc].
  assert (Hl : In l (rest ++ [l; r])) by (apply in_or_app; right; left; reflexivity).
  assert (E : new_node l r = l).
  { apply (forest_share _ _ _ c Hnd Hin Hl); [|exact Hc].
    rewrite new_node_leaves. apply in_or_app. left; exact Hc. }
  apply (f_equal (fun t => length (leaves t))) in E.
  rewrite new_node_leaves, length_app in E.
  pose proof (leaves_nonempty r). lia.
Qed.

Lemma code_on_same {X : Type} (A B : list X) (C : X -> str) :
  (forall x, In x B -> In x A) -> code_on A C -> code_on B C.
Proof.
  intros Hsub [Hb Hp]. split.
  - intros x Hx. apply Hb, Hsub, Hx.
  - intros x y Hx Hy. apply Hp; apply Hsub; assumption.
Qed.

(** When the rounded weights keep the order of the exact ones, the tree the
    merge loop ends with is at least as cheap as any prefix code on the nodes
    the loop starts from, the cost inside those nodes set aside. *)
Lemma merge_loop_optimal (input : list char) (root : treenode) :
  order_preserved input root ->
  forall (numtop : nat) (F : list treenode),
    length F = numtop -> descending F -> NoDup (flat_map leaves F) ->
    merge_loop numtop F = Some [root] ->
    forall C, code_on F C ->
      tree_cost input root - wsum (tree_cost input) F <= wcost (true_weight input) C F.
Proof.
  intros Hord. induction numtop as [|numtop IH]; intros F Hlen Hdesc Hnd Hloop C Hcode.
  - destruct F; discriminate.
  - destruct numtop as [|k].
    + destruct F as [|t [|]]; try discriminate. simpl in Hloop. injection Hloop as <-.
      unfold wcost. simpl. pose proof (true_weight_nonneg input t). nia.
    + destruct (two_last F) as [rest [l [r ->]]]; [lia|].
      pose proof (merge_step_eq rest l r) as Hm. rewrite Hlen in Hm.
      assert (Hloop' : merge_loop (S k) (insert_node (new_node l r) rest) = Some [root]).
      { cbn [merge_loop] in Hloop. rewrite Hm in Hloop. exact Hloop. }
      set (m := new_node l r) in *.
      assert (Hperm : Permutation (rest ++ [l; r]) (r :: l :: rest)).
      { rewrite Permutation_app_comm. simpl. apply perm_swap. }
      assert (Hperm' : Permutation (insert_node m rest) (m :: rest))
        by apply insert_node_Permutation.
      assert (Hin : forall t, In t (rest ++ [l; r]) -> In t (nodes root)).
      { intros t Ht. eapply merge_loop_nodes; eassumption. }
      assert (Hle : forall s t, In s (rest ++ [l; r]) -> In t (rest ++ [l; r]) ->
                                not_lighter s t -> true_weight input t <= true_weight input s).
      { intros s t Hs Ht Hnl.
        destruct (Z_lt_le_dec (true_weight input s) (true_weight input t)) as [Hlt | Hge];
          [|exact Hge].
        unfold not_lighter in Hnl. rewrite (Hord s t (Hin s Hs) (Hin t Ht) Hlt) in Hnl.
        discriminate. }
      assert (Hl : In l (rest ++ [l; r])) by (apply in_or_app; right; left; reflexivity).
      assert (Hr : In r (rest ++ [l; r])) by (apply in_or_app; right; right; left; reflexivity).
      destruct (reduce_code treenode_eq_dec (true_weight input) r l m rest)
        with (n := S (Z.to_nat (total_length C (r :: l :: rest)))) (C := C)
        as [C' [Hcode' Hcost']].
      * eapply Permutation_NoDup; [exact Hperm | apply forest_NoDup, Hnd].
      * intros H. apply (new_node_fresh rest l r Hnd).
        eapply Permutation_in; [symmetry; exact Hperm | exact H].
      * unfold m. rewrite new_node_true_weight. lia.
      * apply true_weight_nonneg.
      * apply Hle; try assumption.
        apply descending_app_cross with (a := rest ++ [l]) (b := [r]).
        -- rewrite <- app_assoc. exact Hdesc.
        -- apply in_or_app. right; left; reflexivity.
        -- left; reflexivity.
      * intros x Hx. apply Hle; try assumption.
        -- apply in_or_app. left; exact Hx.
        -- eapply descending_app_cross; [exact Hdesc | exact Hx | left; reflexivity].
      * pose proof (wsum_nonneg (fun x : treenode => Z.of_nat (length (C x))) (r :: l :: rest))
          as Hnn.
        unfold total_length. rewrite Nat2Z.inj_succ, Z2Nat.id; [lia|].
        apply Hnn. intros; lia.
      * eapply code_on_same; [|exact Hcode].
        intros x Hx. eapply Permutation_in; [symmetry; exact Hperm | exact Hx].
      * assert (IH' := IH (insert_node m rest)).
        assert (Hlen' : length (insert_node m rest) = S k).
        { rewrite insert_node_length. rewrite length_app in Hlen. simpl in Hlen. lia. }
        specialize (IH' Hlen').
        specialize (IH' (insert_node_descending m rest (descending_app_l _ _ Hdesc))).
        assert (Hnd' : NoDup (flat_map leaves (insert_node m rest))).
        { eapply Permutation_NoDup; [|exact Hnd].
          rewrite (flat_map_Permutation _ _ _ Hperm').
          simpl. unfold m. rewrite new_node_leaves, flat_map_app. simpl.
          rewrite app_nil_r. apply Permutation_app_comm. }
        specialize (IH' Hnd' Hloop' C').
        assert (Hc'' : code_on (insert_node m rest) C').
        { eapply code_on_same; [|exact Hcode'].
          intros x Hx. eapply Permutation_in; [exact Hperm' | exact Hx]. }
        specialize (IH' Hc'').
        unfold wcost in *.
        rewrite (wsum_Permutation (tree_cost input) _ _ Hperm') in IH'.
        rewrite (wsum_Permutation
                   (fun x => true_weight input x * Z.of_nat (length (C' x))) _ _ Hperm') in IH'.
        rewrite (wsum_Permutation (tree_cost input) _ _ Hperm).
        rewrite (wsum_Permutation
                   (fun x => true_weight input x * Z.of_nat (length (C x))) _ _ Hperm).
        cbn [wsum fold_right] in *.
        fold (wsum (tree_cost input) rest) in *.
        unfold m in IH', Hcost'. rewrite new_node_tree_cost in IH'.
        rewrite new_node_true_weight in IH', Hcost'.
        lia.
Qed.

(** ** Optimality when the rounding keeps the order of the weights *)

Lemma wsum_map {X Y : Type} (f : Y -> Z) (g : X -> Y) (A : list X) :
  wsum f (map g A) = wsum (fun x => f (g x)) A.
Proof. induction A as [|x A IH]; simpl; [reflexivity | rewrite IH; reflexivity]. Qed.

(** The cost of a table, letter by letter. *)
Lemma cost_by_key (input : list char) (codes : CharMap.t str) :
  NoDup (CharMap.keys codes) ->
  cost input codes =
  wsum (fun c => occurrences input c * Z.of_nat (length (code_of codes c)))
       (CharMap.keys codes).
Proof.
  intros Hnd. unfold cost, CharMap.keys. rewrite wsum_map.
  change (fold_right
            (fun e acc => Z.of_nat (count_occ ascii_dec input (fst e)) *
                          Z.of_nat (length (snd e)) + acc) 0 codes)
    with (wsum (fun e : char * str => occurrences input (fst e) * Z.of_nat (length (snd e)))
               codes).
  apply wsum_ext. intros [c x] Hin. cbn [fst snd].
  unfold code_of. rewrite (CharMapFacts.In_find _ _ _ Hnd Hin). reflexivity.
Qed.

(** The cost of the paths of a tree. *)
Lemma paths_cost (input : list char) (t : treenode) (pre : str) :
  wsum (fun e : char * str => occurrences input (fst e) * Z.of_nat (length (snd e)))
       (paths t pre) =
  true_weight input t * Z.of_nat (length pre) + tree_cost input t.
Proof.
  revert pre; induction t as [c x | x lc rc l IHl r IHr]; intros pre; simpl.
  - lia.
  - rewrite wsum_app, IHl, IHr, !length_app. simpl. lia.
Qed.

Lemma NoDup_pairs {A B : Type} (l : list (A * B)) : NoDup (map fst l) -> NoDup l.
Proof. apply NoDup_map_inv. Qed.

(** The cost of the table GenerateCode fills is the cost of the tree. *)
Lemma codes_cost (input : list char) (root : treenode) (codes : CharMap.t str) :
  NoDup (leaves root) -> NoDup (CharMap.keys codes) ->
  (forall k x, CharMap.find k codes = Some x <-> In (k, x) (paths root [])) ->
  cost input codes = tree_cost input root.
Proof.
  intros Hl Hk Hfind.
  change (cost input codes)
    with (wsum (fun e : char * str => occurrences input (fst e) * Z.of_nat (length (snd e)))
               codes).
  rewrite (wsum_Permutation _ codes (paths root [])).
  - rewrite paths_cost. simpl. lia.
  - apply NoDup_Permutation.
    + apply NoDup_pairs, Hk.
    + apply NoDup_pairs. rewrite paths_chars. exact Hl.
    + intros [k x]. rewrite <- Hfind. split.
      * apply CharMapFacts.In_find, Hk.
      * apply CharMapFacts.find_In.
Qed.

Lemma leaves_of_leaves (ptable : list pnode) :
  flat_map leaves (map leaf_of ptable) = map ch ptable.
Proof. induction ptable as [|e l IH]; simpl; [reflexivity | rewrite IH; reflexivity]. Qed.

Lemma leaves_tree_cost (input : list char) (ptable : list pnode) :
  wsum (tree_cost input) (map leaf_of ptable) = 0.
Proof. induction ptable as [|e l IH]; simpl; [reflexivity | rewrite IH; reflexivity]. Qed.

(** A prefix code for the characters of the input is a prefix code on the
    leaves the merge loop starts from, at the same cost. *)
Lemma leaf_code_on (input : list char) (other : CharMap.t str) (ptable : list pnode) :
  prefix_code input other ->
  NoDup (map ch ptable) ->
  (forall c, In c (map ch ptable) <-> In c input) ->
  code_on (map leaf_of ptable) (leaf_code other) /\
  wcost (true_weight input) (leaf_code other) (map leaf_of ptable) = cost input other.
Proof.
  intros [Hnd [Hkeys [Hbits Hpf]]] Hndp Hchars.
  assert (Hfind : forall c, In c (map ch ptable) -> exists x, CharMap.find c other = Some x).
  { intros c Hc. apply Hchars, Hkeys in Hc.
    destruct (CharMap.find c other) eqn:E; [eexists; reflexivity|].
    apply CharMapFacts.find_None in E. contradiction. }
  split; [split|].
  - intros t Ht. apply in_map_iff in Ht as [e [<- He]]. simpl.
    destruct (Hfind (ch e) (in_map ch _ _ He)) as [x Hx].
    unfold code_of. rewrite Hx. apply (Hbits _ _ Hx).
  - intros s t Hs Ht Hne.
    apply in_map_iff in Hs as [e [<- He]]. apply in_map_iff in Ht as [e' [<- He']]. simpl.
    destruct (Hfind (ch e) (in_map ch _ _ He)) as [x Hx].
    destruct (Hfind (ch e') (in_map ch _ _ He')) as [x' Hx'].
    unfold code_of. rewrite Hx, Hx'.
    apply (Hpf (ch e) (ch e') x x'); [|exact Hx | exact Hx'].
    intros E. apply Hne.
    assert (Ee : e = e').
    { clear - Hndp He He' E. induction ptable as [|e0 l IH]; [contradiction|].
      simpl in Hndp. inversion Hndp as [|? ? Hnotin Hnd']; subst.
      destruct He as [-> | He], He' as [-> | He'].
      - reflexivity.
      - exfalso. apply Hnotin. rewrite E. apply in_map, He'.
      - exfalso. apply Hnotin. rewrite <- E. apply in_map, He.
      - apply IH; assumption. }
    rewrite Ee. reflexivity.
  - rewrite (cost_by_key input other Hnd). unfold wcost. rewrite wsum_map.
    rewrite (wsum_Permutation _ (CharMap.keys other) (map ch ptable)).
    + rewrite wsum_map. apply wsum_ext. intros e _. reflexivity.
    + apply NoDup_Permutation; [exact Hnd | exact Hndp|].
      intros c. rewrite Hkeys, Hchars. tauto.
Qed.




(** * The rest of the code *)

(** ** Counting characters (Encode, the first loop) *)

Lemma count_fold_find (input : list char) (freqs : CharMap.t Z) (total : Z) (c : char) :
  CharMap.find c (fst (fold_left count_step input (freqs, total))) =
  match count_occ ascii_dec input c with
  | O => CharMap.find c freqs
  | S _ =>
      Some (wrap_int (match CharMap.find c freqs with Some k => k | None => 0 end
                      + Z.of_nat (count_occ ascii_dec input c)))
  end.
Proof.
  revert freqs total; induction input as [|x input IH]; intros freqs total.
  - reflexivity.
  - cbn [fold_left]. rewrite count_step_eq, IH.
    destruct (ascii_dec x c) as [-> | Hne].
    + rewrite CharMapFacts.find_set_eq.
      assert (E : count_occ ascii_dec (c :: input) c = S (count_occ ascii_dec input c))
        by (apply count_occ_cons_eq; reflexivity).
      unfold char in *. rewrite E.
      destruct (count_occ ascii_dec input c) as [|n].
      * reflexivity.
      * rewrite wrap_int_add_l. f_equal. f_equal. lia.
    + rewrite count_occ_cons_neq by exact Hne.
      rewrite CharMapFacts.find_set_neq by exact Hne. reflexivity.
Qed.

Lemma count_fold_total (input : list char) (freqs : CharMap.t Z) (total : Z) :
  snd (fold_left count_step input (freqs, total)) =
  match input with
  | [] => total
  | _ => wrap_unsigned (total + Z.of_nat (length input))
  end.
Proof.
  revert freqs total; induction input as [|x input IH]; intros freqs total.
  - reflexivity.
  - cbn [fold_left]. rewrite count_step_eq, IH.
    destruct input as [|y input].
    + reflexivity.
    + rewrite wrap_unsigned_add_l. f_equal. simpl length. lia.
Qed.

Lemma count_occ_le_length (input : list char) (c : char) :
  (count_occ ascii_dec input c <= length input)%nat.
Proof.
  induction input as [|x input IH]; simpl; [lia|].
  destruct (ascii_dec x c); lia.
Qed.

Lemma wrap_int_small (z : Z) : 0 <= z < 2 ^ 31 -> wrap_int z = z.
Proof. intros H. unfold wrap_int. rewrite Z.mod_small; lia. Qed.

Lemma wrap_unsigned_small (z : Z) : 0 <= z < 2 ^ 32 -> wrap_unsigned z = z.
Proof. intros H. unfold wrap_unsigned. apply Z.mod_small; lia. Qed.

Lemma count_chars_find (input : list char) (c : char) :
  In c input ->
  CharMap.find c (fst (count_chars input)) = Some (wrap_int (occurrences input c)).
Proof.
  intros Hc. unfold count_chars. rewrite count_fold_find.
  apply (count_occ_In ascii_dec) in Hc.
  destruct (count_occ ascii_dec input c) eqn:E; [lia|].
  unfold occurrences. rewrite E. reflexivity.
Qed.

Lemma count_chars_total (input : list char) :
  snd (count_chars input) = wrap_unsigned (Z.of_nat (length input)).
Proof. unfold count_chars. rewrite count_fold_total. destruct input; reflexivity. Qed.

(** X1. After the counting loop, [freqs] has an entry for each character of
    the input and for no other; the entry is the number of occurrences and
    [total] the length of the input, as the 32-bit counters hold them, and
    exactly those numbers for an input of fewer than 2^31 characters. *)
Theorem count_chars_counts (input : list char) :
  (forall c, In c input ->
             CharMap.find c (fst (count_chars input)) = Some (wrap_int (occurrences input c))) /\
  (forall c, ~ In c input -> CharMap.find c (fst (count_chars input)) = None) /\
  snd (count_chars input) = wrap_unsigned (Z.of_nat (length input)) /\
  (Z.of_nat (length input) < 2 ^ 31 ->
   (forall c, In c input ->
              CharMap.find c (fst (count_chars input)) = Some (occurrences input c)) /\
   snd (count_chars input) = Z.of_nat (length input)).
Proof.
  pose proof (count_chars_find input) as Hin.
  pose proof (count_chars_total input) as Htot.
  split; [exact Hin|]. split; [|split; [exact Htot|]].
  - intros c Hc. unfold count_chars. rewrite count_fold_find.
    apply (count_occ_not_In ascii_dec) in Hc. rewrite Hc. reflexivity.
  - intros Hlen. split.
    + intros c Hc. rewrite (Hin c Hc). f_equal. apply wrap_int_small.
      unfold occurrences. pose proof (count_occ_le_length input c). lia.
    + rewrite Htot. apply wrap_unsigned_small. lia.
Qed.

Lemma count_chars_counts_witness :
  CharMap.find "a"%char (fst (count_chars (chars "abracadabra"))) = Some 5 /\
  snd (count_chars (chars "abracadabra")) = 11.
Proof.
  destruct (count_chars_counts (chars "abracadabra")) as [_ [_ [_ H]]].
  destruct H as [H1 H2]; [vm_compute; reflexivity|].
  split; [|exact H2].
  rewrite (H1 "a"%char); [reflexivity | left; reflexivity].
Defined.

(** ** The table of probabilities (Encode, the second loop) *)

Lemma build_ptable_In (freqs : CharMap.t Z) (total : Z) (e : pnode) :
  In e (build_ptable freqs total) ->
  exists n, In (ch e, n) freqs /\ p e = F32.div (F32.of_int n) (F32.of_int total).
Proof.
  unfold build_ptable. intros H. apply in_map_iff in H.
  destruct H as [[k n] [<- Hin]]. exists n. split; [exact Hin | reflexivity].
Qed.

(** X2. The members [tsize] and [ptable] after the sort: one row per distinct
    character of the input, and the probability of a row is the quotient, in
    single precision, of the counter of its character by the counter of all
    characters. *)
Theorem ptable_rows
  (qsort : (pnode -> pnode -> Z) -> list pnode -> list pnode) (input : list char)
  (tsize : nat) (ptable : list pnode) (codes : CharMap.t str) :
  permutes qsort ->
  BuildCode qsort input = Some (tsize, ptable, codes) ->
  tsize = distinct input /\
  length ptable = tsize /\
  NoDup (map ch ptable) /\
  (forall c, In c (map ch ptable) <-> In c input) /\
  (forall e, In e ptable ->
     p e = F32.div (F32.of_int (wrap_int (occurrences input (ch e))))
                   (F32.of_int (wrap_unsigned (Z.of_nat (length input))))).
Proof.
  intros Hq H. unfold BuildCode in H.
  pose proof (count_chars_find input) as Hin.
  pose proof (count_chars_total input) as Htot.
  pose proof (count_chars_NoDup input) as Hnd.
  pose proof (count_chars_keys input) as Hkeys.
  pose proof (count_chars_size input) as Hsize.
  destruct (count_chars input) as [freqs total]. cbn [fst snd] in *.
  destruct (EncHuffman (CharMap.size freqs) (qsort pnode_compare (build_ptable freqs total))
              CharMap.empty) as [codes'|]; [|discriminate].
  cbn [bind] in H. injection H as <- <- <-.
  pose proof (Hq pnode_compare (build_ptable freqs total)) as Hperm.
  assert (Hch : Permutation (map ch (qsort pnode_compare (build_ptable freqs total)))
                            (CharMap.keys freqs)).
  { rewrite <- (build_ptable_chars freqs total). apply Permutation_map. exact Hperm. }
  split; [exact Hsize|]. split.
  - rewrite (Permutation_length Hperm). unfold build_ptable, CharMap.size.
    apply length_map.
  - split.
    + apply (Permutation_NoDup (Permutation_sym Hch)). exact Hnd.
    + split.
      * intros c. rewrite <- Hkeys. split; intros Hc.
        -- apply (Permutation_in _ Hch). exact Hc.
        -- apply (Permutation_in _ (Permutation_sym Hch)). exact Hc.
      * intros e He. apply (Permutation_in _ Hperm) in He.
        apply build_ptable_In in He. destruct He as [n [Hn ->]].
        apply (CharMapFacts.In_find _ _ _ Hnd) in Hn.
        assert (Hc : In (ch e) input).
        { apply Hkeys. apply CharMapFacts.find_In in Hn.
          unfold CharMap.keys. apply in_map_iff. exists (ch e, n). split; [reflexivity | exact Hn]. }
        rewrite (Hin _ Hc) in Hn. injection Hn as <-. rewrite Htot. reflexivity.
Qed.

Lemma ptable_rows_witness :
  2%nat = distinct (chars "abb") /\
  F32.div (F32.of_int 2) (F32.of_int 3) =
  F32.div (F32.of_int (wrap_int (occurrences (chars "abb") "b"%char)))
          (F32.of_int (wrap_unsigned (Z.of_nat (length (chars "abb"))))).
Proof.
  destruct (ptable_rows isort (chars "abb") 2
              [{| ch := "b"%char; p := F32.div (F32.of_int 2) (F32.of_int 3) |};
               {| ch := "a"%char; p := F32.div (F32.of_int 1) (F32.of_int 3) |}]
              [("a"%char, [c0]); ("b"%char, [c1])]
              isort_permutes)
    as [H1 [_ [_ [_ H2]]]].
  - vm_compute. reflexivity.
  - split; [exact H1|].
    exact (H2 {| ch := "b"%char; p := F32.div (F32.of_int 2) (F32.of_int 3) |}
              (or_introl eq_refl)).
Defined.

(** ** pnode_compare *)

(** X3. [pnode_compare] is a consistent comparison for a decreasing sort: it
    answers -1 exactly when the first row has the strictly greater probability,
    swapping the arguments negates the answer, and the answer -1 is transitive. *)
Theorem pnode_compare_order (a b c : pnode) :
  (pnode_compare a b = -1 <-> F32.ltb (p b) (p a) = true) /\
  pnode_compare b a = - pnode_compare a b /\
  (pnode_compare a b = -1 -> pnode_compare b c = -1 -> pnode_compare a c = -1).
Proof.
  assert (Hlt : forall x y, pnode_compare x y = -1 <-> F32.ltb (p y) (p x) = true).
  { intros x y. unfold pnode_compare.
    destruct (F32.ltb (p x) (p y)) eqn:E1, (F32.ltb (p y) (p x)) eqn:E2;
      try (split; intros; (discriminate || reflexivity || lia)).
    apply F32Facts.ltb_asym in E1. congruence. }
  split; [apply Hlt|]. split.
  - unfold pnode_compare.
    destruct (F32.ltb (p a) (p b)) eqn:E1, (F32.ltb (p b) (p a)) eqn:E2; try reflexivity.
    apply F32Facts.ltb_asym in E1. congruence.
  - intros H1 H2. apply Hlt in H1. apply Hlt in H2. apply Hlt.
    exact (F32Facts.ltb_trans _ _ _ H2 H1).
Qed.

Lemma pnode_compare_order_witness :
  pnode_compare {| ch := "a"%char; p := F32.of_int 3 |}
                {| ch := "c"%char; p := F32.of_int 1 |} = -1.
Proof.
  refine (proj2 (proj2
    (pnode_compare_order {| ch := "a"%char; p := F32.of_int 3 |}
                         {| ch := "b"%char; p := F32.of_int 2 |}
                         {| ch := "c"%char; p := F32.of_int 1 |})) _ _);
    vm_compute; reflexivity.
Defined.

(** ** EncHuffman: the bounds of the two loops and the shape of the tree *)

Lemma create_leaves_firstn (ptable : list pnode) (todo i : nat) (tops : list treenode) :
  (i + todo <= length ptable)%nat ->
  create_leaves ptable todo i tops =
  Some (tops ++ map leaf_of (firstn todo (skipn i ptable))).
Proof.
  revert i tops; induction todo as [|todo IH]; intros i tops Hlen; cbn [create_leaves].
  - cbn [firstn map]. rewrite app_nil_r; reflexivity.
  - destruct (nth_error_skipn ptable i) as [e [H1 H2]]; [lia|].
    rewrite H1; cbn [bind]. rewrite IH by lia.
    rewrite H2; cbn [firstn map]. rewrite <- app_assoc; reflexivity.
Qed.

Lemma create_leaves_short (ptable : list pnode) (todo i : nat) (tops : list treenode) :
  (length ptable < i + todo)%nat -> (0 < todo)%nat ->
  create_leaves ptable todo i tops = None.
Proof.
  revert i tops; induction todo as [|todo IH]; intros i tops Hlen Hpos; [lia|].
  cbn [create_leaves].
  destruct (nth_error ptable i) as [e|] eqn:E; cbn [bind]; [|reflexivity].
  assert (i < length ptable)%nat by (apply nth_error_Some; congruence).
  apply IH; lia.
Qed.

Lemma merged_nodes_Permutation (l l' : list treenode) :
  Permutation l l' -> list_sum (map merged_nodes l) = list_sum (map merged_nodes l').
Proof. induction 1; simpl; lia. Qed.

Lemma new_node_merged_nodes (l r : treenode) :
  merged_nodes (new_node l r) = S (merged_nodes l + merged_nodes r).
Proof. unfold new_node. destruct (F32.ltb (weight l) (weight r)); reflexivity. Qed.

Lemma new_node_weights_are_sums (l r : treenode) :
  weights_are_sums l -> weights_are_sums r -> weights_are_sums (new_node l r).
Proof.
  intros Hl Hr. unfold new_node.
  destruct (F32.ltb (weight l) (weight r)); simpl; auto.
Qed.

(** Every turn of the merge loop allocates one node and leaves one node less
    in [tops]. *)
Lemma merge_loop_merged_nodes (numtop : nat) (tops tops' : list treenode) :
  length tops = numtop ->
  merge_loop numtop tops = Some tops' ->
  (list_sum (map merged_nodes tops') + length tops' =
   list_sum (map merged_nodes tops) + length tops)%nat.
Proof.
  revert tops; induction numtop as [|numtop IH]; intros tops Hlen; cbn [merge_loop].
  - intros [= <-]; reflexivity.
  - destruct numtop as [|k].
    + intros [= <-]; reflexivity.
    + destruct (two_last tops) as [rest [l [r ->]]]; [lia|].
      pose proof (merge_step_eq rest l r) as Hm. rewrite Hlen in Hm.
      rewrite Hm. cbn [bind]. intros H.
      apply IH in H.
      * rewrite H. rewrite insert_node_length.
        rewrite (merged_nodes_Permutation _ _ (insert_node_Permutation (new_node l r) rest)).
        rewrite map_app, list_sum_app, length_app. cbn [map].
        rewrite new_node_merged_nodes. unfold list_sum. cbn [fold_right length]. lia.
      * rewrite insert_node_length. rewrite length_app in Hlen; simpl in Hlen; lia.
Qed.

Lemma merged_nodes_leaves (l : list pnode) : list_sum (map merged_nodes (map leaf_of l)) = 0%nat.
Proof. induction l as [|e l IH]; simpl; [reflexivity | exact IH]. Qed.

Lemma build_tree_in_range (tsize : nat) (ptable : list pnode) :
  (1 <= tsize <= length ptable)%nat ->
  exists root,
    build_tree tsize ptable = Some root /\
    Permutation (leaves root) (map ch (firstn tsize ptable)) /\
    merged_nodes root = (tsize - 1)%nat.
Proof.
  intros Hr. unfold build_tree.
  rewrite create_leaves_firstn by lia. cbn [app skipn bind].
  assert (Hlen : length (map leaf_of (firstn tsize ptable)) = tsize).
  { rewrite length_map. apply firstn_length_le. lia. }
  destruct (merge_loop_root tsize (map leaf_of (firstn tsize ptable)) Hlen)
    as [root [H1 [H2 _]]]; [lia|].
  exists root. rewrite H1; cbn [bind nth_error]. split; [reflexivity|]. split.
  - rewrite H2, leaves_of_leaves. reflexivity.
  - pose proof (merge_loop_merged_nodes _ _ _ Hlen H1) as Hc.
    rewrite merged_nodes_leaves, Hlen in Hc.
    unfold list_sum in Hc. cbn [map fold_right length] in Hc. lia.
Qed.

Lemma build_tree_out_of_range (tsize : nat) (ptable : list pnode) :
  tsize = 0%nat \/ (length ptable < tsize)%nat -> build_tree tsize ptable = None.
Proof.
  intros [-> | Hlt].
  - reflexivity.
  - unfold build_tree. rewrite create_leaves_short by lia. reflexivity.
Qed.

(** X4. EncHuffman reaches [GenerateCode] exactly when [tsize] is at least 1
    and at most the number of rows of [ptable]: with [tsize = 0] it reads
    [tops[0]] of an empty vector, with a greater [tsize] it reads [ptable]
    beyond its end. *)
Theorem build_tree_undefined (tsize : nat) (ptable : list pnode) :
  build_tree tsize ptable = None <-> tsize = 0%nat \/ (length ptable < tsize)%nat.
Proof.
  split.
  - intros H.
    destruct (Nat.eq_dec tsize 0) as [E0|E0]; [left; exact E0|].
    destruct (Nat.lt_ge_cases (length ptable) tsize) as [Hlt|Hge]; [right; exact Hlt|].
    destruct (build_tree_in_range tsize ptable) as [root [E _]]; [lia|]. congruence.
  - apply build_tree_out_of_range.
Qed.

(** X5. The tree EncHuffman builds: its leaves are the characters of the first
    [tsize] rows of [ptable], one leaf per row; it has [tsize - 1] internal
    nodes, one per turn of the merge loop; and the weight of every internal
    node is the single-precision sum of the weights of its two children. *)
Theorem build_tree_shape (tsize : nat) (ptable : list pnode) (root : treenode) :
  build_tree tsize ptable = Some root ->
  Permutation (leaves root) (map ch (firstn tsize ptable)) /\
  length (leaves root) = tsize /\
  merged_nodes root = (tsize - 1)%nat /\
  weights_are_sums root.
Proof.
  intros H.
  assert (Hr : (1 <= tsize <= length ptable)%nat).
  { destruct (Nat.eq_dec tsize 0) as [E0|E0].
    - assert (N : build_tree tsize ptable = None)
        by (apply build_tree_out_of_range; left; exact E0).
      congruence.
    - destruct (Nat.lt_ge_cases (length ptable) tsize) as [Hlt|Hge]; [|lia].
      assert (N : build_tree tsize ptable = None)
        by (apply build_tree_out_of_range; right; exact Hlt).
      congruence. }
  destruct (build_tree_in_range tsize ptable Hr) as [root' [E [Hp Hm]]].
  assert (root' = root) by congruence. subst root'.
  split; [exact Hp|]. split.
  - rewrite (Permutation_length Hp), length_map. apply firstn_length_le. lia.
  - split; [exact Hm|].
    apply (build_tree_invariant weights_are_sums) with (tsize := tsize) (ptable := ptable).
    + intros e. exact I.
    + apply new_node_weights_are_sums.
    + exact H.
Qed.

Lemma build_tree_shape_witness :
  let a := {| ch := "a"%char; p := F32.of_int 3 |} in
  let b := {| ch := "b"%char; p := F32.of_int 2 |} in
  let c := {| ch := "c"%char; p := F32.of_int 1 |} in
  let n := Node (F32.add (p b) (p c)) c1 c0 (leaf_of b) (leaf_of c) in
  let root := Node (F32.add (p a) (weight n)) c1 c0 (leaf_of a) n in
  Permutation (leaves root) (map ch (firstn 3 [a; b; c])) /\
  length (leaves root) = 3%nat /\
  merged_nodes root = (3 - 1)%nat /\
  weights_are_sums root.
Proof.
  intros a b c n root.
  apply (build_tree_shape 3 [a; b; c] root).
  vm_compute. reflexivity.
Defined.

(** ** GenerateCode on any state *)

Lemma chop_removelast (sequence : str) : chop sequence = removelast sequence.
Proof.
  destruct sequence as [|x s] using rev_ind.
  - reflexivity.
  - rewrite chop_last, removelast_last. reflexivity.
Qed.

Lemma paths_extend (t : treenode) (pre : str) (k : char) (w : str) :
  In (k, w) (paths t pre) -> exists path, w = pre ++ path.
Proof.
  revert pre; induction t as [c q | q lc rc l IHl r IHr]; intros pre; cbn [paths].
  - intros [[= _ <-] | []]. exists []. rewrite app_nil_r; reflexivity.
  - intros H. apply in_app_or in H as [H | H].
    + apply IHl in H as [path ->]. exists (lc :: path). rewrite <- app_assoc; reflexivity.
    + apply IHr in H as [path ->]. exists (rc :: path). rewrite <- app_assoc; reflexivity.
Qed.

Lemma leaves_In_paths (t : treenode) (pre : str) (k : char) :
  In k (leaves t) -> exists w, In (k, w) (paths t pre).
Proof.
  rewrite <- (paths_chars t pre). intros H. apply in_map_iff in H.
  destruct H as [[k' w] [E H]]. cbn [fst] in E. subst k'. exists w. exact H.
Qed.

(** X6. One call of GenerateCode on a tree whose leaves carry distinct
    characters, from any [sequence] and any [codes]: it returns with
    [sequence] shortened by its last character (so a call from outside with
    the empty [sequence] leaves it empty for the next one); the entry of a
    character that is not in the tree is left as it was; the entry of a
    character of the tree becomes [sequence] followed by the edge labels down
    to its leaf; and [codes] stays in key order. *)
Theorem GenerateCode_state (node : treenode) (sequence : str) (codes : CharMap.t str) :
  NoDup (leaves node) ->
  fst (GenerateCode node (sequence, codes)) = removelast sequence /\
  (forall k, ~ In k (leaves node) ->
     CharMap.find k (snd (GenerateCode node (sequence, codes))) = CharMap.find k codes) /\
  (forall k, In k (leaves node) ->
     exists path,
       In (k, sequence ++ path) (paths node sequence) /\
       CharMap.find k (snd (GenerateCode node (sequence, codes))) = Some (sequence ++ path)) /\
  (CharMap.ordered codes -> CharMap.ordered (snd (GenerateCode node (sequence, codes)))).
Proof.
  intros Hnd. rewrite GenerateCode_paths. cbn [fst snd].
  split; [apply chop_removelast|]. split; [|split].
  - intros k Hk. apply set_all_other. rewrite paths_chars. exact Hk.
  - intros k Hk.
    destruct (leaves_In_paths node sequence k Hk) as [w Hw].
    destruct (paths_extend _ _ _ _ Hw) as [path ->].
    exists path. split; [exact Hw|].
    apply set_all_find; [rewrite paths_chars; exact Hnd | exact Hw].
  - apply set_all_ordered.
Qed.

Lemma GenerateCode_state_witness :
  fst (GenerateCode (Node (F32.of_int 3) c1 c0 (Leaf "a"%char (F32.of_int 2))
                          (Leaf "b"%char (F32.of_int 1)))
                    ([c0], [("z"%char, [c1])])) = removelast [c0].
Proof.
  refine (proj1 (GenerateCode_state _ [c0] [("z"%char, [c1])] _)).
  repeat constructor; simpl; intuition discriminate.
Defined.

(** ** The table of codewords *)

Lemma NoDup_ascii_length (l : list char) : NoDup l -> (length l <= 256)%nat.
Proof.
  intros H.
  assert (Hincl : incl l (map ascii_of_nat (seq 0 256))).
  { intros c _. apply in_map_iff. exists (nat_of_ascii c). split.
    - apply ascii_nat_embedding.
    - apply in_seq. pose proof (nat_ascii_bounded c). lia. }
  pose proof (NoDup_incl_length H Hincl) as Hl.
  rewrite length_map, length_seq in Hl. exact Hl.
Qed.

Lemma distinct_le_256 (input : list char) : (distinct input <= 256)%nat.
Proof. unfold distinct. apply NoDup_ascii_length, NoDup_nodup. Qed.

(** X7. The member [codes] after EncHuffman, for any input Encode gets
    through: it has one entry per distinct character of the input and no
    other, [tsize] of them, at least 1 and at most 256, in the key order of
    the map, and every codeword is a string of '0' and '1'. *)
Theorem code_table_shape
  (qsort : (pnode -> pnode -> Z) -> list pnode -> list pnode) (input : list char)
  (tsize : nat) (ptable : list pnode) (codes : CharMap.t str) :
  permutes qsort ->
  BuildCode qsort input = Some (tsize, ptable, codes) ->
  (1 <= tsize <= 256)%nat /\
  CharMap.size codes = tsize /\
  CharMap.ordered codes /\
  (forall c, In c (CharMap.keys codes) <-> In c input) /\
  (forall k w, CharMap.find k codes = Some w -> bits w).
Proof.
  intros Hq H.
  pose proof (BuildCode_Some qsort Hq input _ H) as Hne.
  destruct (BuildCode_tree qsort Hq input Hne)
    as [ptable' [codes' [root [E [_ [Hlab [Hnd [Hlen [Hleaves [Hfind [Hord [_ [_ _]]]]]]]]]]]]].
  rewrite E in H. injection H as <- <- <-.
  assert (Hkeys : forall c, In c (CharMap.keys codes') <-> In c input).
  { intros c. rewrite <- Hleaves. split.
    - intros Hc. destruct (CharMap.find c codes') as [w|] eqn:F.
      + apply Hfind in F. apply (paths_In_leaves _ _ _ _ F).
      + apply CharMapFacts.find_None in F. contradiction.
    - intros Hc. destruct (leaves_In_paths root [] c Hc) as [w Hw].
      apply Hfind in Hw. apply CharMapFacts.find_In in Hw.
      unfold CharMap.keys. apply in_map_iff. exists (c, w). split; [reflexivity | exact Hw]. }
  split.
  - split; [|apply distinct_le_256].
    rewrite <- Hlen. apply leaves_nonempty.
  - split; [|split; [exact Hord | split; [exact Hkeys|]]].
    + unfold CharMap.size.
      rewrite <- (length_map fst codes'). fold (CharMap.keys codes').
      rewrite <- Hlen. apply Permutation_length.
      apply NoDup_Permutation; [apply CharMapFacts.ordered_NoDup, Hord | exact Hnd |].
      intros c. rewrite Hkeys. symmetry. apply Hleaves.
    + intros k w Hw. apply Hfind in Hw.
      destruct (paths_shape root [] k w Hlab Hw) as [path [-> [Hb _]]]. exact Hb.
Qed.

Lemma code_table_shape_witness :
  (1 <= 2 <= 256)%nat /\
  CharMap.size [("a"%char, [c0]); ("b"%char, [c1])] = 2%nat.
Proof.
  destruct (code_table_shape isort (chars "abb") 2
              [{| ch := "b"%char; p := F32.div (F32.of_int 2) (F32.of_int 3) |};
               {| ch := "a"%char; p := F32.div (F32.of_int 1) (F32.of_int 3) |}]
              [("a"%char, [c0]); ("b"%char, [c1])]
              isort_permutes)
    as [H1 [H2 _]].
  - vm_compute. reflexivity.
  - split; [exact H1 | exact H2].
Defined.

(** ** Encode: what is written *)

Lemma index_present (codes : CharMap.t str) (c : char) :
  In c (CharMap.keys codes) -> CharMap.index [] c codes = (code_of codes c, codes).
Proof.
  intros H. unfold CharMap.index, code_of, str in *.
  destruct (CharMap.find c codes) eqn:F; [reflexivity|].
  apply CharMapFacts.find_None in F. contradiction.
Qed.

Lemma output_fold_present (input : list char) (out : str) (codes : CharMap.t str) :
  (forall c, In c input -> In c (CharMap.keys codes)) ->
  fold_left output_step input (out, codes) = (out ++ flat_map (code_of codes) input, codes).
Proof.
  revert out; induction input as [|c input IH]; intros out Hin; cbn [fold_left flat_map].
  - rewrite app_nil_r; reflexivity.
  - rewrite output_step_eq, index_present by (apply Hin; left; reflexivity).
    cbn [fst snd]. rewrite IH by (intros x Hx; apply Hin; right; exact Hx).
    rewrite <- app_assoc; reflexivity.
Qed.

Section EncodeOutput.

Variable qsort : (pnode -> pnode -> Z) -> list pnode -> list pnode.
Hypothesis qsort_permutes : permutes qsort.

Lemma BuildCode_keys (input : list char) (tsize : nat) (ptable : list pnode)
  (codes : CharMap.t str) :
  BuildCode qsort input = Some (tsize, ptable, codes) ->
  tsize = distinct input /\
  length ptable = tsize /\
  (forall e, In e ptable -> In (ch e) (CharMap.keys codes)) /\
  (forall c, In c input -> In c (CharMap.keys codes)) /\
  (forall c w, CharMap.find c codes = Some w ->
     bits w /\ (length w <= distinct input - 1)%nat /\
     ((2 <= distinct input)%nat -> (1 <= length w)%nat)).
Proof.
  intros H.
  pose proof (BuildCode_Some qsort qsort_permutes input _ H) as Hne.
  destruct (BuildCode_tree qsort qsort_permutes input Hne)
    as [ptable' [codes' [root [E [_ [Hlab [Hnd [Hlen [Hleaves [Hfind [Hord [Hpl [Hperm _]]]]]]]]]]]]].
  rewrite E in H. injection H as <- <- <-.
  assert (Hkey : forall c, In c (leaves root) -> In c (CharMap.keys codes')).
  { intros c Hc. destruct (leaves_In_paths root [] c Hc) as [w Hw].
    apply Hfind in Hw. apply CharMapFacts.find_In in Hw.
    unfold CharMap.keys. apply in_map_iff. exists (c, w). split; [reflexivity | exact Hw]. }
  split; [reflexivity|]. split; [exact Hpl|]. split; [|split].
  - intros e He. apply Hkey. apply (Permutation_in _ (Permutation_sym Hperm)).
    apply in_map. exact He.
  - intros c Hc. apply Hkey, Hleaves, Hc.
  - intros c w Hw. apply Hfind in Hw.
    destruct (paths_shape root [] c w Hlab Hw) as [path [-> [Hb [Hle Hge]]]].
    cbn [app]. split; [exact Hb|]. split; [rewrite <- Hlen; exact Hle|].
    intros H2. destruct root as [c' q | q lc rc l r]; [|exact Hge].
    cbn [leaves length] in Hlen. lia.
Qed.

Lemma Encode_of_BuildCode (input : list char) (tsize : nat) (ptable : list pnode)
  (codes : CharMap.t str) :
  BuildCode qsort input = Some (tsize, ptable, codes) ->
  output_rows ptable tsize 0 codes =
    Some (map (fun e => (ch e, p e, code_of codes (ch e))) ptable, codes) /\
  fold_left output_step input ([], codes) = (flat_map (code_of codes) input, codes) /\
  Encode qsort input =
    Some {| enc_tsize := tsize;
            enc_rows := map (fun e => (ch e, p e, code_of codes (ch e))) ptable;
            enc_text := flat_map (code_of codes) input |}.
Proof.
  intros H.
  destruct (BuildCode_keys input tsize ptable codes H) as [_ [Hlen [Hpt [Hin _]]]].
  assert (Hrows : output_rows ptable tsize 0 codes =
    Some (map (fun e => (ch e, p e, code_of codes (ch e))) ptable, codes)).
  { rewrite <- Hlen. rewrite output_rows_from; [reflexivity | reflexivity | exact Hpt]. }
  split; [exact Hrows|]. split.
  - apply (output_fold_present input [] codes Hin).
  - unfold Encode. rewrite H; cbn [bind]. rewrite Hrows; cbn [bind fst snd].
    rewrite encode_text_eq. reflexivity.
Qed.

End EncodeOutput.

(** X8. What Encode writes for an input it gets through: [tsize], then one
    row per row of the sorted [ptable], in that order, with the codeword of
    its character, then the codewords of the characters of the input, one
    after the other. Neither loop inserts an entry into [codes]: every
    [codes[...]] it reads is there. *)
Theorem Encode_output
  (qsort : (pnode -> pnode -> Z) -> list pnode -> list pnode) (input : list char)
  (tsize : nat) (ptable : list pnode) (codes : CharMap.t str) :
  permutes qsort ->
  BuildCode qsort input = Some (tsize, ptable, codes) ->
  output_rows ptable tsize 0 codes =
    Some (map (fun e => (ch e, p e, code_of codes (ch e))) ptable, codes) /\
  fold_left output_step input ([], codes) = (flat_map (code_of codes) input, codes) /\
  Encode qsort input =
    Some {| enc_tsize := tsize;
            enc_rows := map (fun e => (ch e, p e, code_of codes (ch e))) ptable;
            enc_text := flat_map (code_of codes) input |}.
Proof. intros Hq. apply Encode_of_BuildCode. exact Hq. Qed.

Lemma Encode_output_witness :
  Encode isort (chars "abb") =
    Some {| enc_tsize := 2;
            enc_rows := [("b"%char, F32.div (F32.of_int 2) (F32.of_int 3), [c1]);
                         ("a"%char, F32.div (F32.of_int 1) (F32.of_int 3), [c0])];
            enc_text := [c0; c1; c1] |}.
Proof.
  refine (proj2 (proj2
    (Encode_output isort (chars "abb") 2
       [{| ch := "b"%char; p := F32.div (F32.of_int 2) (F32.of_int 3) |};
        {| ch := "a"%char; p := F32.div (F32.of_int 1) (F32.of_int 3) |}]
       [("a"%char, [c0]); ("b"%char, [c1])]
       isort_permutes _))).
  vm_compute. reflexivity.
Defined.

Lemma flat_map_length_le {A B : Type} (f : A -> list B) (l : list A) (n : nat) :
  (forall x, In x l -> (length (f x) <= n)%nat) ->
  (length (flat_map f l) <= length l * n)%nat.
Proof.
  induction l as [|x l IH]; intros H; cbn [flat_map length]; [lia|].
  rewrite length_app. pose proof (H x (or_introl eq_refl)).
  assert (length (flat_map f l) <= length l * n)%nat
    by (apply IH; intros y Hy; apply H; right; exact Hy).
  lia.
Qed.

Lemma flat_map_length_ge {A B : Type} (f : A -> list B) (l : list A) :
  (forall x, In x l -> (1 <= length (f x))%nat) ->
  (length l <= length (flat_map f l))%nat.
Proof.
  induction l as [|x l IH]; intros H; cbn [flat_map length]; [lia|].
  rewrite length_app. pose proof (H x (or_introl eq_refl)).
  assert (length l <= length (flat_map f l))%nat
    by (apply IH; intros y Hy; apply H; right; exact Hy).
  lia.
Qed.

(** X9. The text Encode writes is a string of '0' and '1' characters. With
    [n] distinct characters in the input it has at most [n - 1] characters
    per character of the input, and at least one when [n] is 2 or more. The
    table in front of it has [n] rows. *)
Theorem Encode_text_size
  (qsort : (pnode -> pnode -> Z) -> list pnode -> list pnode) (input : list char)
  (e : encoded) :
  permutes qsort ->
  Encode qsort input = Some e ->
  enc_tsize e = distinct input /\
  length (enc_rows e) = distinct input /\
  bits (enc_text e) /\
  (length (enc_text e) <= length input * (distinct input - 1))%nat /\
  ((2 <= distinct input)%nat -> (length input <= length (enc_text e))%nat).
Proof.
  intros Hq H.
  destruct (BuildCode qsort input) as [[[tsize ptable] codes]|] eqn:B;
    [|unfold Encode in H; rewrite B in H; discriminate].
  destruct (Encode_of_BuildCode qsort Hq input tsize ptable codes B) as [_ [_ E]].
  rewrite E in H. injection H as <-. cbn [enc_tsize enc_rows enc_text].
  destruct (BuildCode_keys qsort Hq input tsize ptable codes B) as [Ht [Hlen [_ [Hin Hw]]]].
  assert (Hcode : forall c, In c input ->
            bits (code_of codes c) /\
            (length (code_of codes c) <= distinct input - 1)%nat /\
            ((2 <= distinct input)%nat -> (1 <= length (code_of codes c))%nat)).
  { intros c Hc. unfold code_of.
    destruct (CharMap.find c codes) as [w|] eqn:F.
    - apply (Hw c w F).
    - apply CharMapFacts.find_None in F. elim F. apply Hin, Hc. }
  split; [exact Ht|]. split; [rewrite length_map; lia|]. split; [|split].
  - unfold bits. rewrite flat_map_concat_map. apply Forall_concat.
    apply Forall_map. apply Forall_forall. intros c Hc. apply (Hcode c Hc).
  - apply flat_map_length_le. intros c Hc. apply (Hcode c Hc).
  - intros H2. apply flat_map_length_ge. intros c Hc. apply (Hcode c Hc), H2.
Qed.

Lemma Encode_text_size_witness :
  bits [c0; c1; c1] /\ (length (chars "abb") <= length [c0; c1; c1])%nat.
Proof.
  destruct (Encode_text_size isort (chars "abb")
              {| enc_tsize := 2;
                 enc_rows := [("b"%char, F32.div (F32.of_int 2) (F32.of_int 3), [c1]);
                              ("a"%char, F32.div (F32.of_int 1) (F32.of_int 3), [c0])];
                 enc_text := [c0; c1; c1] |}
              isort_permutes)
    as [_ [_ [H1 [_ H2]]]].
  - vm_compute. reflexivity.
  - split; [exact H1 | apply H2; vm_compute; lia].
Defined.

(** ** Encode then Decode *)

(** X10. With two or more distinct characters in the input, Encode gets
    through, and Decode reads the input back from what Encode wrote as long
    as every codeword is shorter than the 128 bytes of its array [code]: the
    rows give it the same codewords, and the text parses into the same
    characters. That is the case whenever the input has at most 128 distinct
    characters. When a codeword has 128 characters or more, Decode writes it
    beyond the end of the array. *)
Theorem Decode_Encode_two_or_more
  (qsort : (pnode -> pnode -> Z) -> list pnode -> list pnode) (input : list char)
  (garbage : str) (misread : encoded -> option (list char)) :
  permutes qsort ->
  (2 <= distinct input)%nat ->
  exists e tsize ptable codes,
    BuildCode qsort input = Some (tsize, ptable, codes) /\
    Encode qsort input = Some e /\
    ((forall c w, CharMap.find c codes = Some w -> (length w < 128)%nat) ->
     Decode garbage misread e = Some input) /\
    ((exists c w, CharMap.find c codes = Some w /\ (128 <= length w)%nat) ->
     Decode garbage misread e = None) /\
    ((distinct input <= 128)%nat -> Decode garbage misread e = Some input).
Proof.
  intros Hq Hn.
  destruct (BuildCode_decodable qsort input Hq Hn)
    as [ptable [codes [H [Hd [Hin [Hlen [Hpt Hndp]]]]]]].
  destruct (Encode_of_BuildCode qsort Hq input _ ptable codes H) as [_ [_ HE]].
  destruct (BuildCode_keys qsort Hq input _ ptable codes H) as [_ [_ [_ [_ Hbound]]]].
  set (rows := map (fun e => (ch e, p e, code_of codes (ch e))) ptable) in *.
  set (text := flat_map (code_of codes) input) in *.
  exists {| enc_tsize := distinct input; enc_rows := rows; enc_text := text |},
         (distinct input), ptable, codes.
  split; [exact H|]. split; [exact HE|].
  assert (Hrow : forall r, In r rows ->
            exists k, In k (CharMap.keys codes) /\
                      CharMap.find k codes = Some (snd r) /\ fst (fst r) = k).
  { intros r Hr. unfold rows in Hr. apply in_map_iff in Hr as [e [<- He]].
    cbn [fst snd]. exists (ch e).
    assert (Hk : In (ch e) (CharMap.keys codes)) by (apply Hin, Hpt, in_map, He).
    split; [exact Hk|]. split; [|reflexivity].
    unfold code_of. destruct (CharMap.find (ch e) codes) eqn:F; [reflexivity|].
    apply CharMapFacts.find_None in F. contradiction. }
  assert (Hwf : forall r, In r rows -> bits (snd r) /\ snd r <> []).
  { intros r Hr. destruct (Hrow r Hr) as [k [_ [F _]]].
    apply CharMapFacts.find_In in F. destruct Hd as [_ [Hb _]]. apply (Hb k _ F). }
  assert (Hlaid : well_laid {| enc_tsize := distinct input; enc_rows := rows;
                               enc_text := text |} = true).
  { assert (Hlr : (distinct input =? length rows)%nat = true).
    { apply Nat.eqb_eq. unfold rows. rewrite length_map. symmetry. exact Hlen. }
    assert (Hint : (Z.of_nat (distinct input) <? 2 ^ 31) = true).
    { apply Z.ltb_lt. pose proof (distinct_le_256 input). lia. }
    unfold well_laid. cbn [enc_tsize enc_rows enc_text].
    apply andb_true_intro. split; [apply andb_true_intro; split|].
    - exact Hlr.
    - exact Hint.
    - exact (rows_laid_bits rows text Hwf). }
  assert (Hshort : (forall c w, CharMap.find c codes = Some w -> (length w < 128)%nat) ->
            Decode garbage misread
              {| enc_tsize := distinct input; enc_rows := rows; enc_text := text |} =
            Some input).
  { intros Hs. unfold Decode. rewrite Hlaid. cbn [enc_rows enc_text].
    rewrite load_codes_rows.
    2:{ intros r Hr. destruct (Hwf r Hr) as [Hb Hne].
        destruct (Hrow r Hr) as [k [_ [F _]]].
        split; [exact Hb|]. split; [exact Hne | exact (Hs k _ F)]. }
    cbn [bind]. set (loaded := set_all _ _).
    assert (Hsame : forall k, CharMap.find k loaded = CharMap.find k codes).
    { intros k. apply loaded_codes_same; [exact Hndp | apply Hd |].
      intros c. rewrite Hpt. apply Hin. }
    assert (Hndl : NoDup (CharMap.keys loaded)).
    { apply CharMapFacts.ordered_NoDup, set_all_ordered, CharMapFacts.ordered_empty. }
    pose proof (decodable_same codes loaded Hsame Hndl Hd) as Hdl.
    f_equal. unfold text. rewrite <- encode_text_eq.
    replace (encode_text codes input) with (encode_text loaded input).
    - apply decode_encode_text; [exact Hdl|].
      intros c Hc. apply (same_find_keys codes loaded c Hsame), Hin, Hc.
    - rewrite !encode_text_eq. apply flat_map_ext. intros c.
      unfold code_of. rewrite Hsame. reflexivity. }
  split; [exact Hshort|]. split.
  - intros [c [w [F Hlong]]]. unfold Decode. rewrite Hlaid. cbn [enc_rows enc_text].
    rewrite load_codes_overrun; [reflexivity|].
    assert (Hc : In c (map ch ptable)).
    { apply Hpt, Hin. apply CharMapFacts.find_In in F.
      unfold CharMap.keys. apply in_map_iff. exists (c, w). split; [reflexivity | exact F]. }
    apply in_map_iff in Hc as [e [Ec He]].
    exists (ch e, p e, code_of codes (ch e)). split.
    + unfold rows. apply in_map_iff. exists e. split; [reflexivity | exact He].
    + cbn [snd]. unfold code_of. rewrite Ec, F. exact Hlong.
  - intros H128. apply Hshort. intros c w F.
    destruct (Hbound c w F) as [_ [Hle _]]. lia.
Qed.

Lemma Decode_Encode_two_or_more_witness :
  exists e tsize ptable codes,
    BuildCode isort (chars "abracadabra") = Some (tsize, ptable, codes) /\
    Encode isort (chars "abracadabra") = Some e /\
    Decode [] (fun _ => None) e = Some (chars "abracadabra").
Proof.
  destruct (Decode_Encode_two_or_more isort (chars "abracadabra") [] (fun _ => None)
              isort_permutes)
    as [e [tsize [ptable [codes [B [E [_ [_ D]]]]]]]].
  - vm_compute. lia.
  - exists e, tsize, ptable, codes. split; [exact B|]. split; [exact E|].
    apply D. vm_compute. lia.
Defined.

Lemma single_symbol_lost_witness :
  exists c w,
    BuildCode isort (chars "zzz") = Some (1%nat, [{| ch := c; p := w |}], [(c, [])]) /\
    Encode isort (chars "zzz") =
      Some {| enc_tsize := 1; enc_rows := [(c, w, [])]; enc_text := [] |} /\
    Decode (chars "01") (fun _ => None)
      {| enc_tsize := 1; enc_rows := [(c, w, [])]; enc_text := [] |} = Some [].
Proof.
  apply (single_symbol_lost isort (chars "zzz") (chars "01") (fun _ => None) isort_permutes).
  vm_compute. reflexivity.
Defined.

(** ** Decode on any table and any text *)

Lemma match_step_out (accum : str) (out : list char) (e : char * str) :
  exists extra,
    snd (match_step (accum, out) e) = out ++ extra /\
    (forall c, In c extra -> c = fst e).
Proof.
  unfold match_step.
  destruct (strcmp (snd e) accum =? 0); cbn [snd].
  - exists [fst e]. split; [reflexivity|]. intros c [<- | []]. reflexivity.
  - exists []. split; [rewrite app_nil_r; reflexivity|]. intros c [].
Qed.

Lemma scan_codes_out (codes : CharMap.t str) (accum : str) (out : list char) :
  exists extra,
    snd (scan_codes codes (accum, out)) = out ++ extra /\
    (forall c, In c extra -> In c (CharMap.keys codes)).
Proof.
  unfold scan_codes. revert accum out.
  induction codes as [|e codes IH]; intros accum out; cbn [fold_left].
  - exists []. split; [rewrite app_nil_r; reflexivity|]. intros c [].
  - destruct (match_step_out accum out e) as [x1 [E1 H1]].
    rewrite (surjective_pairing (match_step (accum, out) e)), E1.
    set (accum1 := fst (match_step (accum, out) e)).
    destruct (IH accum1 (out ++ x1)) as [x2 [E2 H2]].
    exists (x1 ++ x2). split; [rewrite E2, app_assoc; reflexivity|].
    intros c Hc. cbn [CharMap.keys map]. apply in_app_or in Hc as [Hc | Hc].
    + left. symmetry. apply H1, Hc.
    + right. apply H2, Hc.
Qed.

Lemma decode_loop_out (codes : CharMap.t str) (text accum : str) (out : list char) :
  exists extra,
    decode_loop codes text accum out = out ++ extra /\
    (forall c, In c extra -> In c (CharMap.keys codes)).
Proof.
  revert accum out; induction text as [|c text IH]; intros accum out; cbn [decode_loop].
  - exists []. split; [rewrite app_nil_r; reflexivity|]. intros c [].
  - destruct (char_eqb c EOF_char).
    + exists []. split; [rewrite app_nil_r; reflexivity|]. intros x [].
    + destruct (scan_codes_out codes (accum ++ [c]) out) as [x1 [E1 H1]].
      rewrite (surjective_pairing (scan_codes codes (accum ++ [c], out))).
      unfold str in *. rewrite E1.
      destruct (IH (fst (scan_codes codes (accum ++ [c], out))) (out ++ x1)) as [x2 [E2 H2]].
      exists (x1 ++ x2). split; [rewrite app_assoc; exact E2|].
      intros x Hx. apply in_app_or in Hx as [Hx | Hx]; [apply H1, Hx | apply H2, Hx].
Qed.

(** X12. Whatever the table and whatever the text, the decoding loop only
    appends to what it has written, and every character it writes is a key
    of [codes]; with an empty table it writes nothing. *)
Theorem decode_writes_table_chars (codes : CharMap.t str) (text : str) :
  (forall accum out, exists extra,
      decode_loop codes text accum out = out ++ extra /\
      (forall c, In c extra -> In c (CharMap.keys codes))) /\
  (forall c, In c (decode_text codes text) -> In c (CharMap.keys codes)) /\
  decode_text CharMap.empty text = [].
Proof.
  split; [intros accum out; apply decode_loop_out|]. split.
  - intros c Hc. unfold decode_text in Hc.
    destruct (decode_loop_out codes text [] []) as [extra [E H]].
    rewrite E in Hc. apply H, Hc.
  - unfold decode_text.
    destruct (decode_loop_out CharMap.empty text [] []) as [extra [E H]].
    rewrite E. destruct extra as [|x extra]; [reflexivity|].
    destruct (H x (or_introl eq_refl)).
Qed.

Lemma decode_loop_EOF_char (codes : CharMap.t str) (text rest accum : str) (out : list char) :
  ~ In EOF_char text ->
  decode_loop codes (text ++ EOF_char :: rest) accum out = decode_loop codes text accum out.
Proof.
  revert accum out; induction text as [|c text IH]; intros accum out Hn; cbn [app decode_loop].
  - rewrite char_eqb_refl. reflexivity.
  - destruct (char_eqb c EOF_char) eqn:E; [reflexivity|].
    destruct (scan_codes codes (accum ++ [c], out)) as [accum1 out1].
    apply IH. intros Hin. apply Hn. right. exact Hin.
Qed.

(** X13. The decoding loop stops at the first byte 0xFF of the text, which
    its [char] variable cannot tell from the end of the file: what follows
    that byte is not read. *)
Theorem decode_stops_at_EOF_char (codes : CharMap.t str) (text rest : str) :
  ~ In EOF_char text ->
  decode_text codes (text ++ EOF_char :: rest) = decode_text codes text.
Proof. intros Hn. apply decode_loop_EOF_char. exact Hn. Qed.

Lemma decode_stops_at_EOF_char_witness :
  decode_text [("a"%char, [c0]); ("b"%char, [c1])] ([c0; c1] ++ EOF_char :: [c1; c1]) =
  decode_text [("a"%char, [c0]); ("b"%char, [c1])] [c0; c1].
Proof.
  apply (decode_stops_at_EOF_char [("a"%char, [c0]); ("b"%char, [c1])] [c0; c1] [c1; c1]).
  intros [H | [H | []]]; discriminate H.
Defined.

Lemma c_str_NUL (a more : str) : c_str (a ++ NUL :: more) = c_str a.
Proof.
  induction a as [|x a IH]; cbn [app c_str].
  - rewrite char_eqb_refl. reflexivity.
  - destruct (char_eqb x NUL); [reflexivity | rewrite IH; reflexivity].
Qed.

Lemma scan_codes_no_match (codes : CharMap.t str) (accum : str) (out : list char) :
  (forall k w, In (k, w) codes -> c_str w <> c_str accum) ->
  scan_codes codes (accum, out) = (accum, out).
Proof.
  unfold scan_codes. induction codes as [|[k w] codes IH]; intros H; cbn [fold_left].
  - reflexivity.
  - assert (E : match_step (accum, out) (k, w) = (accum, out)).
    { unfold match_step, strcmp; cbn [fst snd].
      destruct (str_eqb (c_str w) (c_str accum)) eqn:F; [|reflexivity].
      apply str_eqb_eq in F. elim (H k w (or_introl eq_refl)). exact F. }
    rewrite E. apply IH. intros k' w' Hin. apply (H k' w'). right. exact Hin.
Qed.

Lemma decode_loop_after_NUL (codes : CharMap.t str) (text accum more : str) (out : list char) :
  (forall k w, In (k, w) codes -> c_str w <> c_str accum) ->
  decode_loop codes text (accum ++ NUL :: more) out = out.
Proof.
  intros H. revert more; induction text as [|c text IH]; intros more; cbn [decode_loop].
  - reflexivity.
  - destruct (char_eqb c EOF_char); [reflexivity|].
    rewrite <- app_assoc. cbn [app].
    rewrite scan_codes_no_match.
    + apply IH.
    + intros k w Hin. rewrite c_str_NUL. apply (H k w Hin).
Qed.

Lemma decode_loop_NUL (codes : CharMap.t str) (rest accum : str) (out : list char) :
  (forall k w, In (k, w) codes -> c_str w <> c_str accum) ->
  decode_loop codes (NUL :: rest) accum out = out.
Proof.
  intros H. cbn [decode_loop].
  replace (char_eqb NUL EOF_char) with false by reflexivity.
  rewrite scan_codes_no_match.
  - change (accum ++ [NUL]) with (accum ++ NUL :: []). apply decode_loop_after_NUL. exact H.
  - intros k w Hin. change (accum ++ [NUL]) with (accum ++ NUL :: []).
    rewrite c_str_NUL. apply (H k w Hin).
Qed.

(** X14. A NUL byte in the text silences the decoding loop: [strcmp] reads
    the accumulator up to that byte from then on, so when no codeword equals
    that part, nothing more is written, whatever follows. On a decodable
    table, a NUL byte after the codewords of [done] leaves exactly [done]. *)
Theorem decode_silenced_by_NUL (codes : CharMap.t str) (rest : str) :
  (forall accum out,
      (forall k w, In (k, w) codes -> c_str w <> c_str accum) ->
      decode_loop codes (NUL :: rest) accum out = out) /\
  (forall done,
      decodable codes ->
      (forall c, In c done -> In c (CharMap.keys codes)) ->
      decode_text codes (encode_text codes done ++ NUL :: rest) = done).
Proof.
  split.
  - intros accum out H. apply decode_loop_NUL. exact H.
  - intros done Hd Hin. unfold decode_text. rewrite encode_text_eq.
    rewrite (decode_loop_text codes done (NUL :: rest) [] Hd Hin). cbn [app].
    apply decode_loop_NUL. intros k w Hkw.
    destruct Hd as [_ [Hb _]]. destruct (Hb k w Hkw) as [Hbits Hne].
    rewrite (c_str_bits w Hbits). cbn [c_str]. exact Hne.
Qed.

Lemma decode_silenced_by_NUL_witness :
  decode_loop [("a"%char, [c0]); ("b"%char, [c1])] (NUL :: [c0; c1; c1]) [] [] = [].
Proof.
  apply (proj1 (decode_silenced_by_NUL [("a"%char, [c0]); ("b"%char, [c1])] [c0; c1; c1])).
  intros k w [H | [H | []]]; injection H as _ <-; discriminate.
Defined.

(** ** Decode on any string of bits *)

Lemma paths_nonempty (t : treenode) (pre : str) : paths t pre <> [].
Proof.
  revert pre; induction t as [c q | q lc rc l IHl r IHr]; intros pre; cbn [paths].
  - discriminate.
  - intros H. apply app_eq_nil in H as [H _]. exact (IHl _ H).
Qed.

(** Walking down a tree along a string of bits: either a leaf is reached
    after a first part of the string, or the string ends at an internal node,
    above some leaf. *)
Lemma walk_down (t : treenode) (pre s : str) :
  labelled t -> bits s ->
  (exists k w rest, In (k, pre ++ w) (paths t pre) /\ s = w ++ rest) \/
  (exists k more, more <> [] /\ In (k, pre ++ s ++ more) (paths t pre)).
Proof.
  revert pre s; induction t as [c q | q lc rc l IHl r IHr]; intros pre s Hlab Hs.
  - left. exists c, [], s. split; [|reflexivity].
    cbn [paths]. rewrite app_nil_r. left; reflexivity.
  - destruct Hlab as [Hlr [Hl Hr]].
    destruct s as [|b s].
    + right. destruct (paths l (pre ++ [lc])) as [|[k w] ps] eqn:E;
        [exfalso; exact (paths_nonempty _ _ E)|].
      assert (Hin : In (k, w) (paths l (pre ++ [lc]))) by (rewrite E; left; reflexivity).
      destruct (paths_extend _ _ _ _ Hin) as [path ->].
      exists k, (lc :: path). split; [discriminate|].
      cbn [app paths]. apply in_or_app. left.
      rewrite <- app_assoc in Hin. exact Hin.
    + inversion Hs as [|? ? Hb Hs']; subst.
      assert (Hside : b = lc \/ b = rc).
      { destruct Hlr as [[-> ->] | [-> ->]]; destruct Hb as [-> | ->]; auto. }
      destruct Hside as [-> | ->].
      * destruct (IHl (pre ++ [lc]) s Hl Hs') as [[k [w [rest [Hin ->]]]] | [k [more [Hm Hin]]]].
        -- left. exists k, (lc :: w), rest. split; [|reflexivity].
           cbn [paths]. apply in_or_app. left.
           rewrite <- app_assoc in Hin. exact Hin.
        -- right. exists k, more. split; [exact Hm|].
           cbn [paths]. apply in_or_app. left.
           rewrite <- app_assoc in Hin. exact Hin.
      * destruct (IHr (pre ++ [rc]) s Hr Hs') as [[k [w [rest [Hin ->]]]] | [k [more [Hm Hin]]]].
        -- left. exists k, (rc :: w), rest. split; [|reflexivity].
           cbn [paths]. apply in_or_app. right.
           rewrite <- app_assoc in Hin. exact Hin.
        -- right. exists k, more. split; [exact Hm|].
           cbn [paths]. apply in_or_app. right.
           rewrite <- app_assoc in Hin. exact Hin.
Qed.

Section AnyBits.

Variable codes : CharMap.t str.
Variable root : treenode.
Hypothesis codes_decodable : decodable codes.
Hypothesis root_labelled : labelled root.
Hypothesis codes_paths :
  forall k w, CharMap.find k codes = Some w <-> In (k, w) (paths root []).

Lemma path_is_entry (k : char) (w : str) :
  In (k, w) (paths root []) -> In (k, w) codes /\ In k (CharMap.keys codes) /\ w <> [].
Proof.
  intros H. pose proof H as F. apply codes_paths in F.
  apply CharMapFacts.find_In in F. split; [exact F|]. split.
  - unfold CharMap.keys. apply in_map_iff. exists (k, w). split; [reflexivity | exact F].
  - destruct codes_decodable as [_ [Hb _]]. apply (Hb k w F).
Qed.

Lemma parse_bits (n : nat) (text : str) (out : list char) :
  (length text <= n)%nat -> bits text ->
  exists done,
    (forall c, In c done -> In c (leaves root)) /\
    decode_loop codes text [] out = out ++ done /\
    (text = encode_text codes done \/
     exists c todo more, cut_inside codes done c todo more text).
Proof.
  revert text out; induction n as [|n IH]; intros text out Hlen Hb.
  - destruct text; [|simpl in Hlen; lia].
    exists []. split; [intros c []|]. split; [rewrite app_nil_r; reflexivity|].
    left. reflexivity.
  - destruct (walk_down root [] text root_labelled Hb)
      as [[k [w [rest [Hin ->]]]] | [k [more [Hm Hin]]]]; cbn [app] in Hin.
    + destruct (path_is_entry k w Hin) as [He [Hk Hw]].
      apply bits_app in Hb as [_ Hbr].
      assert (Hlr : (length rest <= n)%nat).
      { rewrite length_app in Hlen. destruct w; [congruence | simpl in Hlen; lia]. }
      destruct (IH rest (out ++ [k]) Hlr Hbr) as [done [Hd [Hdec Hshape]]].
      exists (k :: done). split; [|split].
      * intros c [<- | Hc]; [exact (paths_In_leaves _ _ _ _ Hin) | apply Hd, Hc].
      * rewrite (decode_loop_codeword codes k [] w rest out codes_decodable He Hw).
        rewrite Hdec, <- app_assoc. reflexivity.
      * assert (Hcode : code_of codes k = w).
        { unfold code_of. apply codes_paths in Hin. rewrite Hin. reflexivity. }
        destruct Hshape as [-> | [c [todo [more [Hc1 [Hc2 [Hc3 [Hc4 ->]]]]]]]].
        -- left. rewrite !encode_text_eq. cbn [flat_map]. rewrite Hcode. reflexivity.
        -- right. exists c, todo, more. split; [|split; [exact Hc2|split; [exact Hc3|split; [exact Hc4|]]]].
           ++ intros x [<- | Hx]; [exact Hk | apply Hc1, Hx].
           ++ rewrite !encode_text_eq. cbn [flat_map]. rewrite Hcode, <- app_assoc. reflexivity.
    + destruct (path_is_entry k (text ++ more) Hin) as [He _].
      exists []. split; [intros c []|]. split.
      * rewrite app_nil_r.
        exact (decode_loop_truncated codes k [] text more out codes_decodable He Hm).
      * destruct text as [|b text]; [left; reflexivity|].
        right. exists k, (b :: text), more. split; [intros x []|]. split.
        -- apply codes_paths. exact Hin.
        -- split; [discriminate|]. split; [exact Hm | reflexivity].
Qed.

End AnyBits.

(** X15. With two or more distinct characters in the input, the table Encode
    builds leaves no string of bits undecoded: the decoding loop reads any
    string of '0' and '1' as the codewords of a sequence [done] of characters
    of the input, which it writes, followed by nothing or by a part of a
    codeword that stops short of its end, which it drops. *)
Theorem decode_any_bits
  (qsort : (pnode -> pnode -> Z) -> list pnode -> list pnode) (input : list char)
  (tsize : nat) (ptable : list pnode) (codes : CharMap.t str) (text : str) :
  permutes qsort ->
  (2 <= distinct input)%nat ->
  BuildCode qsort input = Some (tsize, ptable, codes) ->
  bits text ->
  exists done,
    (forall c, In c done -> In c input) /\
    decode_text codes text = done /\
    (text = encode_text codes done \/
     exists c todo more, cut_inside codes done c todo more text).
Proof.
  intros Hq Hn H Hb.
  destruct (BuildCode_decodable qsort input Hq Hn) as [ptable1 [codes1 [E1 [Hd _]]]].
  rewrite E1 in H. injection H as <- <- <-.
  assert (Hne : input <> []) by (intros ->; vm_compute in Hn; lia).
  destruct (BuildCode_tree qsort Hq input Hne)
    as [ptable2 [codes2 [root [E2 [_ [Hlab [_ [_ [Hleaves [Hfind _]]]]]]]]]].
  rewrite E1 in E2. injection E2 as <- <-.
  destruct (parse_bits codes1 root Hd Hlab Hfind (length text) text [] (le_n _) Hb)
    as [done [Hin [Hdec Hshape]]].
  exists done. split; [|split].
  - intros c Hc. apply Hleaves, Hin, Hc.
  - exact Hdec.
  - exact Hshape.
Qed.

Lemma decode_any_bits_witness :
  exists done,
    (forall c, In c done -> In c (chars "abb")) /\
    decode_text [("a"%char, [c0]); ("b"%char, [c1])] [c1; c0; c0; c1] = done /\
    ([c1; c0; c0; c1] = encode_text [("a"%char, [c0]); ("b"%char, [c1])] done \/
     exists c todo more,
       cut_inside [("a"%char, [c0]); ("b"%char, [c1])] done c todo more [c1; c0; c0; c1]).
Proof.
  apply (decode_any_bits isort (chars "abb") 2
           [{| ch := "b"%char; p := F32.div (F32.of_int 2) (F32.of_int 3) |};
            {| ch := "a"%char; p := F32.div (F32.of_int 1) (F32.of_int 3) |}]
           [("a"%char, [c0]); ("b"%char, [c1])] [c1; c0; c0; c1] isort_permutes).
  - vm_compute. lia.
  - vm_compute. reflexivity.
  - unfold bits. repeat (apply Forall_cons; [auto|]). apply Forall_nil.
Defined.

(** ** main *)

Lemma strcmp_eq (a b : str) : (strcmp a b =? 0) = true <-> c_str a = c_str b.
Proof.
  unfold strcmp. destruct (str_eqb (c_str a) (c_str b)) eqn:E.
  - apply str_eqb_eq in E. split; [intros _; exact E | reflexivity].
  - split; [discriminate|]. intros H. apply str_eqb_eq in H. congruence.
Qed.

Lemma strcmp_option (a : str) :
  (strcmp a (chars "-d") =? 0) = true <-> c_str a = chars "-d".
Proof. apply (strcmp_eq a (chars "-d")). Qed.

Lemma strcpy_Some (size : nat) (src dst : str) :
  strcpy size src = Some dst <-> (length (c_str src) < size)%nat /\ dst = c_str src.
Proof.
  unfold strcpy. destruct (length (c_str src) <? size)%nat eqn:E.
  - apply Nat.ltb_lt in E. split.
    + intros [= <-]. split; [exact E | reflexivity].
    + intros [_ ->]. reflexivity.
  - apply Nat.ltb_ge in E. split; [discriminate|]. intros [H _]. lia.
Qed.

Lemma strcpy_None (size : nat) (src : str) :
  strcpy size src = None <-> (size <= length (c_str src))%nat.
Proof.
  unfold strcpy. destruct (length (c_str src) <? size)%nat eqn:E.
  - apply Nat.ltb_lt in E. split; [discriminate | lia].
  - apply Nat.ltb_ge in E. split; [intros _; exact E | reflexivity].
Qed.

(** The names [main] would pass on, from the place of the input name on. *)
Lemma main_files_eq (front : list str) (a : str) (rest : list str) (dFlag : bool) :
  main_files (front ++ a :: rest) (length front) dFlag =
  (inputFilename <- strcpy 128 a ;;
   outputFilename <-
     match rest with
     | out :: _ => strcpy 128 out
     | [] => Some (chars (if dFlag then "decoded.txt" else "encoded.txt"))
     end ;;
   Some (if dFlag then CallDecode inputFilename outputFilename
         else CallEncode inputFilename outputFilename)).
Proof.
  unfold main_files.
  assert (A : nth_error (front ++ a :: rest) (length front) = Some a).
  { rewrite nth_error_app2 by lia. rewrite Nat.sub_diag. reflexivity. }
  rewrite A. cbn [bind].
  destruct (strcpy 128 a) as [inputFilename|]; cbn [bind]; [|reflexivity].
  destruct rest as [|out more].
  - assert (E : (S (length front) <? length (front ++ [a]))%nat = false)
      by (apply Nat.ltb_ge; rewrite length_app; cbn [length]; lia).
    rewrite E. destruct dFlag; reflexivity.
  - assert (E : (S (length front) <? length (front ++ a :: out :: more))%nat = true)
      by (apply Nat.ltb_lt; rewrite length_app; cbn [length]; lia).
    rewrite E.
    assert (N : nth_error (front ++ a :: out :: more) (S (length front)) = Some out).
    { rewrite nth_error_app2 by lia.
      replace (S (length front) - length front)%nat with 1%nat by lia. reflexivity. }
    rewrite N. reflexivity.
Qed.

Lemma main_eq (prog a : str) (rest : list str) :
  main (prog :: a :: rest) =
  if strcmp a (chars "-d") =? 0 then
    match rest with
    | [] => Some ShowUsage
    | b :: rest' => main_files ([prog; a] ++ b :: rest') 2 true
    end
  else main_files ([prog] ++ a :: rest) 1 false.
Proof.
  unfold main. cbn [length Nat.eqb nth_error bind].
  destruct (strcmp a (chars "-d") =? 0); [|reflexivity].
  destruct rest as [|b rest']; reflexivity.
Qed.

Lemma main_files_not_usage (front : list str) (a : str) (rest : list str) (dFlag : bool) :
  main_files (front ++ a :: rest) (length front) dFlag <> Some ShowUsage.
Proof.
  rewrite main_files_eq.
  destruct (strcpy 128 a) as [inputFilename|]; cbn [bind]; [|discriminate].
  destruct rest as [|out more].
  - cbn [bind]. destruct dFlag; discriminate.
  - destruct (strcpy 128 out) as [outputFilename|]; cbn [bind]; [|discriminate].
    destruct dFlag; discriminate.
Qed.

(** X16. [main] shows the usage text exactly when it is given no operand: no
    argument at all, or the option [-d] alone. *)
Theorem main_usage (argv : list str) :
  main argv = Some ShowUsage <->
  (exists prog, argv = [prog]) \/
  (exists prog d, argv = [prog; d] /\ c_str d = chars "-d").
Proof.
  destruct argv as [|prog [|a rest]].
  - split; [discriminate|]. intros [[prog H] | [prog [d [H _]]]]; discriminate.
  - split; [|reflexivity]. intros _. left. exists prog. reflexivity.
  - rewrite main_eq. destruct (strcmp a (chars "-d") =? 0) eqn:E.
    + apply strcmp_option in E. destruct rest as [|b rest'].
      * split; [|reflexivity]. intros _. right. exists prog, a. split; [reflexivity | exact E].
      * split.
        -- intros H. elim (main_files_not_usage [prog; a] b rest' true H).
        -- intros [[p H] | [p [d [H _]]]]; discriminate.
    + split.
      * intros H. elim (main_files_not_usage [prog] a rest false H).
      * intros [[p H] | [p [d [H Hd]]]]; [discriminate|].
        injection H as _ <- _. apply strcmp_option in Hd. congruence.
Qed.

(** X17. What [main] calls when the names fit their buffers. Without [-d] as
    the first argument it calls Encode on the first argument, with [-d] it
    calls Decode on the second; the output name is the argument after the
    input name, or encoded.txt, respectively decoded.txt, when there is none.
    Later arguments are not read, and [-d] in a later place is a file name. *)
Theorem main_calls (prog a : str) (rest : list str) :
  (length (c_str a) < 128)%nat ->
  match rest with
  | out :: _ => (length (c_str out) < 128)%nat
  | [] => True
  end ->
  (c_str a <> chars "-d" ->
   main (prog :: a :: rest) =
   Some (CallEncode (c_str a)
           match rest with out :: _ => c_str out | [] => chars "encoded.txt" end)) /\
  (forall d, c_str d = chars "-d" ->
   main (prog :: d :: a :: rest) =
   Some (CallDecode (c_str a)
           match rest with out :: _ => c_str out | [] => chars "decoded.txt" end)).
Proof.
  intros Ha Hout.
  assert (Hin : strcpy 128 a = Some (c_str a)) by (apply strcpy_Some; auto).
  split.
  - intros Hd. rewrite main_eq.
    destruct (strcmp a (chars "-d") =? 0) eqn:E; [apply strcmp_option in E; contradiction|].
    rewrite (main_files_eq [prog] a rest false
               : main_files ([prog] ++ a :: rest) 1 false = _).
    rewrite Hin. cbn [bind].
    destruct rest as [|out more]; [reflexivity|].
    assert (Ho : strcpy 128 out = Some (c_str out)) by (apply strcpy_Some; auto).
    rewrite Ho. reflexivity.
  - intros d Hd. rewrite main_eq.
    apply strcmp_option in Hd. rewrite Hd.
    rewrite (main_files_eq [prog; d] a rest true
               : main_files ([prog; d] ++ a :: rest) 2 true = _).
    rewrite Hin. cbn [bind].
    destruct rest as [|out more]; [reflexivity|].
    assert (Ho : strcpy 128 out = Some (c_str out)) by (apply strcpy_Some; auto).
    rewrite Ho. reflexivity.
Qed.

Lemma main_calls_witness :
  main [chars "huffman"; chars "input.txt"; chars "-d"] =
    Some (CallEncode (chars "input.txt") (chars "-d")) /\
  main [chars "huffman"; chars "-d"; chars "input.txt"; chars "-d"] =
    Some (CallDecode (chars "input.txt") (chars "-d")).
Proof.
  destruct (main_calls (chars "huffman") (chars "input.txt") [chars "-d"]) as [H1 H2].
  - vm_compute. lia.
  - vm_compute. lia.
  - split.
    + apply H1. vm_compute. discriminate.
    + apply (H2 (chars "-d")). reflexivity.
Defined.

Lemma main_files_None (front : list str) (a : str) (rest : list str) (dFlag : bool) :
  main_files (front ++ a :: rest) (length front) dFlag = None <->
  (128 <= length (c_str a))%nat \/
  match rest with
  | out :: _ => (128 <= length (c_str out))%nat
  | [] => False
  end.
Proof.
  rewrite main_files_eq.
  destruct (strcpy 128 a) as [inputFilename|] eqn:Ea; cbn [bind].
  - apply strcpy_Some in Ea as [Ha _].
    destruct rest as [|out more]; cbn [bind].
    + split; [destruct dFlag; discriminate | intros [H | []]; lia].
    + destruct (strcpy 128 out) as [outputFilename|] eqn:Eo; cbn [bind].
      * apply strcpy_Some in Eo as [Ho _].
        split; [destruct dFlag; discriminate | intros [H | H]; lia].
      * apply strcpy_None in Eo. split; [intros _; right; exact Eo | reflexivity].
  - apply strcpy_None in Ea. split; [intros _; left; exact Ea | reflexivity].
Qed.

(** X18. [main] copies the input name and the output name into buffers of
    128 bytes without a check: it overruns one exactly when a name it copies
    has 128 characters or more. Called with an empty [argv] it reads
    [argv[1]], which is not there. *)
Theorem main_undefined (prog a : str) (rest : list str) :
  main [] = None /\
  (c_str a <> chars "-d" ->
   (main (prog :: a :: rest) = None <->
    (128 <= length (c_str a))%nat \/
    match rest with out :: _ => (128 <= length (c_str out))%nat | [] => False end)) /\
  (forall d, c_str d = chars "-d" ->
   (main (prog :: d :: a :: rest) = None <->
    (128 <= length (c_str a))%nat \/
    match rest with out :: _ => (128 <= length (c_str out))%nat | [] => False end)).
Proof.
  split; [reflexivity|]. split.
  - intros Hd. rewrite main_eq.
    destruct (strcmp a (chars "-d") =? 0) eqn:E; [apply strcmp_option in E; contradiction|].
    apply (main_files_None [prog] a rest false).
  - intros d Hd. rewrite main_eq.
    apply strcmp_option in Hd. rewrite Hd.
    apply (main_files_None [prog; d] a rest true).
Qed.

Lemma main_undefined_witness :
  main [chars "huffman"; repeat "x"%char 128] = None.
Proof.
  apply (proj1 (proj2 (main_undefined (chars "huffman") (repeat "x"%char 128) []))).
  - vm_compute. discriminate.
  - left. vm_compute. lia.
Defined.

(** ** Encode: defined on every non-empty input *)

(** X19. Encode stays within its arrays and vectors on every non-empty input
    and on no other: the only input on which it reads out of range is the
    empty one. *)
Theorem Encode_defined
  (qsort : (pnode -> pnode -> Z) -> list pnode -> list pnode) (input : list char) :
  permutes qsort ->
  (Encode qsort input = None <-> input = []).
Proof.
  intros Hq. split.
  - intros H. destruct input as [|c input]; [reflexivity|]. exfalso.
    destruct (BuildCode_tree qsort Hq (c :: input)) as [ptable [codes [root [E _]]]];
      [discriminate|].
    destruct (Encode_of_BuildCode qsort Hq _ _ _ _ E) as [_ [_ E']].
    congruence.
  - intros ->. unfold Encode. rewrite (BuildCode_empty qsort Hq). reflexivity.
Qed.

Lemma Encode_defined_witness : Encode isort (chars "ab") = None <-> chars "ab" = [].
Proof. apply (Encode_defined isort (chars "ab") isort_permutes). Defined.

(** ** Decode: the scan of the table goes on after a match *)

Lemma scan_codes_one (codes : CharMap.t str) (accum : str) (out : list char) :
  (forall k w, In (k, w) codes -> c_str w <> []) ->
  exists extra,
    snd (scan_codes codes (accum, out)) = out ++ extra /\ (length extra <= 1)%nat.
Proof.
  unfold scan_codes. intros H.
  induction codes as [|[k w] codes IH]; cbn [fold_left].
  - exists []. split; [rewrite app_nil_r; reflexivity | simpl; lia].
  - unfold match_step at 2. cbn [fst snd].
    destruct (strcmp w accum =? 0).
    + exists [k]. split; [|simpl; lia].
      assert (N : scan_codes codes ([], out ++ [k]) = ([], out ++ [k])).
      { apply scan_codes_no_match.
        intros k' w' Hin. cbn [c_str]. apply (H k' w'). right. exact Hin. }
      exact (f_equal snd N).
    + apply IH. intros k' w' Hin. apply (H k' w'). right. exact Hin.
Qed.

Lemma decode_loop_length (codes : CharMap.t str) (text accum : str) (out : list char) :
  (forall k w, In (k, w) codes -> c_str w <> []) ->
  (length (decode_loop codes text accum out) <= length out + length text)%nat.
Proof.
  intros H. revert accum out; induction text as [|c text IH]; intros accum out;
    cbn [decode_loop length].
  - lia.
  - destruct (char_eqb c EOF_char); [lia|].
    destruct (scan_codes_one codes (accum ++ [c]) out H) as [extra [E Hl]].
    rewrite (surjective_pairing (scan_codes codes (accum ++ [c], out))).
    unfold str in *. rewrite E.
    pose proof (IH (fst (scan_codes codes (accum ++ [c], out))) (out ++ extra)) as Hi.
    eapply Nat.le_trans; [exact Hi|]. rewrite length_app. lia.
Qed.

(** X20. The scan of the table does not stop at a match, but once the
    accumulator is emptied only an empty codeword can match again: on a table
    without an empty codeword the decoding loop writes at most one character
    per character read. *)
Theorem decode_one_per_char_read (codes : CharMap.t str) (text : str) :
  (forall k w, In (k, w) codes -> c_str w <> []) ->
  (length (decode_text codes text) <= length text)%nat.
Proof.
  intros H. unfold decode_text.
  apply (decode_loop_length codes text [] [] H).
Qed.

Lemma decode_one_per_char_read_witness :
  (length (decode_text [("a"%char, [c0]); ("b"%char, [c0])] [c0; c0; c1]) <= 3)%nat.
Proof.
  apply (decode_one_per_char_read [("a"%char, [c0]); ("b"%char, [c0])] [c0; c0; c1]).
  intros k w [H | [H | []]]; injection H as _ <-; discriminate.
Defined.

(** ** Frequent characters and short codewords *)

Lemma wsum_update_two {X : Type} (f g : X -> Z) (A : list X) (a b : X) :
  (forall x y : X, {x = y} + {x <> y}) ->
  NoDup A -> In a A -> In b A -> a <> b ->
  (forall x, In x A -> x <> a -> x <> b -> g x = f x) ->
  wsum g A = wsum f A + (g a - f a) + (g b - f b).
Proof.
  intros X_dec Hnd Ha Hb Hab Hsame.
  set (h := fun x => if X_dec x a then g a else f x).
  assert (E1 : wsum h A = wsum f A + (h a - f a)).
  { apply wsum_update; [exact Hnd | exact Ha |].
    intros x _ Hx. unfold h. destruct (X_dec x a); [contradiction | reflexivity]. }
  assert (E2 : wsum g A = wsum h A + (g b - h b)).
  { apply wsum_update; [exact Hnd | exact Hb |].
    intros x Hx Hxb. unfold h. destruct (X_dec x a) as [-> | Hxa]; [reflexivity|].
    apply Hsame; assumption. }
  assert (Ea : h a = g a) by (unfold h; destruct (X_dec a a); [reflexivity | contradiction]).
  assert (Eb : h b = f b).
  { unfold h. destruct (X_dec b a) as [E | _]; [symmetry in E; contradiction | reflexivity]. }
  rewrite E2, E1, Ea, Eb. lia.
Qed.

Section FrequentShort.

Variable qsort : (pnode -> pnode -> Z) -> list pnode -> list pnode.
Hypothesis qsort_permutes : permutes qsort.

Variable input : list char.
Variable tsize : nat.
Variable ptable : list pnode.
Variable codes : CharMap.t str.
Variable root : treenode.

Hypothesis built : BuildCode qsort input = Some (tsize, ptable, codes).
Hypothesis ptable_sorted : sorted_ptable ptable.
Hypothesis tree_built : build_tree tsize ptable = Some root.
Hypothesis order_kept : order_preserved input root.

(** No prefix code on the leaves costs less than the table of the program. *)
Lemma tree_cost_minimal :
  NoDup (map ch ptable) /\
  (forall c, In c (map ch ptable) <-> In c input) /\
  prefix_code input codes /\
  (forall C, code_on (map leaf_of ptable) C ->
             cost input codes <= wcost (true_weight input) C (map leaf_of ptable)).
Proof.
  pose proof (BuildCode_Some qsort qsort_permutes input _ built) as Hne.
  destruct (BuildCode_tree qsort qsort_permutes input Hne)
    as [ptable' [codes' [root' [H [Hroot' [Hlab [Hnd [_ [Hin [Hfind [Hordc [Hlen [Hperm _]]]]]]]]]]]]].
  pose proof built as Hb. rewrite H in Hb. injection Hb as E1 E2 E3.
  subst tsize ptable' codes'.
  pose proof tree_built as Hr. rewrite Hroot' in Hr. injection Hr as ->.
  assert (Hndp : NoDup (map ch ptable)) by (eapply Permutation_NoDup; eassumption).
  assert (Hchars : forall c, In c (map ch ptable) <-> In c input).
  { intros c. rewrite <- Hin. split; intros Hc.
    - eapply Permutation_in; [symmetry; exact Hperm | exact Hc].
    - eapply Permutation_in; [exact Hperm | exact Hc]. }
  assert (Hkeys : forall c, In c (CharMap.keys codes) <-> In c input).
  { intros c. rewrite <- Hin. split.
    - intros Hc. destruct (CharMap.find c codes) as [w|] eqn:F.
      + apply Hfind in F. apply (paths_In_leaves _ _ _ _ F).
      + apply CharMapFacts.find_None in F. contradiction.
    - intros Hc. destruct (leaves_In_paths root [] c Hc) as [w Hw].
      apply Hfind in Hw. apply CharMapFacts.find_In in Hw.
      unfold CharMap.keys. apply in_map_iff. exists (c, w). split; [reflexivity | exact Hw]. }
  split; [exact Hndp|]. split; [exact Hchars|]. split.
  - split; [apply CharMapFacts.ordered_NoDup, Hordc|]. split; [exact Hkeys|]. split.
    + intros c w Hw. apply Hfind in Hw.
      destruct (paths_shape root [] c w Hlab Hw) as [path [-> [Hbits _]]]. exact Hbits.
    + intros x y wx wy Hxy Hx Hy. apply Hfind in Hx. apply Hfind in Hy.
      exact (paths_prefix_free root [] x y wx wy Hlab Hnd Hx Hy Hxy).
  - intros C HC.
    assert (Hloop : merge_loop (length ptable) (map leaf_of ptable) = Some [root]).
    { assert (Hpne : ptable <> []).
      { intros E. rewrite E in Hlen. simpl in Hlen. unfold distinct in Hlen.
        destruct input as [|c input']; [congruence|].
        assert (Hc : In c (nodup ascii_dec (c :: input')))
          by (apply nodup_In; left; reflexivity).
        destruct (nodup ascii_dec (c :: input')); [contradiction | discriminate]. }
      destruct (merge_loop_root (length ptable) (map leaf_of ptable)) as [r [E _]].
      - apply length_map.
      - destruct ptable; [congruence | simpl; lia].
      - rewrite <- Hlen in Hroot'. unfold build_tree in Hroot'.
        rewrite create_leaves_all in Hroot'. cbn [bind] in Hroot'.
        rewrite E in Hroot'. cbn [bind nth_error] in Hroot'.
        injection Hroot' as ->. exact E. }
    pose proof (merge_loop_optimal input root order_kept (length ptable) (map leaf_of ptable)
                  (length_map _ _) (leaves_descending _ ptable_sorted)) as Hopt.
    rewrite leaves_of_leaves in Hopt.
    specialize (Hopt Hndp Hloop C HC).
    rewrite leaves_tree_cost in Hopt.
    rewrite (codes_cost input root codes Hnd (CharMapFacts.ordered_NoDup _ Hordc) Hfind).
    lia.
Qed.

End FrequentShort.

Lemma leaf_of_NoDup (ptable : list pnode) :
  NoDup (map ch ptable) -> NoDup (map leaf_of ptable).
Proof.
  intros H. apply (NoDup_map_inv (fun t => match t with Leaf c _ => c | Node _ _ _ _ _ => NUL end)).
  rewrite map_map. exact H.
Qed.

Lemma ptable_row_of (ptable : list pnode) (c : char) :
  In c (map ch ptable) -> exists e, In e ptable /\ ch e = c.
Proof.
  intros H. apply in_map_iff in H as [e [E He]]. exists e. split; [exact He | exact E].
Qed.

(** X21. When [qsort] has left [ptable] sorted and the rounded weights keep
    the order of the exact ones, a character that occurs more often than
    another never gets the longer codeword of the two. *)
Theorem frequent_not_longer
  (qsort : (pnode -> pnode -> Z) -> list pnode -> list pnode) (input : list char)
  (tsize : nat) (ptable : list pnode) (codes : CharMap.t str) (root : treenode)
  (a b : char) (wa wb : str) :
  permutes qsort ->
  BuildCode qsort input = Some (tsize, ptable, codes) ->
  sorted_ptable ptable ->
  build_tree tsize ptable = Some root ->
  order_preserved input root ->
  CharMap.find a codes = Some wa ->
  CharMap.find b codes = Some wb ->
  occurrences input b < occurrences input a ->
  (length wa <= length wb)%nat.
Proof.
  intros Hq Hb Hs Hroot Hord Fa Fb Hocc.
  destruct (tree_cost_minimal qsort Hq input tsize ptable codes root Hb Hs Hroot Hord)
    as [Hndp [Hchars [Hcode Hmin]]].
  destruct (Nat.le_gt_cases (length wa) (length wb)) as [Hle | Hgt]; [exact Hle|].
  exfalso.
  assert (Hab : a <> b) by (intros ->; lia).
  destruct Hcode as [Hndk [Hkeys Hrest]].
  assert (Hka : In a (map ch ptable)).
  { apply Hchars, Hkeys. apply CharMapFacts.find_In in Fa.
    unfold CharMap.keys. apply in_map_iff. exists (a, wa). split; [reflexivity | exact Fa]. }
  assert (Hkb : In b (map ch ptable)).
  { apply Hchars, Hkeys. apply CharMapFacts.find_In in Fb.
    unfold CharMap.keys. apply in_map_iff. exists (b, wb). split; [reflexivity | exact Fb]. }
  destruct (ptable_row_of ptable a Hka) as [ea [Hea Ea]].
  destruct (ptable_row_of ptable b Hkb) as [eb [Heb Eb]].
  set (F := map leaf_of ptable).
  set (la := leaf_of ea). set (lb := leaf_of eb).
  assert (Hla : In la F) by (apply in_map; exact Hea).
  assert (Hlb : In lb F) by (apply in_map; exact Heb).
  assert (Hlab : la <> lb).
  { unfold la, lb, leaf_of. intros E. injection E as E _. congruence. }
  assert (HndF : NoDup F) by (apply leaf_of_NoDup; exact Hndp).
  destruct (leaf_code_on input codes ptable (conj Hndk (conj Hkeys Hrest)) Hndp Hchars)
    as [Hon Hcost].
  fold F in Hon, Hcost.
  set (C0 := leaf_code codes) in *.
  set (C1 := fun t => C0 (swap_letters treenode_eq_dec la lb t)).
  assert (Hon1 : code_on F C1) by (apply code_on_swap; assumption).
  pose proof (Hmin C1 Hon1) as Hopt.
  change (cost input codes <= wcost (true_weight input) C1 F) in Hopt.
  assert (Hdiff : wcost (true_weight input) C1 F =
                  wcost (true_weight input) C0 F
                  + (true_weight input la * Z.of_nat (length (C1 la))
                     - true_weight input la * Z.of_nat (length (C0 la)))
                  + (true_weight input lb * Z.of_nat (length (C1 lb))
                     - true_weight input lb * Z.of_nat (length (C0 lb)))).
  { unfold wcost.
    apply (wsum_update_two
             (fun x => true_weight input x * Z.of_nat (length (C0 x)))
             (fun x => true_weight input x * Z.of_nat (length (C1 x)))
             F la lb treenode_eq_dec HndF Hla Hlb Hlab).
    intros x _ Hxa Hxb. unfold C1, swap_letters.
    destruct (treenode_eq_dec x la); [contradiction|].
    destruct (treenode_eq_dec x lb); [contradiction|]. reflexivity. }
  assert (E1a : C1 la = C0 lb).
  { unfold C1, swap_letters. destruct (treenode_eq_dec la la); [reflexivity | contradiction]. }
  assert (E1b : C1 lb = C0 la).
  { unfold C1, swap_letters. destruct (treenode_eq_dec lb la) as [E | _];
      [symmetry in E; contradiction|].
    destruct (treenode_eq_dec lb lb); [reflexivity | contradiction]. }
  assert (E0a : C0 la = wa).
  { unfold C0, la, leaf_of, leaf_code, code_of. rewrite Ea, Fa. reflexivity. }
  assert (E0b : C0 lb = wb).
  { unfold C0, lb, leaf_of, leaf_code, code_of. rewrite Eb, Fb. reflexivity. }
  assert (Ta : true_weight input la = occurrences input a)
    by (unfold la, leaf_of; cbn [true_weight]; rewrite Ea; reflexivity).
  assert (Tb : true_weight input lb = occurrences input b)
    by (unfold lb, leaf_of; cbn [true_weight]; rewrite Eb; reflexivity).
  rewrite E1a, E1b, E0a, E0b, Ta, Tb in Hdiff.
  rewrite Hcost in Hdiff.
  assert (Hlen : Z.of_nat (length wb) < Z.of_nat (length wa)) by lia.
  assert (Hpos : 0 < (occurrences input a - occurrences input b)
                     * (Z.of_nat (length wa) - Z.of_nat (length wb)))
    by (apply Z.mul_pos_pos; lia).
  rewrite Hdiff in Hopt.
  generalize dependent (Z.of_nat (length wa)). generalize dependent (Z.of_nat (length wb)).
  generalize dependent (occurrences input a). generalize dependent (occurrences input b).
  intros. nia.
Qed.

Lemma frequent_not_longer_witness :
  (length (chars "1") <= length (chars "01"))%nat.
Proof.
  apply (fun ptable root Hb Hs Hr Ho =>
           frequent_not_longer isort (chars "aaaaabbcd") 4 ptable
             [("a"%char, chars "1"); ("b"%char, chars "01"); ("c"%char, chars "001");
              ("d"%char, chars "000")] root
             "a"%char "b"%char (chars "1") (chars "01")
             isort_permutes Hb Hs Hr Ho)
    with (ptable := [{| ch := "a"%char; p := S754_finite false 9320676 (-24) |};
                     {| ch := "b"%char; p := S754_finite false 14913081 (-26) |};
                     {| ch := "c"%char; p := S754_finite false 14913081 (-27) |};
                     {| ch := "d"%char; p := S754_finite false 14913081 (-27) |}])
         (root := Node (S754_finite false 8388608 (-23)) "1"%char "0"%char
                    (Leaf "a"%char (S754_finite false 9320676 (-24)))
                    (Node (S754_finite false 14913081 (-25)) "1"%char "0"%char
                       (Leaf "b"%char (S754_finite false 14913081 (-26)))
                       (Node (S754_finite false 14913081 (-26)) "1"%char "0"%char
                          (Leaf "c"%char (S754_finite false 14913081 (-27)))
                          (Leaf "d"%char (S754_finite false 14913081 (-27)))))).
  - vm_compute. reflexivity.
  - unfold sorted_ptable. repeat constructor; vm_compute; discriminate.
  - vm_compute. reflexivity.
  - intros s t Hs Ht. cbn [nodes app] in Hs, Ht.
    repeat (destruct Hs as [<- | Hs]; [|]); try contradiction;
      repeat (destruct Ht as [<- | Ht]; [|]); try contradiction;
      vm_compute; intros H; try reflexivity; discriminate H.
  - vm_compute. reflexivity.
  - vm_compute. reflexivity.
  - vm_compute. reflexivity.
Defined.

(** ** The edge labels of a merge *)

Lemma build_tree_range (tsize : nat) (ptable : list pnode) (root : treenode) :
  build_tree tsize ptable = Some root -> (1 <= tsize <= length ptable)%nat.
Proof.
  intros H.
  destruct (Nat.eq_dec tsize 0) as [E0|E0].
  - assert (N : build_tree tsize ptable = None)
      by (apply build_tree_out_of_range; left; exact E0).
    congruence.
  - destruct (Nat.lt_ge_cases (length ptable) tsize) as [Hlt|Hge]; [|lia].
    assert (N : build_tree tsize ptable = None)
      by (apply build_tree_out_of_range; right; exact Hlt).
    congruence.
Qed.

(** The node one turn of the merge loop allocates has the last two nodes of
    [tops] as its children, the sum of their weights as its weight, and the
    labels '0' and '1' on its two edges, given by the two weights. *)
Lemma new_node_edges (l r : treenode) :
  exists lcode rcode,
    new_node l r = Node (F32.add (weight l) (weight r)) lcode rcode l r /\
    (F32.ltb (weight l) (weight r) = true -> lcode = c0 /\ rcode = c1) /\
    (F32.ltb (weight l) (weight r) = false -> lcode = c1 /\ rcode = c0).
Proof.
  unfold new_node. destruct (F32.ltb (weight l) (weight r)).
  - exists c0, c1. split; [reflexivity|]. split; [auto | discriminate].
  - exists c1, c0. split; [reflexivity|]. split; [discriminate | auto].
Qed.

(** C8. Every turn of the merge loop takes the last two nodes [l] and [r] of
    [tops] and puts in their place one node with [l] as its left child and
    [r] as its right child, whose edge to the child of strictly smaller
    weight is labelled '0' and whose other edge is labelled '1'; when [l] is
    not strictly lighter than [r] and [r] not strictly lighter than [l], the
    labels are fixed by position: '1' for [l], taken from [tops[numtop-2]],
    and '0' for [r], taken from [tops[numtop-1]]. The tree EncHuffman builds
    has [tsize - 1] such nodes, one per turn, over [tsize] leaves, and the
    two edges of each of them carry these labels. The labels are a function
    of the two weights and the two positions. *)
Theorem edge_labels_follow_weights (tsize : nat) (ptable : list pnode) (root : treenode) :
  build_tree tsize ptable = Some root ->
  labels_by_weight root /\
  labelled root /\
  merged_nodes root = (tsize - 1)%nat /\
  length (leaves root) = tsize /\
  (forall rest l r,
     exists lcode rcode,
       merge_step (length (rest ++ [l; r])) (rest ++ [l; r]) =
         Some (insert_node (Node (F32.add (weight l) (weight r)) lcode rcode l r) rest) /\
       (F32.ltb (weight l) (weight r) = true -> lcode = c0 /\ rcode = c1) /\
       (F32.ltb (weight r) (weight l) = true -> rcode = c0 /\ lcode = c1) /\
       (F32.ltb (weight l) (weight r) = false -> lcode = c1 /\ rcode = c0)).
Proof.
  intros H.
  pose proof (build_tree_range tsize ptable root H) as Hr.
  destruct (build_tree_in_range tsize ptable Hr) as [root' [E [Hp Hm]]].
  assert (root' = root) by congruence. subst root'.
  split.
  { revert H. apply (build_tree_invariant labels_by_weight).
    - intros e; exact I.
    - apply new_node_labels_by_weight. }
  split.
  { revert H. apply (build_tree_invariant labelled).
    - intros e; exact I.
    - apply new_node_labelled. }
  split; [exact Hm|]. split.
  { rewrite (Permutation_length Hp), length_map. apply firstn_length_le. lia. }
  intros rest l r.
  destruct (new_node_edges l r) as [lcode [rcode [En [H1 H2]]]].
  exists lcode, rcode. split; [|split; [exact H1 | split; [|exact H2]]].
  - rewrite merge_step_eq, En. reflexivity.
  - intros Hlt. apply F32Facts.ltb_asym in Hlt. destruct (H2 Hlt) as [-> ->]. auto.
Qed.

Lemma edge_labels_follow_weights_witness :
  let pa := F32.div (F32.of_int 2) (F32.of_int 3) in
  let pb := F32.div (F32.of_int 1) (F32.of_int 3) in
  let root := Node (F32.add pa pb) c1 c0 (Leaf "a"%char pa) (Leaf "b"%char pb) in
  build_tree 2 (isort pnode_compare
                  (build_ptable (fst (count_chars (chars "aab")))
                                (snd (count_chars (chars "aab"))))) = Some root /\
  labels_by_weight root /\
  merged_nodes root = (2 - 1)%nat /\
  length (leaves root) = 2%nat.
Proof.
  intros pa pb root.
  assert (B : build_tree 2 (isort pnode_compare
                  (build_ptable (fst (count_chars (chars "aab")))
                                (snd (count_chars (chars "aab"))))) = Some root)
    by (vm_compute; reflexivity).
  destruct (edge_labels_follow_weights 2 _ root B) as [H1 [_ [H2 [H3 _]]]].
  split; [exact B|]. split; [exact H1|]. split; [exact H2 | exact H3].
Defined.
